(** * d0ma1n: confusable-domain scanner

    A shallow embedding of the core of the d0ma1n library
    ([reverse-map.ts], [generate.ts], [score.ts], [tld.ts], [scan.ts],
    [reverse-scan.ts]) together with the properties its specification
    states about it.

    Modelling conventions.
    - A JavaScript string is the list of its UTF-16 code units ([jsstring]);
      the spread [[...s]] groups surrogate pairs ([spread]), [join("")] is
      [concat].
    - JavaScript numbers that hold scores are exact rationals ([Q]); counters,
      indices and the Bootstring state are integers ([Z] or [nat]).  The
      integer model agrees with the doubles of the source while the values
      stay below 2^53, and in the decoder a value that large has already been
      handed to [String.fromCodePoint], which rejects it.
    - [Array.prototype.sort] is the stable sort the language prescribes
      ([jsSort]); [Array.prototype.slice(0, k)] is [slice0], which counts a
      negative [k] from the end as the language does.
    - Objects used as tables and [Map]s are association lists in insertion
      order ([alookup], [aset]); a [Set] that is only queried is a [gset], a
      [Set] that is iterated is a duplicate-free list ([setAdd]).
    - The data tables of the [namespace-guard] package, the Unicode case
      mappings, the Unicode script property, the platform URL parser and the
      DNS resolver are parameters of the development. *)

From Stdlib Require Import ZArith QArith Qminmax List Lia String Ascii Bool.
From Stdlib Require Import Permutation Sorted Lqa.
From stdpp Require Import base list gmap.
From Equations Require Import Equations.
Import ListNotations.
Open Scope Z_scope.

(** ** JavaScript strings *)

Abbreviation jsstring := (list Z).

(** The code units of an ASCII literal. *)
Definition js (s : string) : jsstring :=
  map (fun a => Z.of_nat (nat_of_ascii a)) (list_ascii_of_string s).

Definition isHighSurrogate (u : Z) : bool := (0xD800 <=? u) && (u <=? 0xDBFF).
Definition isLowSurrogate (u : Z) : bool := (0xDC00 <=? u) && (u <=? 0xDFFF).

(** [[...s]]: iteration by code points; a lone surrogate is an element of
    its own. *)
Fixpoint spread (s : jsstring) : list jsstring :=
  match s with
  | [] => []
  | u :: rest =>
      match rest with
      | v :: rest' =>
          if isHighSurrogate u && isLowSurrogate v
          then [u; v] :: spread rest'
          else [u] :: spread rest
      | [] => [[u]]
      end
  end.

(** [s.codePointAt(0)]; [None] is [undefined]. *)
Definition codePointAt0 (s : jsstring) : option Z :=
  match s with
  | [] => None
  | u :: rest =>
      match rest with
      | v :: _ =>
          if isHighSurrogate u && isLowSurrogate v
          then Some ((u - 0xD800) * 0x400 + (v - 0xDC00) + 0x10000)
          else Some u
      | [] => Some u
      end
  end.

(** The outcome of a call that may raise. *)
Inductive result (A : Type) : Type :=
| Ok (a : A)
| RangeError.
Arguments Ok {A} a.
Arguments RangeError {A}.

(** [String.fromCodePoint(n)] for an integer [n]: a [RangeError] outside
    [0 .. 0x10FFFF]. *)
Definition fromCodePoint (n : Z) : result jsstring :=
  if (n <? 0) || (0x10FFFF <? n) then RangeError
  else if n <? 0x10000 then Ok [n]
  else Ok [0xD800 + (n - 0x10000) / 0x400; 0xDC00 + (n - 0x10000) mod 0x400].

Fixpoint startsWith (p s : jsstring) : bool :=
  match p, s with
  | [], _ => true
  | a :: p', b :: s' => (a =? b) && startsWith p' s'
  | _ :: _, [] => false
  end.

Definition endsWith (p s : jsstring) : bool :=
  startsWith (rev p) (rev s).

Fixpoint lastIndexOfFrom (c : Z) (s : jsstring) (idx found : Z) : Z :=
  match s with
  | [] => found
  | u :: s' => lastIndexOfFrom c s' (idx + 1) (if u =? c then idx else found)
  end.

(** [s.lastIndexOf(c)] for a one-unit needle; [-1] when absent. *)
Definition lastIndexOf (c : Z) (s : jsstring) : Z := lastIndexOfFrom c s 0 (-1).

Fixpoint hexDigits (fuel : nat) (n : Z) (acc : jsstring) : jsstring :=
  match fuel with
  | O => acc
  | S fuel' =>
      let d := n mod 16 in
      let c := if d <? 10 then 0x30 + d else 0x41 + (d - 10) in
      if n / 16 =? 0 then c :: acc else hexDigits fuel' (n / 16) (c :: acc)
  end.

(** [n.toString(16).toUpperCase()] for a code point. *)
Definition toHexUpper (n : Z) : jsstring := hexDigits 6 n [].

Definition padStart (width : nat) (fill : Z) (s : jsstring) : jsstring :=
  repeat fill (width - length s) ++ s.

(** [s.split(sep)] for a one-unit separator: the pieces between the
    separators, one more than there are separators. *)
Fixpoint splitOn (sep : Z) (s : jsstring) : list jsstring :=
  match s with
  | [] => [[]]
  | u :: rest =>
      if u =? sep then [] :: splitOn sep rest
      else
        match splitOn sep rest with
        | piece :: pieces => (u :: piece) :: pieces
        | [] => [[u]]
        end
  end.

(** [l.join(sep)]. *)
Fixpoint joinWith (sep : jsstring) (l : list jsstring) : jsstring :=
  match l with
  | [] => []
  | x :: rest =>
      match rest with
      | [] => x
      | _ :: _ => x ++ sep ++ joinWith sep rest
      end
  end.

(** [l.map(f)] for a callback that may raise: the first error leaves the
    loop. *)
Fixpoint mapResult {A B : Type} (f : A -> result B) (l : list A) : result (list B) :=
  match l with
  | [] => Ok []
  | x :: rest =>
      match f x with
      | RangeError => RangeError
      | Ok y =>
          match mapResult f rest with
          | RangeError => RangeError
          | Ok ys => Ok (y :: ys)
          end
      end
  end.

(** ** JavaScript arrays, tables and sets *)

Definition Qltb (a b : Q) : bool := negb (Qle_bool b a).

(** [l.slice(0, k)]. *)
Definition slice0 {A : Type} (k : Z) (l : list A) : list A :=
  if k <? 0 then take (Z.to_nat (Z.of_nat (length l) + k)) l
  else take (Z.to_nat k) l.

Fixpoint sortInsert {A : Type} (cmp : A -> A -> Q) (x : A) (l : list A) : list A :=
  match l with
  | [] => [x]
  | y :: l' => if Qltb 0 (cmp x y) then y :: sortInsert cmp x l' else x :: l
  end.

(** [l.sort(cmp)]: stable; [x] moves behind [y] only when [cmp x y > 0]. *)
Fixpoint jsSort {A : Type} (cmp : A -> A -> Q) (l : list A) : list A :=
  match l with
  | [] => []
  | x :: l' => sortInsert cmp x (jsSort cmp l')
  end.

Fixpoint alookup {V : Type} (k : jsstring) (l : list (jsstring * V)) : option V :=
  match l with
  | [] => None
  | (k', v) :: l' => if decide (k = k') then Some v else alookup k l'
  end.

(** Assignment to a key: in place when the key is present, appended
    otherwise. *)
Fixpoint aset {V : Type} (k : jsstring) (v : V) (l : list (jsstring * V))
  : list (jsstring * V) :=
  match l with
  | [] => [(k, v)]
  | (k', v') :: l' => if decide (k = k') then (k, v) :: l' else (k', v') :: aset k v l'
  end.

Definition setAdd (x : jsstring) (s : list jsstring) : list jsstring :=
  if bool_decide (x ∈ s) then s else s ++ [x].

(** [new Set(l)] as the list of its elements in insertion order. *)
Definition setOf (l : list jsstring) : list jsstring :=
  fold_left (fun s x => setAdd x s) l [].

(** A loop over [l] whose body may ask to leave the enclosing function:
    the flag is [false] once it has. *)
Fixpoint forEachWhile {A S : Type} (body : A -> S -> S * bool) (l : list A) (st : S)
  : S * bool :=
  match l with
  | [] => (st, true)
  | x :: l' =>
      let '(st', go) := body x st in
      if go then forEachWhile body l' st' else (st', false)
  end.

Definition orElse {A : Type} (a b : option A) : option A :=
  match a with Some _ => a | None => b end.
Infix "??" := orElse (at level 61, left associativity).

(** ** Data model ([types.ts])

    Scores are rational numbers: the model is of the finite scores the
    tables hold, computed without rounding; it has no [NaN] and no
    infinity. *)

Record ConfusableWeight := {
  w_danger : Q;
  w_stableDanger : Q;
  w_idnaPvalid : option bool
}.

Abbreviation ConfusableWeights := (list (jsstring * list (jsstring * ConfusableWeight))).

Record ConfusableSubstitute := {
  cs_char : jsstring;
  cs_codepoint : jsstring;
  cs_script : jsstring;
  cs_danger : Q;
  cs_stableDanger : Q;
  cs_idnaPvalid : bool
}.

Abbreviation PrototypeBuckets := (list (jsstring * list ConfusableSubstitute)).

Record Substitution := {
  position : nat;
  original : jsstring;
  replacement : jsstring;
  codepoint : jsstring;
  script : jsstring;
  danger : Q;
  stableDanger : Q;
  idnaPvalid : bool
}.

Record RawVariant := {
  label : jsstring;
  substitutions : list Substitution
}.

Inductive ThreatLevel := active | parked | unregistered.

Record DnsResult := {
  registered : bool;
  dns_a : list jsstring;
  dns_aaaa : list jsstring;
  dns_mx : list (Z * jsstring);
  dns_ns : list jsstring;
  hasMx : bool;
  threatLevel : ThreatLevel
}.

Record DomainVariant := {
  dv_domain : jsstring;
  dangerScore : Q;
  editCount : nat;
  dv_substitutions : list Substitution;
  bestFont : option jsstring;
  bestFontSsim : option Q;
  punycode : jsstring;
  dns : option DnsResult
}.

Record BuildOptions := {
  bo_includeNonPvalid : option bool;
  bo_maxPerChar : option Z;
  bo_useMaxDanger : option bool
}.

Record GenerateOptions := {
  go_maxEdits : option Z;
  go_maxPerChar : option Z;
  go_maxVariants : option Z;
  go_includeNonPvalid : option bool;
  go_useMaxDanger : option bool
}.

Record ScoreOptions := {
  so_useMaxDanger : option bool;
  so_font : option jsstring
}.

Record ScanOptions := {
  resolve : option bool;
  top : option Z;
  threshold : option Q;
  tlds : option (list jsstring);
  tldVariants : option bool;
  font : option jsstring;
  maxEdits : option Z;
  maxPerChar : option Z;
  maxVariants : option Z;
  includeNonPvalid : option bool;
  useMaxDanger : option bool;
  concurrency : option Z;
  timeout : option Z
}.

Record ScanResult := {
  sr_original : jsstring;
  sr_label : jsstring;
  sr_tld : jsstring;
  totalGenerated : nat;
  sr_variants : list DomainVariant
}.

Record Impersonation := {
  imp_domain : jsstring;
  similarity : Q;
  imp_substitutions : list Substitution
}.

Record ReverseScanResult := {
  rs_domain : jsstring;
  rs_punycode : jsstring;
  impersonates : list Impersonation
}.

Record DomainParts := {
  dp_label : jsstring;
  dp_tld : jsstring
}.

Inductive ScoreKey := KeyDanger | KeyStableDanger.

Definition csScore (key : ScoreKey) (s : ConfusableSubstitute) : Q :=
  match key with KeyDanger => cs_danger s | KeyStableDanger => cs_stableDanger s end.

Definition subScore (key : ScoreKey) (s : Substitution) : Q :=
  match key with KeyDanger => danger s | KeyStableDanger => stableDanger s end.

Definition scoreKeyOf (useMax : bool) : ScoreKey :=
  if useMax then KeyDanger else KeyStableDanger.

(** An answer of the DNS-over-HTTPS resolver ([worker/resolve-doh.ts]). *)
Record DohAnswer := {
  da_name : jsstring;
  da_type : Z;
  da_data : jsstring;
  da_TTL : Z
}.

(** An entry of the worker's rate limiter, and the options of its
    [runScan] ([worker/index.ts]). *)
Record RateEntry := {
  re_count : Z;
  re_resetAt : Z
}.

Record WorkerOptions := {
  wo_resolve : option bool;
  wo_top : option Z;
  wo_font : option jsstring;
  wo_threshold : option Q;
  wo_useMaxDanger : option bool
}.

(** ** Bootstring decoder ([reverse-scan.ts], [decodePunycodeLabel])

    The numbers of the decoder are integers here.  The source computes
    them as doubles, which are the same numbers below 2^53; an encoded part
    of several hundred digits takes the source beyond that range, and this
    model says nothing about its behaviour there. *)

Definition BASE := 36.
Definition TMIN := 1.
Definition TMAX := 26.
Definition SKEW := 38.
Definition DAMP := 700.
Definition INITIAL_BIAS := 72.
Definition INITIAL_N := 128.

(** The [while] loop of [adapt]. *)
Equations? adaptLoop (delta k : Z) : Z * Z by wf (Z.to_nat delta) lt :=
  adaptLoop delta k with Z_gt_dec delta (((BASE - TMIN) * TMAX) / 2) => {
    | left _ := adaptLoop (delta / (BASE - TMIN)) (k + BASE);
    | right _ := (delta, k) }.
Proof.
  change ((BASE - TMIN) * TMAX / 2) with 455 in *.
  change (BASE - TMIN) with 35.
  assert (delta / 35 < delta) by (apply Z.div_lt; lia).
  lia.
Qed.

Definition adapt (delta numPoints : Z) (first : bool) : Z :=
  let delta := if first then delta / DAMP else delta / 2 in
  let delta := delta + delta / numPoints in
  let '(delta, k) := adaptLoop delta 0 in
  k + ((BASE - TMIN + 1) * delta) / (delta + SKEW).

Definition digitValue (cp : Z) : Z :=
  if (0x30 <=? cp) && (cp <=? 0x39) then cp - 0x30 + 26
  else if (0x41 <=? cp) && (cp <=? 0x5a) then cp - 0x41
  else if (0x61 <=? cp) && (cp <=? 0x7a) then cp - 0x61
  else BASE.

(** The inner [while (true)] loop: reads the digits of one delta from
    [rest], the code units of [encoded] from [pos] on, and returns the new
    [i] with what is left of the input. *)
Fixpoint readDigits (bias : Z) (rest : jsstring) (i w k : Z) : Z * jsstring :=
  match rest with
  | [] => (i, [])
  | c :: rest' =>
      let digit := digitValue c in
      if BASE <=? digit then (i, rest')
      else
        let i := i + digit * w in
        let t := if k <=? bias then TMIN
                 else if bias + TMAX <=? k then TMAX else k - bias in
        if digit <? t then (i, rest')
        else readDigits bias rest' i (w * (BASE - t)) (k + BASE)
  end.

Lemma readDigits_length bias rest i w k :
  (length (snd (readDigits bias rest i w k)) <= length rest)%nat.
Proof.
  revert i w k. induction rest as [|c rest IH]; intros i w k; simpl; [lia|].
  destruct (BASE <=? digitValue c); simpl; [lia|].
  match goal with |- context [if ?b then _ else _] => destruct b end; simpl; [lia|].
  specialize (IH (i + digitValue c * w)). etransitivity; [apply IH|lia].
Qed.

(** [output.splice(idx, 0, ch)]. *)
Definition splice (idx : Z) (ch : jsstring) (output : list jsstring) : list jsstring :=
  take (Z.to_nat idx) output ++ ch :: drop (Z.to_nat idx) output.

(** What follows the digit read in one turn of the outer loop: the new
    [n], [bias], [i] and [output], or the error of [String.fromCodePoint]. *)
Definition insertDecoded (n oldi i : Z) (output : list jsstring)
  : result (Z * Z * Z * list jsstring) :=
  let len := Z.of_nat (length output) + 1 in
  let bias := adapt (i - oldi) len (oldi =? 0) in
  let n := n + i / len in
  let i := Z.rem i len in
  match fromCodePoint n with
  | RangeError => RangeError
  | Ok ch => Ok (n, bias, i + 1, splice i ch output)
  end.

(** The outer [while (pos < encoded.length)] loop. *)
Equations? decodeLoop (rest : jsstring) (n bias i : Z) (output : list jsstring)
  : result (list jsstring) by wf (length rest) lt :=
  decodeLoop [] n bias i output := Ok output;
  decodeLoop (c :: rest') n bias oldi output :=
    match insertDecoded n oldi (fst (readDigits bias (c :: rest') oldi 1 BASE)) output with
    | RangeError => RangeError
    | Ok (n', bias', i', output') =>
        decodeLoop (snd (readDigits bias (c :: rest') oldi 1 BASE)) n' bias' i' output'
    end.
Proof.
  pose proof (readDigits_length bias (c :: rest') oldi 1 BASE) as Hlen.
  simpl in *.
  destruct (BASE <=? digitValue c); simpl in *; [lia|].
  match goal with |- context [if ?b then _ else _] => destruct b end; simpl in *; [lia|].
  match goal with |- context [readDigits ?b ?r ?i ?w ?k] =>
    pose proof (readDigits_length b r i w k) end.
  lia.
Qed.

Definition decodePunycodeLabel (input : jsstring) : result jsstring :=
  if negb (startsWith (js "xn--") input) then Ok input
  else
    let encoded := drop 4 input in
    let lastDelim := lastIndexOf 45 encoded in
    let basicChars :=
      if 0 <? lastDelim then spread (take (Z.to_nat lastDelim) encoded) else [] in
    let pos := if 0 <? lastDelim then lastDelim + 1 else 0 in
    match decodeLoop (drop (Z.to_nat pos) encoded) INITIAL_N INITIAL_BIAS 0 basicChars with
    | Ok output => Ok (concat output)
    | RangeError => RangeError
    end.

(** ** Sample tables and platform functions

    A small instance of the parameters of the library, used to run it on
    concrete inputs: ASCII case mapping, three scripts told apart by code
    unit ranges, a URL parser that accepts ASCII host names only, a resolver
    that knows one registered domain, and a handful of Cyrillic look-alikes
    of Latin letters. *)

Module Sample.

Definition toLowerCase (s : jsstring) : jsstring :=
  map (fun u => if (0x41 <=? u) && (u <=? 0x5a) then u + 32 else u) s.

Definition toUpperCase (s : jsstring) : jsstring :=
  map (fun u => if (0x61 <=? u) && (u <=? 0x7a) then u - 32 else u) s.

Definition inRange (lo hi : Z) (ch : jsstring) : bool :=
  existsb (fun u => (lo <=? u) && (u <=? hi)) ch.

Definition matchesScript (name ch : jsstring) : bool :=
  if decide (name = js "Latin") then inRange 0x41 0x5a ch || inRange 0x61 0x7a ch
  else if decide (name = js "Cyrillic") then inRange 0x400 0x4ff ch
  else if decide (name = js "Greek") then inRange 0x370 0x3ff ch
  else false.

Definition urlHostname (s : jsstring) : option jsstring :=
  if forallb (fun u => (0x21 <=? u) && (u <=? 0x7e)) s && (7 <? Z.of_nat (length s))
  then Some (toLowerCase (drop 7 s)) else None.

Definition cyrA : jsstring := [0x430].
Definition cyrE : jsstring := [0x435].
Definition cyrO : jsstring := [0x43e].
Definition cyrP : jsstring := [0x440].
Definition cyrSoft : jsstring := [0x44c].

Definition weight (d sd : Q) (p : bool) : ConfusableWeight :=
  {| w_danger := d; w_stableDanger := sd; w_idnaPvalid := Some p |}.

Definition CONFUSABLE_MAP_FULL : list (jsstring * jsstring) :=
  [ (cyrA, js "a"); (cyrE, js "e"); (cyrO, js "o"); (cyrP, js "p");
    (cyrSoft, js "b") ].

Definition CONFUSABLE_WEIGHTS : ConfusableWeights :=
  [ (cyrA, [ (js "a", weight 1 (9 # 10) true) ]);
    (cyrE, [ (js "e", weight 1 (95 # 100) true) ]);
    (cyrO, [ (js "o", weight 1 (85 # 100) true) ]);
    (cyrP, [ (js "p", weight (9 # 10) (8 # 10) true) ]);
    (cyrSoft, [ (js "b", weight (7 # 10) (6 # 10) true) ]) ].

(** A table with an upper-case key: the pair of [A] and Cyrillic [а] is
    scored apart from the pair of [a] and Cyrillic [а], and is not PVALID. *)
Definition WEIGHTS_UPPER : ConfusableWeights :=
  [ (js "A", [ (cyrA, weight (95 # 100) (95 # 100) false) ]);
    (js "a", [ (cyrA, weight 1 (9 # 10) true) ]) ].

(** Two look-alikes of [a], the second one weaker. *)
Definition WEIGHTS_TWO : ConfusableWeights :=
  [ (js "a", [ (cyrA, weight 1 (9 # 10) true);
               ([0x3b1], weight (8 # 10) (7 # 10) true) ]) ].

Definition FONT_SPECIFIC_WEIGHTS : list (jsstring * ConfusableWeights) :=
  [ (js "Arial", [ (cyrA, [ (js "a", weight 1 1 true) ]) ]) ].

(** The lookups of the sample network: only the variant of [pop.com] with
    Cyrillic [р] is registered, with one address and nothing else. *)
Definition resolve4 (timeoutMs : Z) (domain : jsstring) : list jsstring :=
  if decide (domain = cyrP ++ js "op.com") then [js "192.0.2.1"] else [].

Definition resolve6 (timeoutMs : Z) (domain : jsstring) : list jsstring := [].

Definition resolveMx (timeoutMs : Z) (domain : jsstring) : list (Z * jsstring) := [].

Definition resolveNs (timeoutMs : Z) (domain : jsstring) : list jsstring := [].


(** Two substitutions, one Cyrillic and one Greek. *)
Definition subCyrA : Substitution :=
  {| position := 0; original := js "a"; replacement := cyrA; codepoint := js "U+0430";
     script := js "Cyrillic"; danger := 1; stableDanger := 9 # 10; idnaPvalid := true |}.

Definition subGreekE : Substitution :=
  {| position := 2; original := js "e"; replacement := [0x3b5]; codepoint := js "U+03B5";
     script := js "Greek"; danger := 1; stableDanger := 85 # 100; idnaPvalid := true |}.

(** A substitution whose scores are out of range. *)
Definition subOver : Substitution :=
  {| position := 0; original := js "a"; replacement := cyrA; codepoint := js "U+0430";
     script := js "Cyrillic"; danger := 3 # 2; stableDanger := 3 # 2;
     idnaPvalid := true |}.

(** Scoring by [danger]. *)
Definition scoreByMax : ScoreOptions :=
  {| so_useMaxDanger := Some true; so_font := None |}.

(** The entry for Cyrillic [а] in the bucket of [a]. *)
Definition entryCyrA : ConfusableSubstitute :=
  {| cs_char := cyrA; cs_codepoint := js "U+0430"; cs_script := js "Cyrillic";
     cs_danger := 1; cs_stableDanger := 9 # 10; cs_idnaPvalid := true |}.

(** Two look-alikes of [a] that the two scores rank differently: Cyrillic
    [а] has the higher [stableDanger], Greek [α] the higher [danger]. *)
Definition WEIGHTS_CROSSED : ConfusableWeights :=
  [ (js "a", [ (cyrA, weight (7 # 10) (9 # 10) true);
               ([0x3b1], weight (8 # 10) (6 # 10) true) ]) ].

Definition crossedCyrA : ConfusableSubstitute :=
  {| cs_char := cyrA; cs_codepoint := js "U+0430"; cs_script := js "Cyrillic";
     cs_danger := 7 # 10; cs_stableDanger := 9 # 10; cs_idnaPvalid := true |}.

Definition crossedAlpha : ConfusableSubstitute :=
  {| cs_char := [0x3b1]; cs_codepoint := js "U+03B1"; cs_script := js "Greek";
     cs_danger := 8 # 10; cs_stableDanger := 6 # 10; cs_idnaPvalid := true |}.

(** The bucket of [a] over [WEIGHTS_CROSSED], by [danger] and by
    [stableDanger]. *)
Definition bucketByDanger : list ConfusableSubstitute := [crossedAlpha; crossedCyrA].
Definition bucketByStable : list ConfusableSubstitute := [crossedCyrA; crossedAlpha].

Definition byMaxDanger : BuildOptions :=
  {| bo_includeNonPvalid := Some true; bo_maxPerChar := None;
     bo_useMaxDanger := Some true |}.

Definition includeAll : BuildOptions :=
  {| bo_includeNonPvalid := Some true; bo_maxPerChar := None; bo_useMaxDanger := None |}.

Definition capAt (k : Z) : BuildOptions :=
  {| bo_includeNonPvalid := Some true; bo_maxPerChar := Some k; bo_useMaxDanger := None |}.

Definition oneEditOnly : GenerateOptions :=
  {| go_maxEdits := Some 1; go_maxPerChar := None; go_maxVariants := None;
     go_includeNonPvalid := None; go_useMaxDanger := None |}.

Definition scanWith (resolve : option bool) : ScanOptions :=
  {| resolve := resolve; top := None; threshold := None; tlds := None;
     tldVariants := None; font := None; maxEdits := Some 1; maxPerChar := None;
     maxVariants := None; includeNonPvalid := None; useMaxDanger := None;
     concurrency := None; timeout := None |}.

(** [pаypal], the label [paypal] with Cyrillic [а] in second place. *)
Definition pypal : jsstring := js "p" ++ cyrA ++ js "ypal".

(** The answers of the sample DNS-over-HTTPS resolver: the variant of
    [pop.com] with Cyrillic [р] is an alias with one address, and nothing
    else resolves. *)
Definition dohQuery (domain type : jsstring) : list DohAnswer :=
  if decide (domain = cyrP ++ js "op.com" /\ type = js "A")
  then [ {| da_name := domain; da_type := 5; da_data := js "parking.example.";
            da_TTL := 300 |};
         {| da_name := js "parking.example"; da_type := 1; da_data := js "192.0.2.1";
            da_TTL := 300 |} ]
  else [].

(** Decimal digits at the head of the string, as a number. *)
Definition parseIntOr0 (s : jsstring) : Z :=
  fold_left (fun acc c => if (0x30 <=? c) && (c <=? 0x39) then acc * 10 + (c - 0x30) else acc)
    s 0.

(** What the worker passes to [runScan] for a scan with DNS resolution. *)
Definition workerResolve : WorkerOptions :=
  {| wo_resolve := Some true; wo_top := Some 50; wo_font := None;
     wo_threshold := None; wo_useMaxDanger := None |}.

(** A table of a busy client that is over its limit. *)
Definition busyTable : list (jsstring * RateEntry) :=
  [ (js "198.51.100.7", {| re_count := 11; re_resetAt := 60000 |}) ].

End Sample.

(** ** The library over its data tables and platform functions *)

Section Core.

Set Default Proof Using "Type".

(** [CONFUSABLE_MAP_FULL], [CONFUSABLE_WEIGHTS] and [FONT_SPECIFIC_WEIGHTS]
    of [namespace-guard], each as the list [Object.entries] returns. *)
Variable CONFUSABLE_MAP_FULL : list (jsstring * jsstring).
Variable CONFUSABLE_WEIGHTS : ConfusableWeights.
Variable FONT_SPECIFIC_WEIGHTS : list (jsstring * ConfusableWeights).

(** [String.prototype.toLowerCase] and [toUpperCase]. *)
Variable toLowerCase : jsstring -> jsstring.
Variable toUpperCase : jsstring -> jsstring.

(** [matchesScript name ch]: the test of [/\p{Script=name}/u] on [ch]. *)
Variable matchesScript : jsstring -> jsstring -> bool.

(** [new URL(s).hostname]; [None] when the constructor raises. *)
Variable urlHostname : jsstring -> option jsstring.

(** The lookups of [node:dns/promises] as [safeResolve] delivers them:
    what [dns.resolve4], [dns.resolve6], [dns.resolveMx] and
    [dns.resolveNs] find for a domain, and the empty list on an error or
    once [timeoutMs] milliseconds have passed. *)
Variable resolve4 : Z -> jsstring -> list jsstring.
Variable resolve6 : Z -> jsstring -> list jsstring.
Variable resolveMx : Z -> jsstring -> list (Z * jsstring).
Variable resolveNs : Z -> jsstring -> list jsstring.

(** *** [reverse-map.ts] *)

Definition SCRIPT_DETECTORS : list jsstring :=
  map js ["Latin"; "Cyrillic"; "Greek"; "Armenian"; "Hebrew"; "Arabic";
          "Devanagari"; "Han"; "Hiragana"; "Katakana"; "Hangul"; "Georgian";
          "Thai"]%string.

Fixpoint getScriptFrom (detectors : list jsstring) (ch : jsstring) : jsstring :=
  match detectors with
  | [] => js "Common"
  | name :: rest => if matchesScript name ch then name else getScriptFrom rest ch
  end.

Definition getScript (ch : jsstring) : jsstring := getScriptFrom SCRIPT_DETECTORS ch.

Definition toCodepoint (ch : jsstring) : jsstring :=
  match codePointAt0 ch with
  | None => js "U+0000"
  | Some cp => js "U+" ++ padStart 4 0x30 (toHexUpper cp)
  end.

Definition ensureBucket {V : Type} (proto : jsstring) (raw : list (jsstring * list V))
  : list (jsstring * list V) :=
  match alookup proto raw with
  | Some _ => raw
  | None => raw ++ [(proto, [])]
  end.

Abbreviation RawBuckets := (list (jsstring * list (jsstring * ConfusableSubstitute))).

Definition addEdge (includeNonPvalid : bool) (raw : RawBuckets)
    (from sub : jsstring) (danger stableDanger : Q) (idnaPvalid : bool) : RawBuckets :=
  if decide (from = sub) then raw
  else if negb includeNonPvalid && negb idnaPvalid then raw
  else
    let raw := ensureBucket from raw in
    let bucket := default [] (alookup from raw) in
    match alookup sub bucket with
    | Some existing =>
        if Qltb (cs_stableDanger existing) stableDanger
        then aset from
               (aset sub {| cs_char := cs_char existing;
                            cs_codepoint := cs_codepoint existing;
                            cs_script := cs_script existing;
                            cs_danger := danger;
                            cs_stableDanger := stableDanger;
                            cs_idnaPvalid := cs_idnaPvalid existing || idnaPvalid |}
                     bucket) raw
        else raw
    | None =>
        aset from
          (aset sub {| cs_char := sub;
                       cs_codepoint := toCodepoint sub;
                       cs_script := getScript sub;
                       cs_danger := danger;
                       cs_stableDanger := stableDanger;
                       cs_idnaPvalid := idnaPvalid |}
                bucket) raw
    end.

(** [weights[a]?.[b]], read as a lookup among the rows of the table: [a]
    and [b] are taken to name no property that an object literal
    inherits. *)
Definition weightAt (weights : ConfusableWeights) (a b : jsstring)
  : option ConfusableWeight :=
  match alookup a weights with
  | Some targets => alookup b targets
  | None => None
  end.

(** The four-way lookup written out in [buildPrototypeBuckets],
    [findBestFont] and [reverseScan]. *)
Definition lookupWeight (weights : ConfusableWeights) (ch proto : jsstring)
  : option ConfusableWeight :=
  weightAt weights ch proto
  ?? weightAt weights proto ch
  ?? weightAt weights ch (toUpperCase proto)
  ?? weightAt weights (toUpperCase proto) ch.

Definition weightDanger (w : option ConfusableWeight) : Q :=
  match w with Some w => w_danger w | None => (1 # 2)%Q end.
Definition weightStableDanger (w : option ConfusableWeight) : Q :=
  match w with Some w => w_stableDanger w | None => (1 # 2)%Q end.
Definition weightIdnaPvalid (w : option ConfusableWeight) : bool :=
  match w with Some w => default false (w_idnaPvalid w) | None => false end.

(** Loop 1: the TR39 mappings, both directions. *)
Definition addMapEntry (includeNonPvalid : bool) (raw : RawBuckets)
    (entry : jsstring * jsstring) : RawBuckets :=
  let '(char, prototype) := entry in
  if decide (char = prototype) then raw
  else
    let w := lookupWeight CONFUSABLE_WEIGHTS char prototype in
    let raw := addEdge includeNonPvalid raw prototype char
                 (weightDanger w) (weightStableDanger w) (weightIdnaPvalid w) in
    addEdge includeNonPvalid raw char prototype
      (weightDanger w) (weightStableDanger w) (weightIdnaPvalid w).

(** Loop 2: the scored pairs, both directions, anchored at the lower-cased
    key. *)
Definition addWeightPair (includeNonPvalid : bool) (keyA : jsstring) (raw : RawBuckets)
    (target : jsstring * ConfusableWeight) : RawBuckets :=
  let '(keyB, weight) := target in
  let aLower := toLowerCase keyA in
  let bLower := toLowerCase keyB in
  let raw := addEdge includeNonPvalid raw aLower keyB (w_danger weight)
               (w_stableDanger weight) (default false (w_idnaPvalid weight)) in
  addEdge includeNonPvalid raw bLower keyA (w_danger weight)
    (w_stableDanger weight) (default false (w_idnaPvalid weight)).

Definition addWeightRow (includeNonPvalid : bool) (raw : RawBuckets)
    (row : jsstring * list (jsstring * ConfusableWeight)) : RawBuckets :=
  fold_left (addWeightPair includeNonPvalid (fst row)) (snd row) raw.

Definition buildRaw (includeNonPvalid : bool) : RawBuckets :=
  let raw := fold_left (addMapEntry includeNonPvalid) CONFUSABLE_MAP_FULL [] in
  fold_left (addWeightRow includeNonPvalid) CONFUSABLE_WEIGHTS raw.

(** Loop 3: sort each bucket by the score key, descending, and cap it. *)
Definition finishBucket (scoreKey : ScoreKey) (maxPerChar : Z)
    (entry : jsstring * list (jsstring * ConfusableSubstitute))
  : jsstring * list ConfusableSubstitute :=
  let subs := map snd (snd entry) in
  let subs := jsSort (fun a b => (csScore scoreKey b - csScore scoreKey a)%Q) subs in
  (fst entry, slice0 maxPerChar subs).

Definition buildPrototypeBuckets (options : BuildOptions) : PrototypeBuckets :=
  let includeNonPvalid := default false (bo_includeNonPvalid options) in
  let maxPerChar := default 50 (bo_maxPerChar options) in
  let useMaxDanger := default false (bo_useMaxDanger options) in
  map (finishBucket (scoreKeyOf useMaxDanger) maxPerChar) (buildRaw includeNonPvalid).

Definition noBuildOptions : BuildOptions :=
  {| bo_includeNonPvalid := None; bo_maxPerChar := None; bo_useMaxDanger := None |}.

(** *** [generate.ts] *)

Record GenState := {
  seen : gset jsstring;
  variants : list RawVariant
}.

Definition tryAdd (maxVariants : Z) (mutatedChars : list jsstring)
    (subs : list Substitution) (st : GenState) : GenState * bool :=
  if maxVariants <=? Z.of_nat (length (variants st)) then (st, false)
  else
    let mutated := concat mutatedChars in
    if bool_decide (mutated ∈ seen st) then (st, true)
    else ({| seen := {[ mutated ]} ∪ seen st;
             variants := variants st ++ [{| label := mutated; substitutions := subs |}] |},
          true).

Definition makeSubstitution (pos : nat) (orig : jsstring) (sub : ConfusableSubstitute)
  : Substitution :=
  {| position := pos;
     original := orig;
     replacement := cs_char sub;
     codepoint := cs_codepoint sub;
     script := cs_script sub;
     danger := cs_danger sub;
     stableDanger := cs_stableDanger sub;
     idnaPvalid := cs_idnaPvalid sub |}.

Definition scoreProduct (scoreKey : ScoreKey) (subs : list Substitution) : Q :=
  fold_left (fun product s => (product * subScore scoreKey s)%Q) subs 1%Q.

Definition aggregateScore (subs : list Substitution) (scoreKey : ScoreKey) : Q :=
  match subs with
  | [] => 0%Q
  | _ => (scoreProduct scoreKey subs
          * (1 - (1 # 10) * (inject_Z (Z.of_nat (length subs)) - 1)))%Q
  end.

Definition finalize (variants : list RawVariant) (scoreKey : ScoreKey) : list RawVariant :=
  jsSort (fun a b => (aggregateScore (substitutions b) scoreKey
                      - aggregateScore (substitutions a) scoreKey)%Q) variants.

Definition charAt (chars : list jsstring) (i : nat) : jsstring := nth i chars [].

(** The body of the 1-edit loop at position [i]. *)
Definition oneEditAt (protoBuckets : PrototypeBuckets) (maxPerChar maxVariants : Z)
    (chars : list jsstring) (i : nat) (st : GenState) : GenState * bool :=
  let proto := charAt chars i in
  match alookup proto protoBuckets with
  | None => (st, true)
  | Some subs =>
      forEachWhile
        (fun sub st =>
           tryAdd maxVariants (<[i := cs_char sub]> chars)
             [makeSubstitution i proto sub] st)
        (slice0 maxPerChar subs) st
  end.

Definition oneEditPass (protoBuckets : PrototypeBuckets) (maxPerChar maxVariants : Z)
    (chars : list jsstring) (st : GenState) : GenState * bool :=
  forEachWhile (oneEditAt protoBuckets maxPerChar maxVariants chars)
    (seq 0 (length chars)) st.

(** The body of the 2-edit loops at the pair [i < j]. *)
Definition twoEditAt (protoBuckets : PrototypeBuckets) (maxPerChar maxVariants : Z)
    (chars : list jsstring) (i : nat) (subsI : list ConfusableSubstitute)
    (j : nat) (st : GenState) : GenState * bool :=
  match alookup (charAt chars j) protoBuckets with
  | None => (st, true)
  | Some subsJ =>
      let topI := slice0 (Z.min maxPerChar 5) subsI in
      let topJ := slice0 (Z.min maxPerChar 5) subsJ in
      forEachWhile
        (fun subI st =>
           forEachWhile
             (fun subJ st =>
                tryAdd maxVariants
                  (<[j := cs_char subJ]> (<[i := cs_char subI]> chars))
                  [makeSubstitution i (charAt chars i) subI;
                   makeSubstitution j (charAt chars j) subJ] st)
             topJ st)
        topI st
  end.

Definition twoEditPass (protoBuckets : PrototypeBuckets) (maxPerChar maxVariants : Z)
    (chars : list jsstring) (st : GenState) : GenState * bool :=
  forEachWhile
    (fun i st =>
       match alookup (charAt chars i) protoBuckets with
       | None => (st, true)
       | Some subsI =>
           forEachWhile (twoEditAt protoBuckets maxPerChar maxVariants chars i subsI)
             (seq (i + 1) (length chars - (i + 1))) st
       end)
    (seq 0 (length chars - 1)) st.

Definition generateVariants (label : jsstring) (options : GenerateOptions)
    (buckets : option PrototypeBuckets) : list RawVariant :=
  let maxEdits := default 2 (go_maxEdits options) in
  let maxPerChar := default 10 (go_maxPerChar options) in
  let maxVariants := default 5000 (go_maxVariants options) in
  let useMaxDanger := default false (go_useMaxDanger options) in
  let protoBuckets :=
    match buckets with
    | Some b => b
    | None =>
        buildPrototypeBuckets
          {| bo_includeNonPvalid := go_includeNonPvalid options;
             bo_maxPerChar := Some maxPerChar;
             bo_useMaxDanger := Some useMaxDanger |}
    end in
  let chars := spread (toLowerCase label) in
  let scoreKey := scoreKeyOf useMaxDanger in
  let st := {| seen := ∅; variants := [] |} in
  let '(st, go) := oneEditPass protoBuckets maxPerChar maxVariants chars st in
  if negb go then finalize (variants st) scoreKey
  else if 2 <=? maxEdits then
    let '(st, _) := twoEditPass protoBuckets maxPerChar maxVariants chars st in
    finalize (variants st) scoreKey
  else finalize (variants st) scoreKey.

Definition noGenerateOptions : GenerateOptions :=
  {| go_maxEdits := None; go_maxPerChar := None; go_maxVariants := None;
     go_includeNonPvalid := None; go_useMaxDanger := None |}.

(** *** [score.ts] *)

Definition computeDangerScore (substitutions : list Substitution) (options : ScoreOptions)
  : Q :=
  match substitutions with
  | [] => 0%Q
  | _ =>
      let useMax := default false (so_useMaxDanger options) in
      let scoreKey := scoreKeyOf useMax in
      let product := scoreProduct scoreKey substitutions in
      let editPenalty :=
        (1 - (1 # 10) * (inject_Z (Z.of_nat (length substitutions)) - 1))%Q in
      let score := (product * editPenalty)%Q in
      let scripts : gset jsstring := list_to_set (map script substitutions) in
      let score := if (1 <? size scripts)%nat then (score * (9 # 10))%Q else score in
      Qmax 0 (Qmin 1 score)
  end.

Definition noScoreOptions : ScoreOptions :=
  {| so_useMaxDanger := None; so_font := None |}.

(** The loop over the substitutions of one font: the product of the
    font's [danger] values, or [None] once a pair is missing
    ([allFound = false]). *)
Fixpoint fontProduct (lookup : Substitution -> option ConfusableWeight)
    (substitutions : list Substitution) (product : Q) : option Q :=
  match substitutions with
  | [] => Some product
  | sub :: rest =>
      match lookup sub with
      | Some w => fontProduct lookup rest (product * w_danger w)%Q
      | None => None
      end
  end.

Definition findBestFont (substitutions : list Substitution) : option (jsstring * Q) :=
  let '(bestFont, bestSsim) :=
    fold_left
      (fun (best : option jsstring * Q) (entry : jsstring * ConfusableWeights) =>
         let '(fontName, weights) := entry in
         match fontProduct
                 (fun sub => lookupWeight weights (replacement sub) (original sub))
                 substitutions 1%Q with
         | Some product =>
             if Qltb (snd best) product then (Some fontName, product) else best
         | None => best
         end)
      FONT_SPECIFIC_WEIGHTS (None, 0%Q) in
  match bestFont with
  | Some f => if decide (f = []) then None else Some (f, bestSsim)
  | None => None
  end.

Definition toPunycode (domain : jsstring) : jsstring :=
  match urlHostname (js "http://" ++ domain) with
  | Some hostname => hostname
  | None => domain
  end.

(** The callback of [scoreVariants].  [FONT_SPECIFIC_WEIGHTS[options.font]]
    is read as a lookup among the rows of the table: the font is taken to
    name no property that an object literal inherits. *)
Definition scoreVariant (tld : jsstring) (options : ScoreOptions) (raw : RawVariant)
  : DomainVariant :=
  let domain := label raw ++ js "." ++ tld in
  let score := computeDangerScore (substitutions raw) options in
  let best : option (jsstring * Q) :=
    match so_font options with
    | Some (c :: f) =>
        match alookup (c :: f) FONT_SPECIFIC_WEIGHTS with
        | Some fontWeights =>
            match fontProduct
                    (fun sub =>
                       weightAt fontWeights (replacement sub) (original sub)
                       ?? weightAt fontWeights (original sub) (replacement sub))
                    (substitutions raw) 1%Q with
            | Some product => Some (c :: f, product)
            | None => None
            end
        | None => None
        end
    | _ => findBestFont (substitutions raw)
    end in
  {| dv_domain := domain;
     dangerScore := score;
     editCount := length (substitutions raw);
     dv_substitutions := substitutions raw;
     bestFont := fst <$> best;
     bestFontSsim := snd <$> best;
     punycode := toPunycode domain;
     dns := None |}.

Definition scoreVariants (rawVariants : list RawVariant) (tld : jsstring)
    (options : ScoreOptions) : list DomainVariant :=
  map (scoreVariant tld options) rawVariants.

(** *** [tld.ts] *)

Definition DEFAULT_TLDS : list jsstring := map js ["com"; "net"; "org"; "io"]%string.

Definition IDN_TLDS : list (jsstring * list jsstring) :=
  [ (js "Cyrillic", [js "xn--p1ai"]);
    (js "Arabic", [js "xn--mgbaam7a8h"]);
    (js "Han", [js "xn--fiqs8s"; js "xn--fiqz9s"]);
    (js "Korean", [js "xn--3e0b707e"]);
    (js "Thai", [js "xn--o3cw4h"]);
    (js "Devanagari", [js "xn--h2brj9c"]) ].

Definition knownMultiPart : list jsstring :=
  map js ["co.uk"; "com.au"; "co.nz"; "co.jp"; "com.br"; "co.kr"; "co.in";
          "com.mx"; "com.cn"; "org.uk"; "net.au"; "ac.uk"]%string.

(** [s.replace(/\.$/, "")]. *)
Definition stripTrailingDot (s : jsstring) : jsstring :=
  if endsWith [46] s then take (length s - 1) s else s.

(** The loop over [knownMultiPart]. *)
Fixpoint splitMultiPart (lower : jsstring) (multiPart : list jsstring)
  : option DomainParts :=
  match multiPart with
  | [] => None
  | tld :: rest =>
      if endsWith (46 :: tld) lower
      then Some {| dp_label := take (length lower - (length tld + 1)) lower;
                   dp_tld := tld |}
      else splitMultiPart lower rest
  end.

Definition splitDomain (domain : jsstring) : DomainParts :=
  let lower := stripTrailingDot (toLowerCase domain) in
  match splitMultiPart lower knownMultiPart with
  | Some parts => parts
  | None =>
      let lastDot := lastIndexOf 46 lower in
      if lastDot =? -1 then {| dp_label := lower; dp_tld := js "com" |}
      else {| dp_label := take (Z.to_nat lastDot) lower;
              dp_tld := drop (Z.to_nat (lastDot + 1)) lower |}
  end.

Definition generateTldVariants (tld : jsstring) (buckets : option PrototypeBuckets)
  : list jsstring :=
  let protoBuckets :=
    match buckets with
    | Some b => b
    | None =>
        buildPrototypeBuckets
          {| bo_includeNonPvalid := None; bo_maxPerChar := Some 5;
             bo_useMaxDanger := None |}
    end in
  let chars := spread (toLowerCase tld) in
  snd
    (fold_left
       (fun (st : gset jsstring * list jsstring) i =>
          match alookup (charAt chars i) protoBuckets with
          | None => st
          | Some subs =>
              fold_left
                (fun (st : gset jsstring * list jsstring) sub =>
                   let variant := concat (<[i := cs_char sub]> chars) in
                   if bool_decide (variant ∈ fst st) then st
                   else ({[ variant ]} ∪ fst st, snd st ++ [variant]))
                (slice0 5 subs) st
          end)
       (seq 0 (length chars)) (∅, [])).

(** [IDN_TLDS[script]] is read as a lookup among the rows of the table: the
    scripts are taken to be script names, none of which names a property
    that an object literal inherits. *)
Definition getTargetTlds (baseTlds : option (list jsstring)) (tldVariants : option bool)
    (scripts : option (list jsstring)) : list jsstring :=
  let tlds := setOf (default DEFAULT_TLDS baseTlds) in
  let tlds :=
    match scripts with
    | Some scripts =>
        fold_left
          (fun tlds script =>
             match alookup script IDN_TLDS with
             | Some idnTlds => fold_left (fun tlds t => setAdd t tlds) idnTlds tlds
             | None => tlds
             end)
          scripts tlds
    | None => tlds
    end in
  if default false tldVariants then
    fold_left
      (fun acc tld => fold_left (fun acc v => setAdd v acc) (generateTldVariants tld None) acc)
      tlds tlds
  else tlds.

(** *** [resolve.ts] *)

(** [createNodeResolver({concurrency, timeout}).resolve(domain)].  The
    semaphore only bounds the number of lookups in flight ([concurrency],
    10 by default); it has no part in the answer. *)
Definition createNodeResolver (concurrency timeout : option Z) (domain : jsstring)
  : DnsResult :=
  let timeout := default 3000 timeout in
  let a := resolve4 timeout domain in
  let aaaa := resolve6 timeout domain in
  let mx := resolveMx timeout domain in
  let ns := resolveNs timeout domain in
  let registered :=
    (0 <? length a)%nat || (0 <? length aaaa)%nat || (0 <? length ns)%nat in
  let hasMx := (0 <? length mx)%nat in
  let threatLevel :=
    if hasMx then active else if registered then parked else unregistered in
  {| registered := registered; dns_a := a; dns_aaaa := aaaa; dns_mx := mx; dns_ns := ns;
     hasMx := hasMx; threatLevel := threatLevel |}.

(** *** [scan.ts] *)

Definition boolNum (b : bool) : Z := if b then 1 else 0.

Definition isRegistered (v : DomainVariant) : bool :=
  match dns v with Some d => registered d | None => false end.

Definition isActive (v : DomainVariant) : bool :=
  match dns v with
  | Some d => match threatLevel d with active => true | _ => false end
  | None => false
  end.

(** The comparator of the re-sort after DNS resolution. *)
Definition resolvedOrder (a b : DomainVariant) : Q :=
  let aRegistered := boolNum (isRegistered a) in
  let bRegistered := boolNum (isRegistered b) in
  if negb (aRegistered =? bRegistered) then inject_Z (bRegistered - aRegistered)
  else
    let aActive := boolNum (isActive a) in
    let bActive := boolNum (isActive b) in
    if negb (aActive =? bActive) then inject_Z (bActive - aActive)
    else (dangerScore b - dangerScore a)%Q.

Definition withDns (d : DnsResult) (v : DomainVariant) : DomainVariant :=
  {| dv_domain := dv_domain v;
     dangerScore := dangerScore v;
     editCount := editCount v;
     dv_substitutions := dv_substitutions v;
     bestFont := bestFont v;
     bestFontSsim := bestFontSsim v;
     punycode := punycode v;
     dns := Some d |}.

Definition scan (domain : jsstring) (options : ScanOptions) : ScanResult :=
  let parts := splitDomain domain in
  let top := default 20 (top options) in
  let threshold := default 0%Q (threshold options) in
  let buckets :=
    buildPrototypeBuckets
      {| bo_includeNonPvalid := includeNonPvalid options;
         bo_maxPerChar := maxPerChar options;
         bo_useMaxDanger := useMaxDanger options |} in
  let rawVariants :=
    generateVariants (dp_label parts)
      {| go_maxEdits := maxEdits options;
         go_maxPerChar := maxPerChar options;
         go_maxVariants := maxVariants options;
         go_includeNonPvalid := includeNonPvalid options;
         go_useMaxDanger := useMaxDanger options |}
      (Some buckets) in
  let scripts := setOf (flat_map (fun v => map script (substitutions v)) rawVariants) in
  let tlds :=
    getTargetTlds (Some (default [dp_tld parts] (tlds options)))
      (tldVariants options) (Some scripts) in
  let allVariants :=
    flat_map
      (fun targetTld =>
         scoreVariants rawVariants targetTld
           {| so_useMaxDanger := useMaxDanger options; so_font := font options |})
      tlds in
  let allVariants :=
    List.filter (fun v => Qle_bool threshold (dangerScore v)) allVariants in
  let allVariants :=
    jsSort (fun a b => (dangerScore b - dangerScore a)%Q) allVariants in
  let allVariants := slice0 top allVariants in
  let allVariants :=
    if default false (resolve options) then
      let resolver := createNodeResolver (concurrency options) (timeout options) in
      jsSort resolvedOrder (map (fun v => withDns (resolver (dv_domain v)) v) allVariants)
    else allVariants in
  {| sr_original := domain;
     sr_label := dp_label parts;
     sr_tld := dp_tld parts;
     totalGenerated := length rawVariants;
     sr_variants := allVariants |}.

(** *** [reverse-scan.ts] *)

(** [/^[a-z0-9]$/.test(s)]. *)
Definition isAsciiLowerAlnum (s : jsstring) : bool :=
  match s with
  | [c] => ((0x61 <=? c) && (c <=? 0x7a)) || ((0x30 <=? c) && (c <=? 0x39))
  | _ => false
  end.

(** The prototype the loop of [reverseScan] substitutes for [ch], if any. *)
Definition asciiPrototype (ch : jsstring) : option jsstring :=
  match alookup ch CONFUSABLE_MAP_FULL with
  | Some ascii =>
      if negb (bool_decide (ascii = [])) && isAsciiLowerAlnum ascii
         && negb (bool_decide (ch = ascii))
      then Some ascii else None
  | None => None
  end.

Definition reverseSubstitution (i : nat) (ch ascii : jsstring) : Substitution :=
  let w := lookupWeight CONFUSABLE_WEIGHTS ch ascii in
  {| position := i;
     original := ascii;
     replacement := ch;
     codepoint := toCodepoint ch;
     script := getScript ch;
     danger := weightDanger w;
     stableDanger := weightStableDanger w;
     idnaPvalid := weightIdnaPvalid w |}.

(** The [for] loop of [reverseScan] from index [i] on, with its two
    accumulators. *)
Fixpoint reverseLoop (i : nat) (chars : list jsstring)
    (substitutions : list Substitution) (canonicalChars : list jsstring)
  : list Substitution * list jsstring :=
  match chars with
  | [] => (substitutions, canonicalChars)
  | ch :: rest =>
      match asciiPrototype ch with
      | Some ascii =>
          reverseLoop (S i) rest
            (substitutions ++ [reverseSubstitution i ch ascii])
            (canonicalChars ++ [ascii])
      | None => reverseLoop (S i) rest substitutions (canonicalChars ++ [ch])
      end
  end.

Definition sumStableDanger (substitutions : list Substitution) : Q :=
  fold_left (fun sum s => (sum + stableDanger s)%Q) substitutions 0%Q.

Definition reverseScan (domain : jsstring) : result ReverseScanResult :=
  let parts := splitDomain domain in
  let punycode := toPunycode domain in
  let decoded :=
    if startsWith (js "xn--") (dp_label parts)
    then decodePunycodeLabel (dp_label parts)
    else Ok (dp_label parts) in
  match decoded with
  | RangeError => RangeError
  | Ok decodedLabel =>
      let chars := spread decodedLabel in
      let '(substitutions, canonicalChars) := reverseLoop 0 chars [] [] in
      let canonicalLabel := concat canonicalChars in
      let canonicalDomain := canonicalLabel ++ js "." ++ dp_tld parts in
      let similarity :=
        match substitutions with
        | [] => 0%Q
        | _ => (sumStableDanger substitutions
                / inject_Z (Z.of_nat (length substitutions)))%Q
        end in
      let impersonates :=
        match substitutions with
        | [] => []
        | _ => [{| imp_domain := canonicalDomain;
                   similarity := similarity;
                   imp_substitutions := substitutions |}]
        end in
      Ok {| rs_domain := domain; rs_punycode := punycode; impersonates := impersonates |}
  end.

(** Decoding of a whole domain, label by label. *)
Definition fromPunycode (domain : jsstring) : result jsstring :=
  match mapResult decodePunycodeLabel (splitOn 46 domain) with
  | Ok labels => Ok (joinWith [46] labels)
  | RangeError => RangeError
  end.

(** *** [resolve-doh.ts] *)

(** The answer [createDohResolver] builds from the four record lists it
    has filtered out of the responses. *)
Definition dnsResultOf (a aaaa : list jsstring) (mx : list (Z * jsstring))
    (ns : list jsstring) : DnsResult :=
  let registered :=
    (0 <? length a)%nat || (0 <? length aaaa)%nat || (0 <? length ns)%nat in
  let hasMx := (0 <? length mx)%nat in
  let threatLevel :=
    if hasMx then active else if registered then parked else unregistered in
  {| registered := registered; dns_a := a; dns_aaaa := aaaa; dns_mx := mx; dns_ns := ns;
     hasMx := hasMx; threatLevel := threatLevel |}.

(** The answers of Cloudflare's resolver to a query, as [dohQuery]
    returns them (the empty list on any failure), and
    [parseInt(s, 10) || 0]. *)
Variable dohQuery : jsstring -> jsstring -> list DohAnswer.
Variable parseIntOr0 : jsstring -> Z.

Definition RR_A := 1.
Definition RR_AAAA := 28.
Definition RR_MX := 15.
Definition RR_NS := 2.

(** [createDohResolver().resolve]. *)
Definition dohResolve (domain : jsstring) : DnsResult :=
  let aAnswers := dohQuery domain (js "A") in
  let aaaaAnswers := dohQuery domain (js "AAAA") in
  let mxAnswers := dohQuery domain (js "MX") in
  let nsAnswers := dohQuery domain (js "NS") in
  let a := map da_data (List.filter (fun r => da_type r =? RR_A) aAnswers) in
  let aaaa := map da_data (List.filter (fun r => da_type r =? RR_AAAA) aaaaAnswers) in
  let mx :=
    map (fun r =>
           let parts := splitOn 32 (da_data r) in
           (parseIntOr0 (nth 0 parts []),
            match parts with
            | _ :: exchange :: _ => stripTrailingDot exchange
            | _ => []
            end))
        (List.filter (fun r => da_type r =? RR_MX) mxAnswers) in
  let ns :=
    map (fun r => stripTrailingDot (da_data r))
        (List.filter (fun r => da_type r =? RR_NS) nsAnswers) in
  dnsResultOf a aaaa mx ns.

(** *** [worker/index.ts] *)

(** [checkRateLimit(ip, cost)] at the time [now], on the table
    [rateLimits]: the table after the call, and the verdict. *)
Definition checkRateLimit (now : Z) (ip : jsstring) (cost : option Z)
    (rateLimits : list (jsstring * RateEntry)) : list (jsstring * RateEntry) * bool :=
  let cost := default 1 cost in
  let window := 60000 in
  let maxRequests := 10 in
  let entry :=
    match alookup ip rateLimits with
    | Some entry =>
        if re_resetAt entry <? now
        then {| re_count := 0; re_resetAt := now + window |}
        else entry
    | None => {| re_count := 0; re_resetAt := now + window |}
    end in
  let entry := {| re_count := re_count entry + cost; re_resetAt := re_resetAt entry |} in
  let rateLimits := aset ip entry rateLimits in
  let rateLimits :=
    if (1000 <? length rateLimits)%nat
    then List.filter (fun kv => negb (re_resetAt (snd kv) <? now)) rateLimits
    else rateLimits in
  (rateLimits, re_count entry <=? maxRequests).

(** [applyFilters(result, threshold, top)]. *)
Definition applyFilters (result : ScanResult) (threshold : Q) (top : Z) : ScanResult :=
  if Qeq_bool threshold 0 && (Z.of_nat (length (sr_variants result)) <=? top) then result
  else
    {| sr_original := sr_original result;
       sr_label := sr_label result;
       sr_tld := sr_tld result;
       totalGenerated := totalGenerated result;
       sr_variants :=
         slice0 top
           (List.filter (fun v => Qle_bool threshold (dangerScore v))
              (sr_variants result)) |}.

(** [getBuckets()], on the module-level cache: the buckets, and the cache
    after the call. *)
Definition getBuckets (cachedBuckets : option PrototypeBuckets)
  : PrototypeBuckets * option PrototypeBuckets :=
  match cachedBuckets with
  | Some buckets => (buckets, cachedBuckets)
  | None =>
      let buckets :=
        buildPrototypeBuckets
          {| bo_includeNonPvalid := None; bo_maxPerChar := Some 10;
             bo_useMaxDanger := None |} in
      (buckets, Some buckets)
  end.

(** The worker's [runScan], with the cache it leaves behind. *)
Definition runScan (domain : jsstring) (options : WorkerOptions)
    (cachedBuckets : option PrototypeBuckets) : ScanResult * option PrototypeBuckets :=
  let parts := splitDomain domain in
  let top := Z.min 200 (default 20 (wo_top options)) in
  let threshold := default 0%Q (wo_threshold options) in
  let '(buckets, cache) := getBuckets cachedBuckets in
  let rawVariants :=
    generateVariants (dp_label parts)
      {| go_maxEdits := Some 1; go_maxPerChar := Some 10; go_maxVariants := Some 2000;
         go_includeNonPvalid := None; go_useMaxDanger := wo_useMaxDanger options |}
      (Some buckets) in
  let scripts := setOf (flat_map (fun v => map script (substitutions v)) rawVariants) in
  let tlds := getTargetTlds (Some [dp_tld parts]) None (Some scripts) in
  let allVariants :=
    flat_map
      (fun targetTld =>
         scoreVariants rawVariants targetTld
           {| so_useMaxDanger := wo_useMaxDanger options; so_font := wo_font options |})
      tlds in
  let allVariants :=
    List.filter (fun v => Qle_bool threshold (dangerScore v)) allVariants in
  let allVariants :=
    jsSort (fun a b => (dangerScore b - dangerScore a)%Q) allVariants in
  let allVariants := slice0 top allVariants in
  let allVariants :=
    if default false (wo_resolve options) then
      jsSort resolvedOrder (map (fun v => withDns (dohResolve (dv_domain v)) v) allVariants)
    else allVariants in
  ({| sr_original := domain;
      sr_label := dp_label parts;
      sr_tld := dp_tld parts;
      totalGenerated := length rawVariants;
      sr_variants := allVariants |}, cache).

(** *** [format.ts] *)

(** The length of the longest run of [0-9;] at the head of [s]. *)
Fixpoint paramRun (s : jsstring) : nat :=
  match s with
  | c :: rest =>
      if ((0x30 <=? c) && (c <=? 0x39)) || (c =? 0x3b) then S (paramRun rest) else O
  | [] => O
  end.

(** The length of the match of [/\x1b\[[0-9;]*m/] at the head of [s]; zero
    when there is none.  The run of parameters is taken whole: the [m] that
    must follow it is not a parameter, so a shorter run cannot match
    either. *)
Definition escapeLength (s : jsstring) : nat :=
  match s with
  | u :: v :: rest =>
      if (u =? 0x1b) && (v =? 0x5b) then
        match drop (paramRun rest) rest with
        | m :: _ => if m =? 0x6d then (paramRun rest + 3)%nat else O
        | [] => O
        end
      else O
  | _ => O
  end.

(** [s.replace(/\x1b\[[0-9;]*m/g, "")], scanning from the left; [skip]
    counts the code units of the current match that are still to drop. *)
Fixpoint stripFrom (skip : nat) (s : jsstring) : jsstring :=
  match s with
  | [] => []
  | c :: rest =>
      match skip with
      | S skip' => stripFrom skip' rest
      | O =>
          match escapeLength s with
          | O => c :: stripFrom O rest
          | S skip' => stripFrom skip' rest
          end
      end
  end.

Definition stripAnsi (s : jsstring) : jsstring := stripFrom O s.

(** [pad(s, width)]. *)
Definition pad (s : jsstring) (width : Z) : jsstring :=
  let stripped := stripAnsi s in
  let padding := Z.max 0 (width - Z.of_nat (length stripped)) in
  s ++ repeat 32 (Z.to_nat padding).

(** [x.toFixed(digits)] and [String(n)], the number formatting of the
    platform. *)
Variable toFixed : Q -> nat -> jsstring.
Variable numberToString : Z -> jsstring.

Definition threatLevelName (level : ThreatLevel) : jsstring :=
  match level with
  | active => js "active"
  | parked => js "parked"
  | unregistered => js "unregistered"
  end.

(** [[...new Set(v.substitutions.map((s) => s.script))].join("+")]. *)
Definition scriptsOf (v : DomainVariant) : jsstring :=
  joinWith (js "+") (setOf (map script (dv_substitutions v))).

Definition CSV_HEADERS : list jsstring :=
  map js ["domain"; "danger_score"; "edit_count"; "scripts"; "punycode"; "best_font";
          "best_font_ssim"; "registered"; "threat_level"; "a_records";
          "mx_records"]%string.

(** The fields of the row of a variant, as strings. *)
Definition csvFields (v : DomainVariant) : list jsstring :=
  [ dv_domain v;
    toFixed (dangerScore v) 4;
    numberToString (Z.of_nat (editCount v));
    scriptsOf v;
    punycode v;
    default [] (bestFont v);
    default [] ((fun ssim => toFixed ssim 4) <$> bestFontSsim v);
    if isRegistered v then js "true" else js "false";
    default [] ((fun d => threatLevelName (threatLevel d)) <$> dns v);
    default [] ((fun d => joinWith (js ";") (dns_a d)) <$> dns v);
    default []
      ((fun d =>
          joinWith (js ";")
            (map (fun m => numberToString (fst m) ++ js ":" ++ snd m) (dns_mx d)))
       <$> dns v) ].

(** A field between quotes, each quote in it doubled. *)
Definition csvField (field : jsstring) : jsstring :=
  [34] ++ flat_map (fun c => if c =? 34 then [34; 34] else [c]) field ++ [34].

Definition csvRow (fields : list jsstring) : jsstring :=
  joinWith (js ",") (map csvField fields).

Definition formatCsv (result : ScanResult) : jsstring :=
  joinWith [10]
    (joinWith (js ",") CSV_HEADERS
     :: map (fun v => csvRow (csvFields v)) (sr_variants result)).

(** ** Vocabulary of the properties *)

(** Sorted by [key], largest first. *)
Definition byKeyDesc {A : Type} (key : A -> Q) (a b : A) : Prop := (key b <= key a)%Q.

(** The clamp to [0, 1], by cases. *)
Definition clamp01 (x : Q) : Q :=
  if Qltb x 0 then 0%Q else if Qltb 1 x then 1%Q else x.

(** The product of the score key over the substitutions. *)
Definition productOf (key : ScoreKey) (subs : list Substitution) : Q :=
  foldr (fun s acc => (subScore key s * acc)%Q) 1%Q subs.

(** The product of [score] over the substitutions. *)
Definition productBy (score : Substitution -> Q) (subs : list Substitution) : Q :=
  foldr (fun s acc => (score s * acc)%Q) 1%Q subs.

(** [1 - 0.1 * (editCount - 1)]. *)
Definition editPenalty (editCount : nat) : Q :=
  (1 - (1 # 10) * (inject_Z (Z.of_nat editCount) - 1))%Q.

(** The substitutions span more than one script. *)
Definition mixedScripts (subs : list Substitution) : Prop :=
  exists s1 s2, s1 ∈ subs /\ s2 ∈ subs /\ script s1 <> script s2.

(** [raw[from]?.get(sub)]. *)
Definition lookupEntry (raw : RawBuckets) (from sub : jsstring)
  : option ConfusableSubstitute :=
  match alookup from raw with
  | Some bucket => alookup sub bucket
  | None => None
  end.

(** The edge passes the two guards of [addEdge]. *)
Definition accepted (includeNonPvalid : bool) (from sub : jsstring) (idnaPvalid : bool)
  : Prop :=
  from <> sub /\ (includeNonPvalid || idnaPvalid = true).

(** The entry an accepted edge leaves behind, given the entry found. *)
Definition entryAfter (existing : option ConfusableSubstitute) (sub : jsstring)
    (danger stableDanger : Q) (idnaPvalid : bool) : ConfusableSubstitute :=
  match existing with
  | Some e =>
      if Qltb (cs_stableDanger e) stableDanger
      then {| cs_char := cs_char e; cs_codepoint := cs_codepoint e;
              cs_script := cs_script e; cs_danger := danger;
              cs_stableDanger := stableDanger;
              cs_idnaPvalid := cs_idnaPvalid e || idnaPvalid |}
      else e
  | None =>
      {| cs_char := sub; cs_codepoint := toCodepoint sub; cs_script := getScript sub;
         cs_danger := danger; cs_stableDanger := stableDanger;
         cs_idnaPvalid := idnaPvalid |}
  end.

(** Keys are unique, and an entry is filed under its own character, which
    is not the anchor of its bucket. *)
Definition rawWf (raw : RawBuckets) : Prop :=
  NoDup (map fst raw) /\
  forall from bucket, (from, bucket) ∈ raw ->
    NoDup (map fst bucket) /\
    forall sub e, (sub, e) ∈ bucket -> cs_char e = sub /\ sub <> from.

(** No bucket lists its own anchor. *)
Definition noSelfEntries (buckets : PrototypeBuckets) : Prop :=
  forall proto subs sub,
    alookup proto buckets = Some subs -> sub ∈ subs -> cs_char sub <> proto.

(** Sorted by the score key, largest first. *)
Definition sortedByScore (key : ScoreKey) (subs : list ConfusableSubstitute) : Prop :=
  StronglySorted (fun a b => (csScore key b <= csScore key a)%Q) subs.

(** A variant that replaces the character at one position by an entry of
    its bucket. *)
Definition oneEdit (buckets : PrototypeBuckets) (chars : list jsstring) (v : RawVariant)
  : Prop :=
  exists i proto subs sub,
    chars !! i = Some proto /\ alookup proto buckets = Some subs /\ sub ∈ subs /\
    v = {| label := concat (<[i := cs_char sub]> chars);
           substitutions := [makeSubstitution i proto sub] |}.

(** A variant that does so at two positions, the lower one first. *)
Definition twoEdit (buckets : PrototypeBuckets) (chars : list jsstring) (v : RawVariant)
  : Prop :=
  exists i j protoI protoJ subsI subsJ subI subJ,
    (i < j)%nat /\
    chars !! i = Some protoI /\ chars !! j = Some protoJ /\
    alookup protoI buckets = Some subsI /\ alookup protoJ buckets = Some subsJ /\
    subI ∈ subsI /\ subJ ∈ subsJ /\
    v = {| label := concat (<[j := cs_char subJ]> (<[i := cs_char subI]> chars));
           substitutions := [makeSubstitution i protoI subI;
                             makeSubstitution j protoJ subJ] |}.

(** The buckets [generateVariants] works with. *)
Definition bucketsUsed (options : GenerateOptions) (buckets : option PrototypeBuckets)
  : PrototypeBuckets :=
  match buckets with
  | Some b => b
  | None =>
      buildPrototypeBuckets
        {| bo_includeNonPvalid := go_includeNonPvalid options;
           bo_maxPerChar := Some (default 10 (go_maxPerChar options));
           bo_useMaxDanger := Some (default false (go_useMaxDanger options)) |}
  end.

(** A string that holds one code point and is not a lone surrogate. *)
Definition isScalar (c : jsstring) : bool :=
  match c with
  | [u] => negb (isHighSurrogate u) && negb (isLowSurrogate u)
  | [u; v] => isHighSurrogate u && isLowSurrogate v
  | _ => false
  end.

(** The first element begins with a low surrogate. *)
Definition startsLow (l : list jsstring) : bool :=
  match l with
  | (v :: _) :: _ => isLowSurrogate v
  | _ => false
  end.

(** The arrays the spread produces: elements of one code unit or of a
    surrogate pair, and no lone high surrogate right before a low one. *)
Inductive wellChunked : list jsstring -> Prop :=
| wc_nil : wellChunked []
| wc_unit u l :
    wellChunked l -> (isHighSurrogate u = true -> startsLow l = false) ->
    wellChunked ([u] :: l)
| wc_pair u v l :
    isHighSurrogate u = true -> isLowSurrogate v = true -> wellChunked l ->
    wellChunked ([u; v] :: l).

(** Every character the buckets offer is one code point. *)
Definition scalarEntries (buckets : PrototypeBuckets) : Prop :=
  Forall (fun entry : jsstring * list ConfusableSubstitute =>
            Forall (fun sub => isScalar (cs_char sub) = true) (snd entry))
         buckets.

(** The number of positions at which two character arrays differ. *)
Fixpoint diffCount (a b : list jsstring) : nat :=
  match a, b with
  | x :: a', y :: b' => (if decide (x = y) then 0 else 1) + diffCount a' b'
  | _, _ => 0
  end.

Definition positionsIncreasing (subs : list Substitution) : Prop :=
  StronglySorted lt (map position subs).

(** The aggregate score in the words of the specification. *)
Definition specAggregate (key : ScoreKey) (subs : list Substitution) : Q :=
  (productOf key subs * editPenalty (length subs))%Q.

(** Non-increasing in the aggregate score. *)
Definition sortedByAggregate (key : ScoreKey) (vs : list RawVariant) : Prop :=
  StronglySorted
    (fun a b => (specAggregate key (substitutions b)
                 <= specAggregate key (substitutions a))%Q) vs.

(** [a] may stand before [b] after DNS resolution: registered before
    unregistered, then active before the rest, then the higher score. *)
Definition resolvedBefore (a b : DomainVariant) : Prop :=
  (isRegistered a = true /\ isRegistered b = false) \/
  (isRegistered a = isRegistered b /\
   ((isActive a = true /\ isActive b = false) \/
    (isActive a = isActive b /\ (dangerScore b <= dangerScore a)%Q))).

(** Non-increasing in the composite danger score. *)
Definition sortedByDanger (vs : list DomainVariant) : Prop :=
  StronglySorted (fun a b => (dangerScore b <= dangerScore a)%Q) vs.

Definition isOneEditAt (i : nat) (v : RawVariant) : bool :=
  match substitutions v with
  | [s] => bool_decide (position s = i)
  | _ => false
  end.

(** The number of 1-edit variants that position [i] contributes. *)
Definition oneEditsAt (i : nat) (vs : list RawVariant) : nat :=
  length (List.filter (isOneEditAt i) vs).

(** [raw[x]] has an entry for [y]. *)
Definition rawEdge (raw : RawBuckets) (x y : jsstring) : Prop :=
  is_Some (lookupEntry raw x y).

Definition symmetricRaw (raw : RawBuckets) : Prop :=
  forall x y, rawEdge raw x y -> rawEdge raw y x.

(** Every key of [CONFUSABLE_WEIGHTS], outer and inner, is its own lower
    case. *)
Definition lowerCaseKeys : Prop :=
  Forall (fun row : jsstring * list (jsstring * ConfusableWeight) =>
            toLowerCase (fst row) = fst row /\
            Forall (fun target => toLowerCase (fst target) = fst target) (snd row))
         CONFUSABLE_WEIGHTS.

(** The cap [k] leaves every bucket whole. *)
Definition capKeepsAll (k : Z) : Prop :=
  Forall (fun entry : jsstring * list (jsstring * ConfusableSubstitute) =>
            Z.of_nat (length (snd entry)) <= k)
         (buildRaw true).



(** What [reverseScan] reports, or its error. *)
Definition impersonatesOf (domain : jsstring) : result (list Impersonation) :=
  match reverseScan domain with
  | Ok r => Ok (impersonates r)
  | RangeError => RangeError
  end.

(** The canonical character of [ch]: its prototype when [reverseScan]
    takes it for a confusable, [ch] itself otherwise. *)
Definition canonicalChar (ch : jsstring) : jsstring :=
  default ch (asciiPrototype ch).

(** The substitutions detected in [chars], the first of which stands at
    index [i]. *)
Fixpoint detectedFrom (i : nat) (chars : list jsstring) : list Substitution :=
  match chars with
  | [] => []
  | ch :: rest =>
      match asciiPrototype ch with
      | Some ascii => reverseSubstitution i ch ascii :: detectedFrom (S i) rest
      | None => detectedFrom (S i) rest
      end
  end.

(** The arithmetic mean of the [stableDanger] values. *)
Definition meanStableDanger (subs : list Substitution) : Q :=
  (foldr Qplus 0 (map stableDanger subs) / inject_Z (Z.of_nat (length subs)))%Q.

(** The label [reverseScan] maps back, or the error of its decoding. *)
Definition decodedLabelOf (domain : jsstring) : result jsstring :=
  if startsWith (js "xn--") (dp_label (splitDomain domain))
  then decodePunycodeLabel (dp_label (splitDomain domain))
  else Ok (dp_label (splitDomain domain)).

(** The candidates of the 1-edit pass, in the order the loops visit them:
    the mutated characters with the substitution made. *)
Definition oneEditCandidates (buckets : PrototypeBuckets) (maxPerChar : Z)
    (chars : list jsstring) : list (list jsstring * list Substitution) :=
  flat_map
    (fun i =>
       match alookup (charAt chars i) buckets with
       | None => []
       | Some subs =>
           map (fun sub => (<[i := cs_char sub]> chars,
                            [makeSubstitution i (charAt chars i) sub]))
               (slice0 maxPerChar subs)
       end)
    (seq 0 (length chars)).

(** The candidates of the 2-edit pass. *)
Definition twoEditCandidates (buckets : PrototypeBuckets) (maxPerChar : Z)
    (chars : list jsstring) : list (list jsstring * list Substitution) :=
  flat_map
    (fun i =>
       match alookup (charAt chars i) buckets with
       | None => []
       | Some subsI =>
           flat_map
             (fun j =>
                match alookup (charAt chars j) buckets with
                | None => []
                | Some subsJ =>
                    flat_map
                      (fun subI =>
                         map (fun subJ =>
                                (<[j := cs_char subJ]> (<[i := cs_char subI]> chars),
                                 [makeSubstitution i (charAt chars i) subI;
                                  makeSubstitution j (charAt chars j) subJ]))
                             (slice0 (Z.min maxPerChar 5) subsJ))
                      (slice0 (Z.min maxPerChar 5) subsI)
                end)
             (seq (i + 1) (length chars - (i + 1)))
       end)
    (seq 0 (length chars - 1)).

(** Every entry of the raw graph satisfies [P]. *)
Definition rawForall (P : jsstring -> jsstring -> ConfusableSubstitute -> Prop)
    (raw : RawBuckets) : Prop :=
  forall from sub e, lookupEntry raw from sub = Some e -> P from sub e.

(** [raw[x]] has an entry for [y] whose [stableDanger] is at least [sd]. *)
Definition rawEdgeAtLeast (raw : RawBuckets) (x y : jsstring) (sd : Q) : Prop :=
  exists e, lookupEntry raw x y = Some e /\ (sd <= cs_stableDanger e)%Q.

(** The finished bucket of [proto] lists [sub] with a [stableDanger] of at
    least [sd], or it is full: it holds [maxPerChar] entries, and when the
    buckets are sorted by [stableDanger] none of them is below [sd]. *)
Definition listedOrOutranked (options : BuildOptions) (buckets : PrototypeBuckets)
    (proto sub : jsstring) (sd : Q) : Prop :=
  exists subs,
    alookup proto buckets = Some subs /\
    ((exists e, e ∈ subs /\ cs_char e = sub /\ (sd <= cs_stableDanger e)%Q) \/
     (Z.of_nat (length subs) = default 50 (bo_maxPerChar options) /\
      (default false (bo_useMaxDanger options) = false ->
       Forall (fun e => (sd <= cs_stableDanger e)%Q) subs))).

(** The candidates of [generateTldVariants], in the order the loops visit
    them. *)
Definition tldCandidates (buckets : PrototypeBuckets) (chars : list jsstring)
  : list jsstring :=
  flat_map
    (fun i =>
       match alookup (charAt chars i) buckets with
       | None => []
       | Some subs => map (fun sub => concat (<[i := cs_char sub]> chars)) (slice0 5 subs)
       end)
    (seq 0 (length chars)).

(** The buckets [generateTldVariants] works with. *)
Definition tldBucketsUsed (buckets : option PrototypeBuckets) : PrototypeBuckets :=
  match buckets with
  | Some b => b
  | None =>
      buildPrototypeBuckets
        {| bo_includeNonPvalid := None; bo_maxPerChar := Some 5; bo_useMaxDanger := None |}
  end.

(** The property names every object literal inherits from
    [Object.prototype]: read from a table such as [IDN_TLDS] or
    [FONT_SPECIFIC_WEIGHTS] they give a function (for [__proto__], the
    prototype itself) and not a row of the table. *)
Definition inheritedKeys : list jsstring :=
  map js ["constructor"; "__defineGetter__"; "__defineSetter__"; "hasOwnProperty";
          "__lookupGetter__"; "__lookupSetter__"; "isPrototypeOf";
          "propertyIsEnumerable"; "toString"; "valueOf"; "__proto__";
          "toLocaleString"]%string.

(** A TLD [getTargetTlds] takes without generating it: a base TLD, or an
    IDN TLD of one of the scripts. *)
Definition directTld (baseTlds : option (list jsstring)) (scripts : option (list jsstring))
    (t : jsstring) : Prop :=
  t ∈ default DEFAULT_TLDS baseTlds \/
  exists script idnTlds,
    script ∈ default [] scripts /\ alookup script IDN_TLDS = Some idnTlds /\ t ∈ idnTlds.

(** The options with [resolve] replaced. *)
Definition withResolve (r : option bool) (o : ScanOptions) : ScanOptions :=
  {| resolve := r; top := top o; threshold := threshold o; tlds := tlds o;
     tldVariants := tldVariants o; font := font o; maxEdits := maxEdits o;
     maxPerChar := maxPerChar o; maxVariants := maxVariants o;
     includeNonPvalid := includeNonPvalid o; useMaxDanger := useMaxDanger o;
     concurrency := concurrency o; timeout := timeout o |}.

(** The DNS result [scan] attaches to a variant. *)
Definition resolved (o : ScanOptions) (v : DomainVariant) : DomainVariant :=
  withDns (createNodeResolver (concurrency o) (timeout o) (dv_domain v)) v.

(** The strings of a substitution name no inherited property. *)
Definition plainKeys (s : Substitution) : Prop :=
  (replacement s ∉ inheritedKeys) /\ (original s ∉ inheritedKeys) /\
  (toUpperCase (original s) ∉ inheritedKeys).

(** The first of the lookups that found something. *)
Definition firstFound {A : Type} (lookups : list (option A)) : option A :=
  head (omap id lookups).

(** The weight a font holds for the pair of a substitution: looked up
    under (replacement, original), then under (original, replacement), then
    with the original in upper case, again both ways round. *)
Definition fourWayWeight (weights : ConfusableWeights) (s : Substitution)
  : option ConfusableWeight :=
  firstFound [ weightAt weights (replacement s) (original s);
               weightAt weights (original s) (replacement s);
               weightAt weights (replacement s) (toUpperCase (original s));
               weightAt weights (toUpperCase (original s)) (replacement s) ].

(** The same without the upper-case places. *)
Definition twoWayWeight (weights : ConfusableWeights) (s : Substitution)
  : option ConfusableWeight :=
  firstFound [ weightAt weights (replacement s) (original s);
               weightAt weights (original s) (replacement s) ].

(** The [danger] of the pair of each substitution, or [None] when one of
    the pairs has no weight. *)
Fixpoint pairDangers (weightOf : Substitution -> option ConfusableWeight)
    (subs : list Substitution) : option (list Q) :=
  match subs with
  | [] => Some []
  | s :: rest =>
      match weightOf s, pairDangers weightOf rest with
      | Some w, Some dangers => Some (w_danger w :: dangers)
      | _, _ => None
      end
  end.

(** The score of one font for the substitutions: the product of the
    [danger] values the font holds for their pairs, or [None] when the font
    lacks one of the pairs. *)
Definition fontScore (weights : ConfusableWeights) (subs : list Substitution) : option Q :=
  (fun dangers => fold_left Qmult dangers 1%Q) <$> pairDangers (fourWayWeight weights) subs.

(** The score of a font requested by name, which is looked up without the
    upper-case places. *)
Definition fontScoreTwoWay (weights : ConfusableWeights) (subs : list Substitution)
  : option Q :=
  (fun dangers => fold_left Qmult dangers 1%Q) <$> pairDangers (twoWayWeight weights) subs.

(** [best] is the first of [fonts] to reach the highest score, [ssim],
    and that score is positive. *)
Definition firstBestFont (fonts : list (jsstring * ConfusableWeights))
    (subs : list Substitution) (best : jsstring) (ssim : Q) : Prop :=
  exists pre weights post,
    fonts = pre ++ (best, weights) :: post /\
    fontScore weights subs = Some ssim /\ (0 < ssim)%Q /\
    (forall f w p, (f, w) ∈ pre -> fontScore w subs = Some p -> (p < ssim)%Q) /\
    (forall f w p, (f, w) ∈ post -> fontScore w subs = Some p -> (p <= ssim)%Q).

(** No font of [fonts] has a positive score. *)
Definition noFontScores (fonts : list (jsstring * ConfusableWeights))
    (subs : list Substitution) : Prop :=
  forall f w p, (f, w) ∈ fonts -> fontScore w subs = Some p -> (p <= 0)%Q.

(** The basic code points of an encoded label: what stands before its last
    delimiter, when that is not the first code unit. *)
Definition basicChars (encoded : jsstring) : list jsstring :=
  if 0 <? lastIndexOf 45 encoded
  then spread (take (Z.to_nat (lastIndexOf 45 encoded)) encoded)
  else [].

(** A character the decoder inserts: the string of a code point from
    U+0080 on. *)
Definition insertedChar (ch : jsstring) : Prop :=
  exists n, 128 <= n <= 0x10FFFF /\ fromCodePoint n = Ok ch.

(** The table after a series of calls, each with its time, client and
    cost. *)
Definition rateCalls (calls : list (Z * jsstring * option Z))
    (rateLimits : list (jsstring * RateEntry)) : list (jsstring * RateEntry) :=
  fold_left (fun st call => fst (checkRateLimit (fst (fst call)) (snd (fst call))
                                   (snd call) st))
    calls rateLimits.


(** The digits [0-9A-F], and the number a string of them denotes. *)
Definition isUpperHexDigit (c : Z) : bool :=
  ((0x30 <=? c) && (c <=? 0x39)) || ((0x41 <=? c) && (c <=? 0x46)).

Definition hexDigitValue (c : Z) : Z :=
  if (0x30 <=? c) && (c <=? 0x39) then c - 0x30 else c - 0x41 + 10.

Definition hexValue (s : jsstring) : Z :=
  fold_left (fun acc c => acc * 16 + hexDigitValue c) s 0.

(** Every element is a UTF-16 code unit. *)
Definition codeUnits (s : jsstring) : Prop := Forall (fun u => 0 <= u < 0x10000) s.

(** The options under which the library's [scan] does what the worker's
    [runScan] does. *)
Definition scanOptionsOf (o : WorkerOptions) : ScanOptions :=
  {| resolve := wo_resolve o;
     top := Some (Z.min 200 (default 20 (wo_top o)));
     threshold := wo_threshold o;
     tlds := None; tldVariants := None;
     font := wo_font o;
     maxEdits := Some 1; maxPerChar := Some 10; maxVariants := Some 2000;
     includeNonPvalid := None;
     useMaxDanger := wo_useMaxDanger o;
     concurrency := None; timeout := None |}.

(** The buckets the worker caches. *)
Definition workerBuckets : PrototypeBuckets :=
  buildPrototypeBuckets
    {| bo_includeNonPvalid := None; bo_maxPerChar := Some 10; bo_useMaxDanger := None |}.

(** A reader of comma-separated values: fields are bare or between quotes,
    a doubled quote inside quotes stands for a quote, rows end at a line
    feed outside quotes. *)
Inductive CsvState := FieldStart | Bare | Quoted | QuoteSeen.

Fixpoint csvRead (state : CsvState) (cur : jsstring) (row : list jsstring)
    (rows : list (list jsstring)) (s : jsstring) : option (list (list jsstring)) :=
  match s with
  | [] =>
      match state with
      | Quoted => None
      | _ => Some (rows ++ [row ++ [cur]])
      end
  | c :: rest =>
      match state with
      | FieldStart =>
          if c =? 34 then csvRead Quoted [] row rows rest
          else if c =? 44 then csvRead FieldStart [] (row ++ [[]]) rows rest
          else if c =? 10 then csvRead FieldStart [] [] (rows ++ [row ++ [[]]]) rest
          else csvRead Bare [c] row rows rest
      | Bare =>
          if c =? 34 then None
          else if c =? 44 then csvRead FieldStart [] (row ++ [cur]) rows rest
          else if c =? 10 then csvRead FieldStart [] [] (rows ++ [row ++ [cur]]) rest
          else csvRead Bare (cur ++ [c]) row rows rest
      | Quoted =>
          if c =? 34 then csvRead QuoteSeen cur row rows rest
          else csvRead Quoted (cur ++ [c]) row rows rest
      | QuoteSeen =>
          if c =? 34 then csvRead Quoted (cur ++ [34]) row rows rest
          else if c =? 44 then csvRead FieldStart [] (row ++ [cur]) rows rest
          else if c =? 10 then csvRead FieldStart [] [] (rows ++ [row ++ [cur]]) rest
          else None
      end
  end.

Definition csvParse (s : jsstring) : option (list (list jsstring)) :=
  csvRead FieldStart [] [] [] s.

(** ** Facts about the JavaScript primitives *)

Lemma Qltb_lt (a b : Q) : Qltb a b = true <-> (a < b)%Q.
Proof.
  unfold Qltb. rewrite negb_true_iff. split.
  - intros H. apply Qnot_le_lt. intros Hle.
    apply Qle_bool_iff in Hle. congruence.
  - intros H. destruct (Qle_bool b a) eqn:E; [|reflexivity].
    apply Qle_bool_iff in E. exfalso. exact (Qlt_not_le _ _ H E).
Qed.

Lemma Qltb_ge (a b : Q) : Qltb a b = false <-> (b <= a)%Q.
Proof.
  unfold Qltb. rewrite negb_false_iff. apply Qle_bool_iff.
Qed.

Lemma sortInsert_Permutation {A : Type} (cmp : A -> A -> Q) (x : A) (l : list A) :
  Permutation (sortInsert cmp x l) (x :: l).
Proof.
  induction l as [|y l IH]; simpl; [reflexivity|].
  destruct (Qltb 0 (cmp x y)); [|reflexivity].
  rewrite IH. apply perm_swap.
Qed.

Lemma jsSort_Permutation {A : Type} (cmp : A -> A -> Q) (l : list A) :
  Permutation (jsSort cmp l) l.
Proof.
  induction l as [|x l IH]; simpl; [reflexivity|].
  rewrite sortInsert_Permutation. by constructor.
Qed.

Lemma jsSort_length {A : Type} (cmp : A -> A -> Q) (l : list A) :
  length (jsSort cmp l) = length l.
Proof. apply Permutation_length, jsSort_Permutation. Qed.

Lemma jsSort_elem_of {A : Type} (cmp : A -> A -> Q) (l : list A) (x : A) :
  x ∈ jsSort cmp l <-> x ∈ l.
Proof. by rewrite (jsSort_Permutation cmp l). Qed.

Lemma cmp_after {A : Type} (key : A -> Q) (a b : A) :
  Qltb 0 (key b - key a) = true <-> (key a < key b)%Q.
Proof.
  rewrite Qltb_lt. split; intros H.
  - apply (Qplus_lt_l _ _ (- key a)%Q). rewrite Qplus_opp_r. exact H.
  - apply (Qplus_lt_l _ _ (- key a)%Q) in H. rewrite Qplus_opp_r in H. exact H.
Qed.

Lemma cmp_not_after {A : Type} (key : A -> Q) (a b : A) :
  Qltb 0 (key b - key a) = false <-> byKeyDesc key a b.
Proof.
  unfold byKeyDesc. split; intros H.
  - destruct (Qlt_le_dec (key a) (key b)) as [Hlt|Hle]; [|exact Hle].
    apply (cmp_after key) in Hlt. congruence.
  - destruct (Qltb 0 (key b - key a)) eqn:E; [|reflexivity].
    apply (cmp_after key) in E. exfalso. exact (Qlt_not_le _ _ E H).
Qed.

Lemma sortInsert_sorted {A : Type} (key : A -> Q) (x : A) (l : list A) :
  StronglySorted (byKeyDesc key) l ->
  StronglySorted (byKeyDesc key) (sortInsert (fun a b => key b - key a)%Q x l).
Proof.
  induction 1 as [|y l Hs IH Hall]; simpl.
  - repeat constructor.
  - destruct (Qltb 0 (key y - key x)) eqn:E.
    + constructor; [exact IH|].
      apply (cmp_after key) in E.
      rewrite Forall_forall. intros z Hz.
      rewrite (sortInsert_Permutation _ x l) in Hz.
      apply elem_of_cons in Hz as [->|Hz].
      * unfold byKeyDesc. apply Qlt_le_weak, E.
      * rewrite Forall_forall in Hall. by apply Hall.
    + apply (cmp_not_after key) in E.
      constructor; [by constructor|].
      constructor; [exact E|].
      rewrite Forall_forall in *. intros z Hz.
      unfold byKeyDesc in *. eapply Qle_trans; [apply Hall, Hz|exact E].
Qed.

(** A comparator that is the difference of a key sorts by that key,
    largest first. *)
Lemma jsSort_sorted {A : Type} (key : A -> Q) (l : list A) :
  StronglySorted (byKeyDesc key) (jsSort (fun a b => key b - key a)%Q l).
Proof.
  induction l as [|x l IH]; simpl; [constructor|].
  by apply sortInsert_sorted.
Qed.

Lemma high_not_low u : isHighSurrogate u = true -> isLowSurrogate u = false.
Proof. unfold isHighSurrogate, isLowSurrogate. lia. Qed.

Lemma startsLow_spread v rest : startsLow (spread (v :: rest)) = isLowSurrogate v.
Proof.
  simpl. destruct rest as [|w rest]; [reflexivity|].
  destruct (isHighSurrogate v && isLowSurrogate w) eqn:E; [|reflexivity].
  simpl. apply andb_true_iff in E as [E _]. by rewrite high_not_low.
Qed.

Lemma spread_wellChunked s : wellChunked (spread s).
Proof.
  assert (H : forall n s, (length s <= n)%nat -> wellChunked (spread s)).
  { clear s. induction n as [|n IH]; intros s Hlen.
    - destruct s; [constructor|simpl in Hlen; lia].
    - destruct s as [|u [|v rest]]; simpl.
      + constructor.
      + constructor; [constructor|reflexivity].
      + destruct (isHighSurrogate u && isLowSurrogate v) eqn:E.
        * apply andb_true_iff in E as [E1 E2].
          constructor; [exact E1|exact E2|]. apply IH. simpl in Hlen. lia.
        * apply wc_unit; [apply (IH (v :: rest)); simpl in *; lia|].
          intros Hu. etransitivity; [apply (startsLow_spread v rest)|].
          rewrite Hu in E. simpl in E. exact E. }
  by apply (H (length s)).
Qed.

Lemma spread_cons_cons u v rest :
  spread (u :: v :: rest) =
  if isHighSurrogate u && isLowSurrogate v
  then [u; v] :: spread rest else [u] :: spread (v :: rest).
Proof. reflexivity. Qed.

Lemma spread_concat l : wellChunked l -> spread (concat l) = l.
Proof.
  induction 1 as [|u l Hl IH Hu|u v l Hu Hv Hl IH].
  - reflexivity.
  - change (concat ([u] :: l)) with (u :: concat l).
    destruct (concat l) as [|w rest] eqn:E.
    + destruct Hl as [|? ? ? ?|? ? ? ? ? ?]; simpl in E; [reflexivity|discriminate..].
    + assert (Hw : isHighSurrogate u = true -> isLowSurrogate w = false).
      { intros H. specialize (Hu H).
        destruct Hl as [|? ? ? ?|? ? ? ? ? ?]; simpl in *;
          [discriminate|injection E as -> _; exact Hu..]. }
      rewrite spread_cons_cons, IH.
      destruct (isHighSurrogate u) eqn:Eu; simpl; [|reflexivity].
      by rewrite (Hw eq_refl).
  - change (concat ([u; v] :: l)) with (u :: v :: concat l).
    rewrite spread_cons_cons, Hu, Hv, IH. reflexivity.
Qed.

Lemma wellChunked_insert l i x :
  wellChunked l -> isScalar x = true -> wellChunked (<[i := x]> l).
Proof.
  intros Hl Hx.
  assert (Hfirst : startsLow (x :: []) = false /\ forall t, startsLow (x :: t) = false).
  { assert (forall t, startsLow (x :: t) = false) as H; [|by split].
    intros t. destruct x as [|u [|v [|]]]; simpl in *; try discriminate.
    - apply andb_true_iff in Hx as [_ Hx]. by apply negb_true_iff in Hx.
    - apply andb_true_iff in Hx as [Hx _]. by apply high_not_low. }
  destruct Hfirst as [_ Hfirst].
  assert (Hcons : forall t, wellChunked t -> wellChunked (x :: t)).
  { intros t Ht. destruct x as [|u [|v [|]]]; simpl in Hx; try discriminate.
    - constructor; [exact Ht|]. intros Hu.
      apply andb_true_iff in Hx as [Hx _]. apply negb_true_iff in Hx. congruence.
    - apply andb_true_iff in Hx as [H1 H2]. by constructor. }
  revert i. induction Hl as [|u l Hl IH Hu|u v l Hu Hv Hl IH]; intros [|i]; simpl.
  - constructor.
  - constructor.
  - by apply Hcons.
  - constructor; [apply IH|].
    intros H. specialize (Hu H).
    destruct l as [|c l']; [by destruct i|].
    destruct i as [|i]; [exact (Hfirst l')|exact Hu].
  - by apply Hcons.
  - constructor; [exact Hu|exact Hv|apply IH].
Qed.

Lemma slice0_prefix {A : Type} (k : Z) (l : list A) : slice0 k l `prefix_of` l.
Proof. unfold slice0. destruct (k <? 0); apply prefix_take. Qed.

Lemma slice0_length {A : Type} (k : Z) (l : list A) :
  0 <= k -> Z.of_nat (length (slice0 k l)) <= k.
Proof.
  intros Hk. unfold slice0.
  destruct (k <? 0) eqn:E; [lia|].
  rewrite length_take. lia.
Qed.

Lemma slice0_all {A : Type} (k : Z) (l : list A) :
  Z.of_nat (length l) <= k -> slice0 k l = l.
Proof.
  intros Hk. unfold slice0.
  destruct (k <? 0) eqn:E; [lia|].
  apply take_ge. lia.
Qed.

Lemma slice0_elem_of {A : Type} (k : Z) (l : list A) (x : A) :
  x ∈ slice0 k l -> x ∈ l.
Proof.
  intros H. destruct (slice0_prefix k l) as [t Ht]. rewrite Ht.
  apply elem_of_app. by left.
Qed.

Lemma StronglySorted_prefix {A : Type} (R : A -> A -> Prop) (l1 l2 : list A) :
  l1 `prefix_of` l2 -> StronglySorted R l2 -> StronglySorted R l1.
Proof.
  intros [t ->]. induction l1 as [|x l1 IH]; simpl; intros H; [constructor|].
  inversion H as [|? ? Hs Hall]; subst.
  constructor; [by apply IH|].
  rewrite Forall_app in Hall. tauto.
Qed.

(** ** The composite danger score *)

Lemma clamp01_spec (x : Q) : (Qmax 0 (Qmin 1 x) == clamp01 x)%Q.
Proof.
  unfold clamp01.
  destruct (Qltb x 0) eqn:E0.
  - apply Qltb_lt in E0.
    rewrite (Q.min_r 1 x) by (apply Qlt_le_weak; eapply Qlt_trans; [exact E0|reflexivity]).
    apply Q.max_l. by apply Qlt_le_weak.
  - apply Qltb_ge in E0.
    destruct (Qltb 1 x) eqn:E1.
    + apply Qltb_lt in E1.
      rewrite (Q.min_l 1 x) by (by apply Qlt_le_weak).
      apply Q.max_r. discriminate.
    + apply Qltb_ge in E1.
      rewrite (Q.min_r 1 x) by exact E1.
      by apply Q.max_r.
Qed.

Lemma clamp01_proper (x y : Q) : (x == y)%Q -> (clamp01 x == clamp01 y)%Q.
Proof. intros H. rewrite <- !clamp01_spec. by rewrite H. Qed.

Lemma clamp01_id (x : Q) : (0 <= x)%Q -> (x <= 1)%Q -> clamp01 x = x.
Proof.
  intros H0 H1. unfold clamp01.
  apply Qltb_ge in H0. apply Qltb_ge in H1. by rewrite H0, H1.
Qed.

Lemma scoreProduct_from (key : ScoreKey) (subs : list Substitution) (a : Q) :
  (fold_left (fun product s => product * subScore key s) subs a
   == a * productOf key subs)%Q.
Proof.
  revert a. induction subs as [|s subs IH]; intros a; simpl.
  - ring.
  - rewrite IH. ring.
Qed.

Lemma scoreProduct_productOf (key : ScoreKey) (subs : list Substitution) :
  (scoreProduct key subs == productOf key subs)%Q.
Proof. unfold scoreProduct. rewrite scoreProduct_from. ring. Qed.

Lemma mixedScripts_size (subs : list Substitution) :
  mixedScripts subs <->
  (1 < size (list_to_set (map script subs) : gset jsstring))%nat.
Proof.
  set (X := list_to_set (map script subs) : gset jsstring).
  assert (Hin : forall x, x ∈ X <-> exists s, s ∈ subs /\ script s = x).
  { intros x. unfold X. rewrite elem_of_list_to_set, list_elem_of_fmap.
    split; intros (s & H1 & H2); exists s; auto. }
  split.
  - intros (s1 & s2 & H1 & H2 & Hne).
    assert (Hsub : ({[ script s1 ]} ∪ {[ script s2 ]} : gset jsstring) ⊆ X).
    { apply union_subseteq. split; apply singleton_subseteq_l, Hin; eauto. }
    apply subseteq_size in Hsub.
    rewrite size_union in Hsub by set_solver.
    rewrite !size_singleton in Hsub. lia.
  - intros Hsize.
    destruct (set_choose_L X) as [x Hx].
    { intros HX. rewrite HX, size_empty in Hsize. lia. }
    destruct (set_choose_L (X ∖ {[ x ]})) as [y Hy].
    { intros HX. assert (Hs : size (X ∖ {[ x ]}) = 0%nat) by (by rewrite HX, size_empty).
      rewrite size_difference in Hs by set_solver.
      rewrite size_singleton in Hs. lia. }
    apply elem_of_difference in Hy as [Hy Hne].
    apply Hin in Hx as (s1 & H1 & <-). apply Hin in Hy as (s2 & H2 & <-).
    exists s1, s2. repeat split; auto. set_solver.
Qed.

Lemma productOf_productBy (useMax : bool) (subs : list Substitution) :
  productOf (scoreKeyOf useMax) subs
  = productBy (if useMax then danger else stableDanger) subs.
Proof. by destruct useMax. Qed.

(** C1, as amended. [computeDangerScore] returns 0 for the empty list; for
    a non-empty list it returns the clamp to [0, 1] of the product of the
    score key ([danger] when [useMaxDanger] is set, [stableDanger]
    otherwise) times the multi-edit penalty, times 0.9 when the
    substitutions span more than one script and times 1 otherwise; and for a
    single substitution, by default, it returns the clamp to [0, 1] of that
    substitution's [stableDanger], which is the [stableDanger] itself when
    that lies within [0, 1]. *)
Theorem computeDangerScore_formula (subs : list Substitution) (options : ScoreOptions) :
  let score := if default false (so_useMaxDanger options) then danger else stableDanger in
  computeDangerScore [] options = 0%Q /\
  (subs <> [] ->
     (mixedScripts subs ->
        (computeDangerScore subs options ==
           clamp01 (productBy score subs * editPenalty (length subs) * (9 # 10)))%Q) /\
     (~ mixedScripts subs ->
        (computeDangerScore subs options ==
           clamp01 (productBy score subs * editPenalty (length subs) * 1))%Q)) /\
  (forall s : Substitution,
     default false (so_useMaxDanger options) = false ->
     (computeDangerScore [s] options == clamp01 (stableDanger s))%Q /\
     ((0 <= stableDanger s)%Q -> (stableDanger s <= 1)%Q ->
      (computeDangerScore [s] options == stableDanger s)%Q)).
Proof.
  intros score. split; [reflexivity|]. split.
  - intros Hne.
    set (key := scoreKeyOf (default false (so_useMaxDanger options))).
    assert (Hprod : productOf key subs = productBy score subs)
      by apply productOf_productBy.
    rewrite <- Hprod.
    destruct subs as [|s0 subs']; [congruence|].
    set (subs := s0 :: subs') in *.
    assert (Hcs : (computeDangerScore subs options ==
       clamp01 (if (1 <? size (list_to_set (map script subs) : gset jsstring))%nat
                then productOf key subs * editPenalty (length subs) * (9 # 10)
                else productOf key subs * editPenalty (length subs)))%Q).
    { unfold computeDangerScore. fold subs. unfold subs at 1.
      rewrite clamp01_spec. apply clamp01_proper. fold key.
      destruct (1 <? size _)%nat; rewrite scoreProduct_productOf; reflexivity. }
    split.
    + intros Hmixed. apply mixedScripts_size in Hmixed.
      apply Nat.ltb_lt in Hmixed. rewrite Hmixed in Hcs. exact Hcs.
    + intros Hmixed. rewrite mixedScripts_size in Hmixed.
      apply Nat.ltb_nlt in Hmixed. rewrite Hmixed in Hcs.
      rewrite Hcs. apply clamp01_proper. ring.
  - intros s Hdef.
    assert (Hclamp : (computeDangerScore [s] options == clamp01 (stableDanger s))%Q).
    { unfold computeDangerScore. rewrite Hdef. simpl scoreKeyOf.
      rewrite clamp01_spec.
      assert (Hone :
        (1 <? size (list_to_set (map script [s]) : gset jsstring))%nat = false).
      { apply Nat.ltb_nlt. change (map script [s]) with [script s].
        rewrite list_to_set_cons, list_to_set_nil, union_empty_r_L, size_singleton.
        lia. }
      rewrite Hone. apply clamp01_proper. unfold scoreProduct. simpl. ring. }
    split; [exact Hclamp|].
    intros H0 H1. rewrite Hclamp. by rewrite clamp01_id.
Qed.

(** ** Association lists *)

Lemma alookup_aset_eq {V : Type} (k : jsstring) (v : V) (l : list (jsstring * V)) :
  alookup k (aset k v l) = Some v.
Proof.
  induction l as [|[k' v'] l IH]; simpl.
  - by rewrite decide_True.
  - destruct (decide (k = k')) as [->|Hne]; simpl.
    + by rewrite decide_True.
    + by rewrite decide_False.
Qed.

Lemma alookup_aset_ne {V : Type} (k k' : jsstring) (v : V) (l : list (jsstring * V)) :
  k <> k' -> alookup k' (aset k v l) = alookup k' l.
Proof.
  intros Hne. induction l as [|[k0 v0] l IH]; simpl.
  - by rewrite decide_False.
  - destruct (decide (k = k0)) as [->|Hne0]; simpl.
    + by rewrite !decide_False.
    + by rewrite IH.
Qed.

Lemma alookup_aset {V : Type} (k k' : jsstring) (v : V) (l : list (jsstring * V)) :
  alookup k' (aset k v l) = if decide (k = k') then Some v else alookup k' l.
Proof.
  destruct (decide (k = k')) as [->|Hne].
  - apply alookup_aset_eq.
  - by apply alookup_aset_ne.
Qed.

Lemma alookup_app_None {V : Type} (k k' : jsstring) (v : V) (l : list (jsstring * V)) :
  alookup k l = None ->
  alookup k' (l ++ [(k, v)]) = if decide (k = k') then Some v else alookup k' l.
Proof.
  induction l as [|[k0 v0] l IH]; simpl; intros Hnone.
  - destruct (decide (k = k')) as [->|Hne].
    + by rewrite decide_True.
    + by rewrite decide_False.
  - destruct (decide (k = k0)) as [->|Hne0]; [discriminate|].
    destruct (decide (k' = k0)) as [->|Hne1].
    + by rewrite decide_False.
    + by apply IH.
Qed.

Lemma alookup_elem_of {V : Type} (k : jsstring) (v : V) (l : list (jsstring * V)) :
  alookup k l = Some v -> (k, v) ∈ l.
Proof.
  induction l as [|[k' v'] l IH]; simpl; [discriminate|].
  destruct (decide (k = k')) as [->|Hne].
  - intros [= ->]. left.
  - intros H. right. by apply IH.
Qed.

Lemma elem_of_alookup {V : Type} (k : jsstring) (v : V) (l : list (jsstring * V)) :
  NoDup (map fst l) -> (k, v) ∈ l -> alookup k l = Some v.
Proof.
  induction l as [|[k' v'] l IH]; simpl; intros Hnd Hin.
  - by apply elem_of_nil in Hin.
  - apply NoDup_cons in Hnd as [Hnotin Hnd].
    apply elem_of_cons in Hin as [[= <- <-]|Hin].
    + by rewrite decide_True.
    + destruct (decide (k = k')) as [->|Hne]; [|by apply IH].
      exfalso. apply Hnotin. apply list_elem_of_fmap. by exists (k', v).
Qed.

Lemma aset_keys {V : Type} (k : jsstring) (v : V) (l : list (jsstring * V)) :
  map fst (aset k v l) =
  match alookup k l with Some _ => map fst l | None => map fst l ++ [k] end.
Proof.
  induction l as [|[k' v'] l IH]; simpl; [reflexivity|].
  destruct (decide (k = k')) as [->|Hne]; simpl; [reflexivity|].
  rewrite IH. by destruct (alookup k l).
Qed.

Lemma alookup_None_keys {V : Type} (k : jsstring) (l : list (jsstring * V)) :
  alookup k l = None <-> k ∉ map fst l.
Proof.
  induction l as [|[k' v'] l IH]; simpl.
  - split; [intros _; apply not_elem_of_nil|reflexivity].
  - rewrite not_elem_of_cons. destruct (decide (k = k')) as [->|Hne].
    + split; [discriminate|]. intros [H _]. by destruct H.
    + rewrite IH. split; [intros H; by split|intros [_ H]; exact H].
Qed.

Lemma aset_NoDup {V : Type} (k : jsstring) (v : V) (l : list (jsstring * V)) :
  NoDup (map fst l) -> NoDup (map fst (aset k v l)).
Proof.
  intros Hnd. rewrite aset_keys.
  destruct (alookup k l) eqn:E; [exact Hnd|].
  apply NoDup_app. split; [exact Hnd|]. split.
  - intros x Hx Hk. apply list_elem_of_singleton in Hk as ->.
    by apply alookup_None_keys in E.
  - apply NoDup_singleton.
Qed.

Lemma aset_elem_of {V : Type} (k k' : jsstring) (v v' : V) (l : list (jsstring * V)) :
  (k', v') ∈ aset k v l -> (k' = k /\ v' = v) \/ (k', v') ∈ l.
Proof.
  induction l as [|[k0 v0] l IH]; simpl; intros Hin.
  - apply list_elem_of_singleton in Hin as [= -> ->]. by left.
  - destruct (decide (k = k0)) as [->|Hne].
    + apply elem_of_cons in Hin as [[= -> ->]|Hin]; [by left|].
      right. by right.
    + apply elem_of_cons in Hin as [->|Hin]; [right; left|].
      destruct (IH Hin) as [?|?]; [by left|right; by right].
Qed.

Lemma alookup_map {V W : Type} (f : jsstring * V -> W) (k : jsstring)
    (l : list (jsstring * V)) :
  (forall k1 k2 v, f (k1, v) = f (k2, v)) ->
  alookup k (map (fun e => (fst e, f e)) l) = (fun v => f (k, v)) <$> alookup k l.
Proof.
  intros Hf. induction l as [|[k' v'] l IH]; simpl; [reflexivity|].
  destruct (decide (k = k')) as [->|Hne]; [reflexivity|exact IH].
Qed.

(** ** The raw graph of [buildPrototypeBuckets] *)

Lemma addEdge_skipped inc raw from sub d sd p :
  ~ accepted inc from sub p -> addEdge inc raw from sub d sd p = raw.
Proof.
  intros Hna. unfold addEdge.
  destruct (decide (from = sub)) as [|Hne]; [reflexivity|].
  destruct (negb inc && negb p) eqn:E; [reflexivity|].
  exfalso. apply Hna. split; [exact Hne|].
  destruct inc, p; simpl in *; congruence.
Qed.

Lemma addEdge_accepted inc raw from sub d sd p x y :
  accepted inc from sub p ->
  lookupEntry (addEdge inc raw from sub d sd p) x y =
  if decide (x = from /\ y = sub)
  then Some (entryAfter (lookupEntry raw from sub) sub d sd p)
  else lookupEntry raw x y.
Proof.
  intros [Hne Hok]. unfold addEdge.
  rewrite decide_False by exact Hne.
  assert (Hguard : negb inc && negb p = false) by (destruct inc, p; simpl in *; congruence).
  rewrite Hguard. unfold lookupEntry, ensureBucket.
  destruct (alookup from raw) as [bucket|] eqn:Eb.
  - rewrite Eb. simpl default.
    destruct (alookup sub bucket) as [e|] eqn:Ee; simpl entryAfter.
    + destruct (Qltb (cs_stableDanger e) sd) eqn:Eq.
      * rewrite (alookup_aset from x).
        destruct (decide (from = x)) as [<-|Hx].
        -- rewrite (alookup_aset sub y).
           destruct (decide (sub = y)) as [<-|Hy].
           ++ by rewrite decide_True.
           ++ rewrite decide_False by (intros [_ ?]; congruence). by rewrite Eb.
        -- by rewrite decide_False by (intros [? _]; congruence).
      * destruct (decide (x = from /\ y = sub)) as [[-> ->]|Hxy]; [|reflexivity].
        by rewrite Eb.
    + rewrite (alookup_aset from x).
      destruct (decide (from = x)) as [<-|Hx].
      * rewrite (alookup_aset sub y).
        destruct (decide (sub = y)) as [<-|Hy].
        -- by rewrite decide_True.
        -- rewrite decide_False by (intros [_ ?]; congruence). by rewrite Eb.
      * by rewrite decide_False by (intros [? _]; congruence).
  - rewrite (alookup_app_None from from [] raw Eb), decide_True by reflexivity.
    simpl default. simpl alookup. simpl entryAfter.
    rewrite (alookup_aset from x).
    destruct (decide (from = x)) as [<-|Hx].
    + simpl. destruct (decide (y = sub)) as [->|Hy].
      * by rewrite decide_True.
      * rewrite decide_False by (intros [_ ?]; congruence).
        by rewrite Eb.
    + rewrite decide_False by (intros [? _]; congruence).
      rewrite (alookup_app_None from x [] raw Eb). by rewrite decide_False.
Qed.

Lemma rawWf_nil : rawWf [].
Proof.
  split; [constructor|]. intros from bucket H. by apply elem_of_nil in H.
Qed.

Lemma rawWf_aset raw from bucket :
  rawWf raw ->
  NoDup (map fst bucket) ->
  (forall sub e, (sub, e) ∈ bucket -> cs_char e = sub /\ sub <> from) ->
  rawWf (aset from bucket raw).
Proof.
  intros [Hnd Hall] Hb1 Hb2. split; [by apply aset_NoDup|].
  intros from' bucket' Hin.
  apply aset_elem_of in Hin as [[-> ->]|Hin]; [by split|].
  by apply Hall.
Qed.

Lemma rawWf_ensureBucket raw from : rawWf raw -> rawWf (ensureBucket from raw).
Proof.
  intros [Hnd Hall]. unfold ensureBucket.
  destruct (alookup from raw) eqn:E; [by split|].
  split.
  - rewrite map_app. apply NoDup_app. split; [exact Hnd|]. split.
    + intros x Hx Hk. apply list_elem_of_singleton in Hk as ->.
      by apply alookup_None_keys in E.
    + apply NoDup_singleton.
  - intros from' bucket' Hin. apply elem_of_app in Hin as [Hin|Hin]; [by apply Hall|].
    apply list_elem_of_singleton in Hin as [= -> ->].
    split; [constructor|]. intros sub e H. by apply elem_of_nil in H.
Qed.

Lemma rawWf_addEdge inc raw from sub d sd p :
  rawWf raw -> rawWf (addEdge inc raw from sub d sd p).
Proof.
  intros Hwf. unfold addEdge.
  destruct (decide (from = sub)) as [|Hne]; [exact Hwf|].
  destruct (negb inc && negb p); [exact Hwf|].
  apply (rawWf_ensureBucket _ from) in Hwf.
  set (raw' := ensureBucket from raw) in *.
  assert (Hbucket : NoDup (map fst (default [] (alookup from raw'))) /\
            forall s e, (s, e) ∈ default [] (alookup from raw') ->
                        cs_char e = s /\ s <> from).
  { destruct (alookup from raw') as [b|] eqn:E; simpl.
    - apply alookup_elem_of in E. by apply Hwf.
    - split; [constructor|]. intros s e H. by apply elem_of_nil in H. }
  destruct Hbucket as [Hb1 Hb2].
  set (bucket := default [] (alookup from raw')) in *.
  destruct (alookup sub bucket) as [e|] eqn:Ee.
  - destruct (Qltb (cs_stableDanger e) sd); [|exact Hwf].
    apply rawWf_aset; [exact Hwf|by apply aset_NoDup|].
    intros s e' Hin. apply aset_elem_of in Hin as [[-> ->]|Hin]; [|by apply Hb2].
    simpl. apply alookup_elem_of in Ee. split; [by apply Hb2 in Ee as [? _]|congruence].
  - apply rawWf_aset; [exact Hwf|by apply aset_NoDup|].
    intros s e' Hin. apply aset_elem_of in Hin as [[-> ->]|Hin]; [|by apply Hb2].
    simpl. split; congruence.
Qed.

Lemma rawWf_addMapEntry inc raw entry :
  rawWf raw -> rawWf (addMapEntry inc raw entry).
Proof.
  intros Hwf. destruct entry as [char prototype]. unfold addMapEntry.
  destruct (decide (char = prototype)); [exact Hwf|].
  by do 2 apply rawWf_addEdge.
Qed.

Lemma rawWf_addWeightRow inc raw row :
  rawWf raw -> rawWf (addWeightRow inc raw row).
Proof.
  unfold addWeightRow. generalize (snd row) as targets.
  intros targets. revert raw.
  induction targets as [|[keyB weight] targets IH]; intros raw Hwf; simpl; [exact Hwf|].
  apply IH. by do 2 apply rawWf_addEdge.
Qed.

Lemma rawWf_buildRaw inc : rawWf (buildRaw inc).
Proof.
  unfold buildRaw.
  assert (H1 : forall entries raw, rawWf raw ->
            rawWf (fold_left (addMapEntry inc) entries raw)).
  { induction entries as [|e entries IH]; intros raw Hwf; simpl; [exact Hwf|].
    by apply IH, rawWf_addMapEntry. }
  assert (H2 : forall rows raw, rawWf raw ->
            rawWf (fold_left (addWeightRow inc) rows raw)).
  { induction rows as [|r rows IH]; intros raw Hwf; simpl; [exact Hwf|].
    by apply IH, rawWf_addWeightRow. }
  apply H2, H1, rawWf_nil.
Qed.

(** ** The finished buckets *)

Lemma buckets_lookup options proto :
  alookup proto (buildPrototypeBuckets options) =
  (fun bucket =>
     slice0 (default 50 (bo_maxPerChar options))
       (jsSort (fun a b =>
                  (csScore (scoreKeyOf (default false (bo_useMaxDanger options))) b
                   - csScore (scoreKeyOf (default false (bo_useMaxDanger options))) a)%Q)
          (map snd bucket)))
  <$> alookup proto (buildRaw (default false (bo_includeNonPvalid options))).
Proof.
  unfold buildPrototypeBuckets, finishBucket.
  by rewrite (alookup_map (fun e => slice0 _ (jsSort _ (map snd (snd e))))).
Qed.

Lemma buckets_elem_of options proto subs :
  (proto, subs) ∈ buildPrototypeBuckets options ->
  exists bucket,
    (proto, bucket) ∈ buildRaw (default false (bo_includeNonPvalid options)) /\
    subs = slice0 (default 50 (bo_maxPerChar options))
             (jsSort (fun a b =>
                (csScore (scoreKeyOf (default false (bo_useMaxDanger options))) b
                 - csScore (scoreKeyOf (default false (bo_useMaxDanger options))) a)%Q)
                (map snd bucket)).
Proof.
  unfold buildPrototypeBuckets. intros Hin.
  apply list_elem_of_fmap in Hin as ([k bucket] & Heq & Hin).
  unfold finishBucket in Heq. simpl in Heq. injection Heq as -> ->.
  by exists bucket.
Qed.

Lemma buildPrototypeBuckets_noSelf options :
  noSelfEntries (buildPrototypeBuckets options).
Proof.
  intros proto subs sub Hlook Hin.
  rewrite buckets_lookup in Hlook.
  destruct (alookup proto (buildRaw _)) as [bucket|] eqn:Eb; [|discriminate].
  injection Hlook as <-.
  apply slice0_elem_of, jsSort_elem_of in Hin.
  apply list_elem_of_fmap in Hin as ([k e] & -> & Hin). simpl.
  apply alookup_elem_of in Eb.
  destruct (rawWf_buildRaw (default false (bo_includeNonPvalid options))) as [_ Hwf].
  destruct (Hwf _ _ Eb) as [_ Hb]. destruct (Hb _ _ Hin) as [-> Hne]. exact Hne.
Qed.

(** Every bucket is sorted descending by the configured score key, and
    holds at most [maxPerChar] entries when [maxPerChar] is not negative. *)
Lemma buckets_sorted_capped options proto subs :
  (proto, subs) ∈ buildPrototypeBuckets options ->
  sortedByScore (scoreKeyOf (default false (bo_useMaxDanger options))) subs /\
  (0 <= default 50 (bo_maxPerChar options) ->
   Z.of_nat (length subs) <= default 50 (bo_maxPerChar options)).
Proof.
  intros Hin. apply buckets_elem_of in Hin as (bucket & _ & ->). split.
  - eapply StronglySorted_prefix; [apply slice0_prefix|].
    apply (jsSort_sorted (csScore _)).
  - apply slice0_length.
Qed.

(** ** The variant generator *)

Lemma forEachWhile_inv {A S : Type} (P : S -> Prop) (body : A -> S -> S * bool)
    (l : list A) (st : S) :
  P st ->
  (forall x s, x ∈ l -> P s -> P (fst (body x s))) ->
  P (fst (forEachWhile body l st)).
Proof.
  revert st. induction l as [|x l IH]; intros st Hst Hbody; simpl; [exact Hst|].
  pose proof (Hbody x st ltac:(left) Hst) as Hx.
  destruct (body x st) as [st' go]. simpl in Hx.
  destruct go; [|exact Hx].
  apply IH; [exact Hx|]. intros y s Hy. apply Hbody. by right.
Qed.

Lemma forEachWhile_bound {A S : Type} (m : S -> nat) (c : A -> nat)
    (body : A -> S -> S * bool) (l : list A) (st : S) :
  (forall x s, x ∈ l -> (m (fst (body x s)) <= m s + c x)%nat) ->
  (m (fst (forEachWhile body l st)) <= m st + sum_list (map c l))%nat.
Proof.
  revert st. induction l as [|x l IH]; intros st Hbody; simpl; [lia|].
  pose proof (Hbody x st ltac:(left)) as Hx.
  destruct (body x st) as [st' go]. simpl in Hx.
  destruct go; [|simpl; lia].
  etransitivity; [apply IH|lia]. intros y s Hy. apply Hbody. by right.
Qed.

Lemma tryAdd_variants maxVariants mutatedChars subs st :
  variants (fst (tryAdd maxVariants mutatedChars subs st)) = variants st \/
  variants (fst (tryAdd maxVariants mutatedChars subs st)) =
    variants st ++ [{| label := concat mutatedChars; substitutions := subs |}].
Proof.
  unfold tryAdd. destruct (maxVariants <=? _); [by left|].
  destruct (bool_decide _); [by left|by right].
Qed.

Lemma charAt_lookup (chars : list jsstring) (i : nat) :
  (i < length chars)%nat -> chars !! i = Some (charAt chars i).
Proof.
  intros Hi. unfold charAt. revert i Hi.
  induction chars as [|c chars IH]; intros [|i] Hi; simpl in *; try lia; [reflexivity|].
  apply IH. lia.
Qed.

Lemma tryAdd_inv (P : RawVariant -> Prop) maxVariants mutatedChars subs st :
  P {| label := concat mutatedChars; substitutions := subs |} ->
  Forall P (variants st) ->
  Forall P (variants (fst (tryAdd maxVariants mutatedChars subs st))).
Proof.
  intros Hnew Hall.
  destruct (tryAdd_variants maxVariants mutatedChars subs st) as [->| ->]; [exact Hall|].
  apply Forall_app. split; [exact Hall|]. by constructor.
Qed.

Lemma oneEditPass_inv (P : RawVariant -> Prop) buckets maxPerChar maxVariants chars st :
  (forall v, oneEdit buckets chars v -> P v) ->
  Forall P (variants st) ->
  Forall P (variants (fst (oneEditPass buckets maxPerChar maxVariants chars st))).
Proof.
  intros HP Hst. unfold oneEditPass.
  apply (forEachWhile_inv (fun s => Forall P (variants s))); [exact Hst|].
  intros i s Hi Hs. apply elem_of_seq in Hi. unfold oneEditAt.
  destruct (alookup (charAt chars i) buckets) as [subs|] eqn:Eb; [|exact Hs].
  apply (forEachWhile_inv (fun s => Forall P (variants s))); [exact Hs|].
  intros sub s' Hsub Hs'. apply tryAdd_inv; [|exact Hs'].
  apply HP. exists i, (charAt chars i), subs, sub.
  split; [apply charAt_lookup; lia|].
  split; [exact Eb|]. split; [by eapply slice0_elem_of|reflexivity].
Qed.

Lemma twoEditPass_inv (P : RawVariant -> Prop) buckets maxPerChar maxVariants chars st :
  (forall v, twoEdit buckets chars v -> P v) ->
  Forall P (variants st) ->
  Forall P (variants (fst (twoEditPass buckets maxPerChar maxVariants chars st))).
Proof.
  intros HP Hst. unfold twoEditPass.
  apply (forEachWhile_inv (fun s => Forall P (variants s))); [exact Hst|].
  intros i s Hi Hs. apply elem_of_seq in Hi.
  destruct (alookup (charAt chars i) buckets) as [subsI|] eqn:EbI; [|exact Hs].
  apply (forEachWhile_inv (fun s => Forall P (variants s))); [exact Hs|].
  intros j s' Hj Hs'. apply elem_of_seq in Hj. unfold twoEditAt.
  destruct (alookup (charAt chars j) buckets) as [subsJ|] eqn:EbJ; [|exact Hs'].
  apply (forEachWhile_inv (fun s => Forall P (variants s))); [exact Hs'|].
  intros subI s1 HsubI Hs1.
  apply (forEachWhile_inv (fun s => Forall P (variants s))); [exact Hs1|].
  intros subJ s2 HsubJ Hs2. apply tryAdd_inv; [|exact Hs2].
  apply HP. exists i, j, (charAt chars i), (charAt chars j), subsI, subsJ, subI, subJ.
  split; [lia|].
  split; [apply charAt_lookup; lia|]. split; [apply charAt_lookup; lia|].
  split; [exact EbI|]. split; [exact EbJ|].
  split; [by eapply slice0_elem_of|]. split; [by eapply slice0_elem_of|reflexivity].
Qed.

Lemma generateVariants_shape label options buckets v :
  v ∈ generateVariants label options buckets ->
  let chars := spread (toLowerCase label) in
  oneEdit (bucketsUsed options buckets) chars v \/
  (2 <= default 2 (go_maxEdits options) /\
   twoEdit (bucketsUsed options buckets) chars v).
Proof.
  intros Hin chars.
  set (P := fun v => oneEdit (bucketsUsed options buckets) chars v \/
                     (2 <= default 2 (go_maxEdits options) /\
                      twoEdit (bucketsUsed options buckets) chars v)).
  change (P v). revert v Hin. apply Forall_forall.
  unfold generateVariants. fold chars. fold (bucketsUsed options buckets).
  set (st0 := {| seen := ∅; variants := [] |}).
  pose proof (oneEditPass_inv P (bucketsUsed options buckets)
                (default 10 (go_maxPerChar options))
                (default 5000 (go_maxVariants options)) chars st0) as H1.
  destruct (oneEditPass _ _ _ chars st0) as [st1 go] eqn:E1. simpl in H1.
  assert (Hst1 : Forall P (variants st1)).
  { apply H1; [intros w Hw; by left|constructor]. }
  assert (Hfin : forall vs key, Forall P vs -> Forall P (finalize vs key)).
  { intros vs key Hvs. unfold finalize. rewrite Forall_forall in *.
    intros w Hw. apply Hvs. by apply jsSort_elem_of in Hw. }
  destruct go; simpl; [|by apply Hfin].
  destruct (2 <=? default 2 (go_maxEdits options)) eqn:E2; [|by apply Hfin].
  pose proof (twoEditPass_inv P (bucketsUsed options buckets)
                (default 10 (go_maxPerChar options))
                (default 5000 (go_maxVariants options)) chars st1) as H2.
  destruct (twoEditPass _ _ _ chars st1) as [st2 go2]. simpl in H2.
  apply Hfin, H2; [|exact Hst1].
  intros w Hw. right. split; [lia|exact Hw].
Qed.

Lemma diffCount_insert (a b : list jsstring) (i : nat) (x y : jsstring) :
  a !! i = Some x -> b !! i = Some x -> y <> x ->
  diffCount a (<[i := y]> b) = S (diffCount a b).
Proof.
  revert b i. induction a as [|c a IH]; intros [|d b] [|i] Ha Hb Hne;
    simpl in *; try discriminate.
  - injection Ha as ->. injection Hb as ->.
    destruct (decide (x = y)) as [|_]; [congruence|].
    destruct (decide (x = x)); [reflexivity|congruence].
  - rewrite (IH b i) by assumption. lia.
Qed.

Lemma diffCount_refl (a : list jsstring) : diffCount a a = 0%nat.
Proof.
  induction a as [|c a IH]; simpl; [reflexivity|].
  by rewrite decide_True.
Qed.

Lemma bucketsUsed_noSelf options buckets :
  (forall b, buckets = Some b -> noSelfEntries b) ->
  noSelfEntries (bucketsUsed options buckets).
Proof.
  intros H. destruct buckets as [b|]; simpl; [by apply H|].
  apply buildPrototypeBuckets_noSelf.
Qed.

(** C3, as amended. Every variant [generateVariants] produces is the
    lower-cased label with one or two characters replaced: its label is the
    join of a character array that differs from the characters of the
    lower-cased input at exactly as many positions as the variant has
    substitutions, namely at the positions the substitutions record, each
    replacement differing from the original; the positions are strictly
    increasing; and a variant has two substitutions only when
    [maxEdits >= 2], one otherwise.  When the buckets offer single code
    points only, that array is the character array of the variant's label.
    The buckets, when supplied by the caller, list no character under
    itself (those the library builds never do). *)
Theorem generateVariants_edits (input : jsstring) (options : GenerateOptions)
    (buckets : option PrototypeBuckets) (v : RawVariant) :
  (forall b, buckets = Some b -> noSelfEntries b) ->
  v ∈ generateVariants input options buckets ->
  let chars := spread (toLowerCase input) in
  exists mutated : list jsstring,
    label v = concat mutated /\
    length mutated = length chars /\
    diffCount chars mutated = length (substitutions v) /\
    Forall (fun s => chars !! position s = Some (original s) /\
                     mutated !! position s = Some (replacement s) /\
                     replacement s <> original s) (substitutions v) /\
    positionsIncreasing (substitutions v) /\
    (length (substitutions v) = 1%nat \/
     (length (substitutions v) = 2%nat /\ 2 <= default 2 (go_maxEdits options))) /\
    (scalarEntries (bucketsUsed options buckets) -> spread (label v) = mutated).
Proof.
  intros Hself Hin chars.
  pose proof (bucketsUsed_noSelf options buckets Hself) as Hns.
  assert (Hscalar : forall proto subs sub,
            scalarEntries (bucketsUsed options buckets) ->
            alookup proto (bucketsUsed options buckets) = Some subs ->
            sub ∈ subs -> isScalar (cs_char sub) = true).
  { intros proto subs sub Hall Hb Hsub. unfold scalarEntries in Hall.
    rewrite Forall_forall in Hall.
    specialize (Hall _ (alookup_elem_of _ _ _ Hb)). simpl in Hall.
    rewrite Forall_forall in Hall. by apply Hall. }
  pose proof (spread_wellChunked (toLowerCase input)) as Hchunks.
  fold chars in Hchunks.
  destruct (generateVariants_shape input options buckets v Hin) as [H1|[Hmax H2]];
    fold chars in H1 || fold chars in H2.
  - destruct H1 as (i & proto & subs & sub & Hi & Hb & Hsub & ->).
    pose proof (Hns proto subs sub Hb Hsub) as Hne.
    pose proof (lookup_lt_Some _ _ _ Hi) as Hlt.
    exists (<[i := cs_char sub]> chars). simpl.
    split; [reflexivity|]. split; [apply length_insert|].
    split; [rewrite (diffCount_insert chars chars i proto) by assumption;
            by rewrite diffCount_refl|].
    split.
    { constructor; [|constructor]. simpl.
      split; [exact Hi|]. split; [by apply list_lookup_insert_eq|exact Hne]. }
    split; [repeat constructor|]. split; [by left|].
    intros Hall. apply spread_concat, wellChunked_insert; [exact Hchunks|].
    by apply (Hscalar proto subs).
  - destruct H2 as (i & j & pI & pJ & subsI & subsJ & subI & subJ &
                    Hij & Hi & Hj & HbI & HbJ & HsI & HsJ & ->).
    pose proof (Hns pI subsI subI HbI HsI) as HneI.
    pose proof (Hns pJ subsJ subJ HbJ HsJ) as HneJ.
    pose proof (lookup_lt_Some _ _ _ Hi) as HltI.
    pose proof (lookup_lt_Some _ _ _ Hj) as HltJ.
    assert (Hj' : <[i := cs_char subI]> chars !! j = Some pJ).
    { rewrite list_lookup_insert_ne by lia. exact Hj. }
    exists (<[j := cs_char subJ]> (<[i := cs_char subI]> chars)). simpl.
    split; [reflexivity|]. split; [by rewrite !length_insert|].
    split.
    { rewrite (diffCount_insert chars _ j pJ) by assumption.
      rewrite (diffCount_insert chars chars i pI) by assumption.
      by rewrite diffCount_refl. }
    split.
    { constructor; [|constructor; [|constructor]]; simpl.
      - split; [exact Hi|]. split; [|exact HneI].
        rewrite list_lookup_insert_ne by lia. by apply list_lookup_insert_eq.
      - split; [exact Hj|]. split; [|exact HneJ].
        apply list_lookup_insert_eq. by rewrite length_insert. }
    split.
    { unfold positionsIncreasing. simpl. repeat constructor. exact Hij. }
    split; [right; split; [reflexivity|exact Hmax]|].
    intros Hall. apply spread_concat.
    apply wellChunked_insert; [apply wellChunked_insert; [exact Hchunks|]|].
    + by apply (Hscalar pI subsI).
    + by apply (Hscalar pJ subsJ).
Qed.

(** ** Ranking *)

Lemma aggregateScore_spec (key : ScoreKey) (subs : list Substitution) :
  subs <> [] -> (aggregateScore subs key == specAggregate key subs)%Q.
Proof.
  intros Hne. destruct subs as [|s subs]; [congruence|].
  unfold aggregateScore, specAggregate, editPenalty.
  by rewrite scoreProduct_productOf.
Qed.

Lemma StronglySorted_impl_in {A : Type} (R R' : A -> A -> Prop) (l : list A) :
  (forall a b, a ∈ l -> b ∈ l -> R a b -> R' a b) ->
  StronglySorted R l -> StronglySorted R' l.
Proof.
  intros Himpl Hs. induction Hs as [|x l Hs IH Hall]; [constructor|].
  constructor.
  - apply IH. intros a b Ha Hb. apply Himpl; by right.
  - rewrite Forall_forall in *. intros y Hy.
    apply Himpl; [left|by right|by apply Hall].
Qed.

Lemma sortInsert_sorted_by {A : Type} (cmp : A -> A -> Q) (x : A) (l : list A) :
  (forall a b, Qltb 0 (cmp a b) = true -> Qltb 0 (cmp b a) = false) ->
  (forall a b c, Qltb 0 (cmp a b) = false -> Qltb 0 (cmp b c) = false ->
                 Qltb 0 (cmp a c) = false) ->
  StronglySorted (fun a b => Qltb 0 (cmp a b) = false) l ->
  StronglySorted (fun a b => Qltb 0 (cmp a b) = false) (sortInsert cmp x l).
Proof.
  intros Hasym Htrans. induction 1 as [|y l Hs IH Hall]; simpl.
  - repeat constructor.
  - destruct (Qltb 0 (cmp x y)) eqn:E.
    + constructor; [exact IH|].
      rewrite Forall_forall. intros z Hz.
      rewrite (sortInsert_Permutation cmp x l) in Hz.
      apply elem_of_cons in Hz as [->|Hz].
      * by apply Hasym.
      * rewrite Forall_forall in Hall. by apply Hall.
    + constructor; [by constructor|].
      constructor; [exact E|].
      rewrite Forall_forall in *. intros z Hz.
      eapply Htrans; [exact E|by apply Hall].
Qed.

(** A comparator whose "not after" relation is total and transitive sorts
    by it. *)
Lemma jsSort_sorted_by {A : Type} (cmp : A -> A -> Q) (l : list A) :
  (forall a b, Qltb 0 (cmp a b) = true -> Qltb 0 (cmp b a) = false) ->
  (forall a b c, Qltb 0 (cmp a b) = false -> Qltb 0 (cmp b c) = false ->
                 Qltb 0 (cmp a c) = false) ->
  StronglySorted (fun a b => Qltb 0 (cmp a b) = false) (jsSort cmp l).
Proof.
  intros Hasym Htrans. induction l as [|x l IH]; simpl; [constructor|].
  by apply sortInsert_sorted_by.
Qed.

Lemma activeOrder_not_after (a b : DomainVariant) :
  Qltb 0 (if negb (boolNum (isActive a) =? boolNum (isActive b))
          then inject_Z (boolNum (isActive b) - boolNum (isActive a))
          else (dangerScore b - dangerScore a)%Q) = false <->
  (isActive a = true /\ isActive b = false) \/
  (isActive a = isActive b /\ (dangerScore b <= dangerScore a)%Q).
Proof.
  destruct (isActive a), (isActive b); simpl.
  - rewrite (cmp_not_after dangerScore). unfold byKeyDesc. split.
    + intros H. right. by split.
    + intros [[_ H]|[_ H]]; [discriminate|exact H].
  - split; [intros _; left; by split|reflexivity].
  - split; [discriminate|]. intros [[H _]|[H _]]; discriminate.
  - rewrite (cmp_not_after dangerScore). unfold byKeyDesc. split.
    + intros H. right. by split.
    + intros [[H _]|[_ H]]; [discriminate|exact H].
Qed.

Lemma resolvedOrder_not_after (a b : DomainVariant) :
  Qltb 0 (resolvedOrder a b) = false <-> resolvedBefore a b.
Proof.
  unfold resolvedOrder, resolvedBefore.
  pose proof (activeOrder_not_after a b) as Hact.
  destruct (isRegistered a), (isRegistered b); simpl.
  - rewrite Hact. split.
    + intros H. right. by split.
    + intros [[_ H]|[_ H]]; [discriminate|exact H].
  - split; [intros _; left; by split|reflexivity].
  - split; [discriminate|]. intros [[H _]|[H _]]; discriminate.
  - rewrite Hact. split.
    + intros H. right. by split.
    + intros [[H _]|[_ H]]; [discriminate|exact H].
Qed.

Lemma resolvedBefore_total (a b : DomainVariant) :
  ~ resolvedBefore a b -> resolvedBefore b a.
Proof.
  unfold resolvedBefore. intros H.
  destruct (isRegistered a), (isRegistered b);
    try (exfalso; apply H; left; by split);
    try (left; by split);
    (right; split; [reflexivity|];
     destruct (isActive a), (isActive b);
     try (exfalso; apply H; right; split; [reflexivity|]; left; by split);
     try (left; by split);
     (right; split; [reflexivity|];
      destruct (Qlt_le_dec (dangerScore a) (dangerScore b)) as [Hlt|Hle];
      [by apply Qlt_le_weak
      |exfalso; apply H; right; split; [reflexivity|]; right; by split])).
Qed.

Lemma resolvedBefore_trans (a b c : DomainVariant) :
  resolvedBefore a b -> resolvedBefore b c -> resolvedBefore a c.
Proof.
  unfold resolvedBefore.
  intros [[Ha Hb]|[Hab [[Ha Hb]|[Hab' Hle]]]] [[Hb' Hc]|[Hbc [[Hb' Hc]|[Hbc' Hle']]]];
    first
      [ left; split; congruence
      | right; split; [congruence|];
        first [ left; split; congruence
              | right; split; [congruence|]; eapply Qle_trans; eassumption ]
      | exfalso; congruence ].
Qed.

Lemma jsSort_resolvedOrder (vs : list DomainVariant) :
  StronglySorted resolvedBefore (jsSort resolvedOrder vs).
Proof.
  eapply StronglySorted_impl_in;
    [|apply (jsSort_sorted_by resolvedOrder vs)].
  - intros a b _ _ H. by apply resolvedOrder_not_after.
  - intros a b H. apply resolvedOrder_not_after, resolvedBefore_total.
    intros Hab. apply resolvedOrder_not_after in Hab. congruence.
  - intros a b c H1 H2. apply resolvedOrder_not_after.
    apply resolvedOrder_not_after in H1, H2. by eapply resolvedBefore_trans.
Qed.

Lemma generateVariants_finalize input options buckets :
  exists vs,
    generateVariants input options buckets =
    finalize vs (scoreKeyOf (default false (go_useMaxDanger options))).
Proof.
  unfold generateVariants.
  destruct (oneEditPass _ _ _ _ _) as [st1 go].
  destruct go; simpl; [|by eexists].
  destruct (2 <=? _); [|by eexists].
  destruct (twoEditPass _ _ _ _ _) as [st2 go2]. by eexists.
Qed.

Lemma generateVariants_nonempty input options buckets v :
  v ∈ generateVariants input options buckets -> substitutions v <> [].
Proof.
  intros Hin.
  destruct (generateVariants_shape input options buckets v Hin) as [H1|[_ H2]].
  - destruct H1 as (i & proto & subs & sub & _ & _ & _ & ->). discriminate.
  - destruct H2 as (i & j & pI & pJ & sI & sJ & subI & subJ & _ & _ & _ & _ & _ & _ & _ & ->).
    discriminate.
Qed.

Lemma generateVariants_sorted input options buckets :
  sortedByAggregate (scoreKeyOf (default false (go_useMaxDanger options)))
    (generateVariants input options buckets).
Proof.
  set (key := scoreKeyOf (default false (go_useMaxDanger options))).
  pose proof (generateVariants_nonempty input options buckets) as Hne.
  destruct (generateVariants_finalize input options buckets) as [vs Hvs].
  fold key in Hvs. rewrite Hvs in *. unfold sortedByAggregate.
  eapply StronglySorted_impl_in;
    [|apply (jsSort_sorted (fun v => aggregateScore (substitutions v) key))].
  intros a b Ha Hb Hab. unfold byKeyDesc in Hab.
  rewrite <- !aggregateScore_spec by auto. exact Hab.
Qed.

Lemma scoreVariants_dangerScore rawVariants tld options v :
  v ∈ scoreVariants rawVariants tld options ->
  dangerScore v = computeDangerScore (dv_substitutions v) options.
Proof.
  unfold scoreVariants. intros Hin.
  apply list_elem_of_fmap in Hin as (raw & -> & _). reflexivity.
Qed.

(** C8, as amended. The output of [generateVariants] is sorted
    non-increasing by the aggregate score.  When DNS resolution is not
    requested, the variants [scan] returns all reach the threshold, carry
    the composite danger score of their substitutions, and are sorted
    non-increasing by it.  When it is requested, they are ordered with the
    registered ones first, then the active ones, and by non-increasing
    danger score among those of equal standing. *)
Theorem ranking_sorted (input : jsstring) (options : GenerateOptions)
    (buckets : option PrototypeBuckets) (domain : jsstring) (scanOptions : ScanOptions) :
  sortedByAggregate (scoreKeyOf (default false (go_useMaxDanger options)))
    (generateVariants input options buckets) /\
  (default false (resolve scanOptions) = false ->
   sortedByDanger (sr_variants (scan domain scanOptions)) /\
   Forall (fun v =>
             (default 0 (threshold scanOptions) <= dangerScore v)%Q /\
             dangerScore v =
               computeDangerScore (dv_substitutions v)
                 {| so_useMaxDanger := useMaxDanger scanOptions;
                    so_font := font scanOptions |})
          (sr_variants (scan domain scanOptions))) /\
  (default false (resolve scanOptions) = true ->
   StronglySorted resolvedBefore (sr_variants (scan domain scanOptions))).
Proof.
  split; [apply generateVariants_sorted|]. split;
    [|intros Hres; unfold scan; rewrite Hres; simpl sr_variants;
      apply jsSort_resolvedOrder].
  intros Hres. unfold scan. rewrite Hres. simpl sr_variants. split.
  - eapply StronglySorted_prefix; [apply slice0_prefix|].
    apply (jsSort_sorted dangerScore).
  - rewrite Forall_forall. intros v Hv.
    apply slice0_elem_of, jsSort_elem_of in Hv.
    apply list_elem_of_In, filter_In in Hv as [Hv Hth].
    apply Qle_bool_iff in Hth. split; [exact Hth|].
    apply in_flat_map in Hv as (tld & _ & Hv).
    apply list_elem_of_In in Hv. by apply scoreVariants_dangerScore in Hv.
Qed.

(** ** The per-character cap *)

Lemma oneEditsAt_app i vs ws :
  oneEditsAt i (vs ++ ws) = (oneEditsAt i vs + oneEditsAt i ws)%nat.
Proof. unfold oneEditsAt. by rewrite List.filter_app, length_app. Qed.

Lemma oneEditsAt_Permutation i vs ws :
  Permutation vs ws -> oneEditsAt i vs = oneEditsAt i ws.
Proof.
  unfold oneEditsAt. induction 1 as [|x l l' _ IH|x y l|l l' l'' _ IH1 _ IH2]; simpl.
  - reflexivity.
  - destruct (isOneEditAt i x); simpl; lia.
  - destruct (isOneEditAt i x), (isOneEditAt i y); reflexivity.
  - lia.
Qed.

Lemma tryAdd_oneEditsAt i maxVariants mutatedChars subs st :
  (oneEditsAt i (variants (fst (tryAdd maxVariants mutatedChars subs st)))
   <= oneEditsAt i (variants st)
      + (if isOneEditAt i {| label := concat mutatedChars; substitutions := subs |}
         then 1 else 0))%nat.
Proof.
  destruct (tryAdd_variants maxVariants mutatedChars subs st) as [->| ->]; [lia|].
  rewrite oneEditsAt_app. unfold oneEditsAt at 2. simpl.
  destruct (isOneEditAt i _); simpl; lia.
Qed.

Lemma sum_list_const {A : Type} (c : nat) (l : list A) :
  sum_list (map (fun _ => c) l) = (c * length l)%nat.
Proof. induction l as [|x l IH]; simpl; lia. Qed.

Lemma sum_list_at (i K a n : nat) :
  (sum_list (map (fun j => if decide (j = i) then K else 0%nat) (seq a n)) <= K)%nat.
Proof.
  assert (H : sum_list (map (fun j => if decide (j = i) then K else 0%nat) (seq a n))
              = if decide (a <= i < a + n)%nat then K else 0%nat).
  { revert a. induction n as [|n IH]; intros a; simpl.
    - destruct (decide _); [lia|reflexivity].
    - rewrite IH. repeat destruct (decide _); lia. }
  rewrite H. destruct (decide _); lia.
Qed.

Lemma slice0_length_le {A : Type} (k : Z) (l : list A) :
  (length (slice0 k l) <= length l)%nat.
Proof. apply prefix_length, slice0_prefix. Qed.

Lemma oneEditAt_oneEditsAt i buckets maxPerChar maxVariants chars j st (K : nat) :
  (forall subs, alookup (charAt chars j) buckets = Some subs ->
                (length (slice0 maxPerChar subs) <= K)%nat) ->
  (oneEditsAt i (variants (fst (oneEditAt buckets maxPerChar maxVariants chars j st)))
   <= oneEditsAt i (variants st) + (if decide (j = i) then K else 0))%nat.
Proof.
  intros HK. unfold oneEditAt.
  destruct (alookup (charAt chars j) buckets) as [subs|]; [|simpl; lia].
  specialize (HK subs eq_refl).
  etransitivity.
  - apply (forEachWhile_bound (fun s => oneEditsAt i (variants s))
             (fun _ => if decide (j = i) then 1%nat else 0%nat)).
    intros sub s _. etransitivity; [apply tryAdd_oneEditsAt|].
    unfold isOneEditAt. simpl.
    destruct (decide (j = i)) as [->|Hne].
    + rewrite bool_decide_eq_true_2 by reflexivity. lia.
    + rewrite bool_decide_eq_false_2 by exact Hne. lia.
  - rewrite sum_list_const.
    destruct (decide (j = i)); lia.
Qed.

Lemma oneEditPass_oneEditsAt i buckets maxPerChar maxVariants chars st (K : nat) :
  (forall proto subs, alookup proto buckets = Some subs ->
                      (length (slice0 maxPerChar subs) <= K)%nat) ->
  (oneEditsAt i (variants (fst (oneEditPass buckets maxPerChar maxVariants chars st)))
   <= oneEditsAt i (variants st) + K)%nat.
Proof.
  intros HK. unfold oneEditPass. etransitivity.
  - apply (forEachWhile_bound (fun s => oneEditsAt i (variants s))
             (fun j => if decide (j = i) then K else 0%nat)).
    intros j s _. apply oneEditAt_oneEditsAt. intros subs. apply HK.
  - pose proof (sum_list_at i K 0 (length chars)). lia.
Qed.

Lemma twoEditPass_oneEditsAt i buckets maxPerChar maxVariants chars st :
  (oneEditsAt i (variants (fst (twoEditPass buckets maxPerChar maxVariants chars st)))
   <= oneEditsAt i (variants st))%nat.
Proof.
  unfold twoEditPass.
  apply (forEachWhile_inv (fun s => oneEditsAt i (variants s) <= oneEditsAt i (variants st))%nat);
    [lia|].
  intros a s _ Hs.
  destruct (alookup (charAt chars a) buckets) as [subsI|]; [|exact Hs].
  apply (forEachWhile_inv (fun s => oneEditsAt i (variants s) <= oneEditsAt i (variants st))%nat);
    [exact Hs|].
  intros b s1 _ Hs1. unfold twoEditAt.
  destruct (alookup (charAt chars b) buckets) as [subsJ|]; [|exact Hs1].
  apply (forEachWhile_inv (fun s => oneEditsAt i (variants s) <= oneEditsAt i (variants st))%nat);
    [exact Hs1|].
  intros subI s2 _ Hs2.
  apply (forEachWhile_inv (fun s => oneEditsAt i (variants s) <= oneEditsAt i (variants st))%nat);
    [exact Hs2|].
  intros subJ s3 _ Hs3.
  etransitivity; [apply tryAdd_oneEditsAt|]. simpl. lia.
Qed.

Lemma generateVariants_oneEditsAt input options buckets i (K : nat) :
  (forall proto subs,
     alookup proto (bucketsUsed options buckets) = Some subs ->
     (length (slice0 (default 10%Z (go_maxPerChar options)) subs) <= K)%nat) ->
  (oneEditsAt i (generateVariants input options buckets) <= K)%nat.
Proof.
  intros HK. unfold generateVariants. fold (bucketsUsed options buckets).
  set (B := bucketsUsed options buckets) in *.
  set (chars := spread (toLowerCase input)).
  set (st0 := {| seen := ∅; variants := [] |}).
  pose proof (oneEditPass_oneEditsAt i B (default 10 (go_maxPerChar options))
                (default 5000 (go_maxVariants options)) chars st0 K HK) as H1.
  destruct (oneEditPass _ _ _ chars st0) as [st1 go]. simpl in H1.
  change (oneEditsAt i []) with 0%nat in H1.
  assert (Hfin : forall vs key, oneEditsAt i (finalize vs key) = oneEditsAt i vs).
  { intros vs key. apply oneEditsAt_Permutation, jsSort_Permutation. }
  destruct go; simpl; [|rewrite Hfin; lia].
  destruct (2 <=? _); [|rewrite Hfin; lia].
  pose proof (twoEditPass_oneEditsAt i B (default 10 (go_maxPerChar options))
                (default 5000 (go_maxVariants options)) chars st1) as H2.
  destruct (twoEditPass _ _ _ chars st1) as [st2 go2]. simpl in H2.
  rewrite Hfin. lia.
Qed.

(** C9, as amended. For a cap [maxPerChar = k] that is not negative, every
    bucket [buildPrototypeBuckets] produces holds at most [k] entries, and
    so each label position contributes at most [k] 1-edit variants to the
    output of [generateVariants] over those buckets; the same bound holds
    for the [maxPerChar] of [generateVariants] itself, whatever the
    buckets; and every bucket is sorted descending by the configured score
    key: by [danger] when [useMaxDanger] is set, by [stableDanger]
    otherwise. *)
Theorem maxPerChar_bounds (buildOptions : BuildOptions) (proto : jsstring)
    (subs : list ConfusableSubstitute) (input : jsstring) (options : GenerateOptions)
    (buckets : option PrototypeBuckets) (i : nat) :
  ((proto, subs) ∈ buildPrototypeBuckets buildOptions ->
   (default false (bo_useMaxDanger buildOptions) = true ->
    StronglySorted (fun a b => (cs_danger b <= cs_danger a)%Q) subs) /\
   (default false (bo_useMaxDanger buildOptions) = false ->
    StronglySorted (fun a b => (cs_stableDanger b <= cs_stableDanger a)%Q) subs) /\
   (0 <= default 50 (bo_maxPerChar buildOptions) ->
    Z.of_nat (length subs) <= default 50 (bo_maxPerChar buildOptions))) /\
  (0 <= default 50 (bo_maxPerChar buildOptions) ->
   Z.of_nat (oneEditsAt i
               (generateVariants input options
                  (Some (buildPrototypeBuckets buildOptions))))
   <= default 50 (bo_maxPerChar buildOptions)) /\
  (0 <= default 10 (go_maxPerChar options) ->
   Z.of_nat (oneEditsAt i (generateVariants input options buckets))
   <= default 10 (go_maxPerChar options)).
Proof.
  split; [|split].
  - intros Hin. destruct (buckets_sorted_capped _ _ _ Hin) as [Hsorted Hcap].
    split; [|split; [|exact Hcap]]; intros Hmax; rewrite Hmax in Hsorted;
      exact Hsorted.
  - intros Hk.
    pose proof (generateVariants_oneEditsAt input options
                  (Some (buildPrototypeBuckets buildOptions)) i
                  (Z.to_nat (default 50 (bo_maxPerChar buildOptions)))) as H.
    cut (oneEditsAt i (generateVariants input options
                         (Some (buildPrototypeBuckets buildOptions)))
         <= Z.to_nat (default 50%Z (bo_maxPerChar buildOptions)))%nat; [lia|].
    apply H. simpl bucketsUsed. intros p ss Hp.
    apply alookup_elem_of, buckets_sorted_capped in Hp as [_ Hlen].
    pose proof (slice0_length_le (default 10 (go_maxPerChar options)) ss).
    specialize (Hlen Hk). lia.
  - intros Hk.
    pose proof (generateVariants_oneEditsAt input options buckets i
                  (Z.to_nat (default 10 (go_maxPerChar options)))) as H.
    cut (oneEditsAt i (generateVariants input options buckets)
         <= Z.to_nat (default 10%Z (go_maxPerChar options)))%nat; [lia|].
    apply H. intros p ss _.
    pose proof (slice0_length (default 10 (go_maxPerChar options)) ss Hk). lia.
Qed.

(** ** Symmetry of the graph *)

Lemma addEdge_edge inc raw from sub d sd p x y :
  rawEdge (addEdge inc raw from sub d sd p) x y <->
  rawEdge raw x y \/ (x = from /\ y = sub /\ accepted inc from sub p).
Proof.
  unfold rawEdge.
  destruct (decide (from = sub)) as [Heq|Hne].
  { rewrite addEdge_skipped by (intros [? _]; congruence).
    split; [by left|]. intros [H|(_ & _ & [? _])]; [exact H|congruence]. }
  destruct (inc || p) eqn:Eok.
  - rewrite addEdge_accepted by (by split).
    destruct (decide (x = from /\ y = sub)) as [[-> ->]|Hxy].
    + split; [|by eexists]. intros _. right. by repeat split.
    + split; [by left|]. intros [H|(-> & -> & _)]; [exact H|]. by destruct Hxy.
  - rewrite addEdge_skipped by (intros [_ ?]; congruence).
    split; [by left|]. intros [H|(_ & _ & [_ ?])]; [exact H|congruence].
Qed.

Lemma symmetricRaw_addBoth raw a b d sd p d' sd' p' :
  symmetricRaw raw ->
  symmetricRaw (addEdge true (addEdge true raw a b d sd p) b a d' sd' p').
Proof.
  intros Hsym x y. rewrite !addEdge_edge. unfold accepted. simpl.
  intros [[H|(-> & -> & Hne & _)]|(-> & -> & Hne & _)].
  - left. left. by apply Hsym.
  - right. by repeat split.
  - left. right. by repeat split.
Qed.

Lemma symmetricRaw_buildRaw : lowerCaseKeys -> symmetricRaw (buildRaw true).
Proof.
  intros Hlow. unfold buildRaw.
  assert (H1 : forall entries raw, symmetricRaw raw ->
            symmetricRaw (fold_left (addMapEntry true) entries raw)).
  { induction entries as [|[char prototype] entries IH]; intros raw Hs; simpl; [exact Hs|].
    apply IH. destruct (decide (char = prototype)); [exact Hs|].
    by apply symmetricRaw_addBoth. }
  assert (H2 : forall keyA targets raw,
            toLowerCase keyA = keyA ->
            Forall (fun target : jsstring * ConfusableWeight =>
                      toLowerCase (fst target) = fst target) targets ->
            symmetricRaw raw ->
            symmetricRaw (fold_left (addWeightPair true keyA) targets raw)).
  { intros keyA targets raw HA Ht. revert raw.
    induction Ht as [|[keyB w] targets HB _ IH]; intros raw Hs; simpl; [exact Hs|].
    apply IH. simpl in HB. rewrite HA, HB. by apply symmetricRaw_addBoth. }
  assert (H3 : forall rows raw,
            Forall (fun row : jsstring * list (jsstring * ConfusableWeight) =>
                      toLowerCase (fst row) = fst row /\
                      Forall (fun target => toLowerCase (fst target) = fst target)
                             (snd row)) rows ->
            symmetricRaw raw ->
            symmetricRaw (fold_left (addWeightRow true) rows raw)).
  { intros rows raw Hrows. revert raw.
    induction Hrows as [|row rows [HA Ht] _ IH]; intros raw Hs; simpl; [exact Hs|].
    apply IH. unfold addWeightRow. by apply H2. }
  apply H3; [exact Hlow|]. apply H1.
  intros x y [e He]. discriminate.
Qed.

(** C7, as amended. With [includeNonPvalid] set, a cap that leaves every
    bucket whole, and a weight table whose keys are their own lower case,
    the graph is symmetric: for every entry of the bucket of [x] whose
    character is [s], the bucket of [s] has an entry whose character is
    [x]. *)
Theorem buckets_symmetric (options : BuildOptions) (x : jsstring)
    (subs : list ConfusableSubstitute) (e : ConfusableSubstitute) :
  bo_includeNonPvalid options = Some true ->
  lowerCaseKeys ->
  capKeepsAll (default 50 (bo_maxPerChar options)) ->
  alookup x (buildPrototypeBuckets options) = Some subs ->
  e ∈ subs ->
  exists subs' e',
    alookup (cs_char e) (buildPrototypeBuckets options) = Some subs' /\
    e' ∈ subs' /\ cs_char e' = x.
Proof.
  intros Hinc Hlow Hcap Hlook Hin.
  pose proof (rawWf_buildRaw true) as [Hnd Hwf].
  pose proof (symmetricRaw_buildRaw Hlow) as Hsym.
  rewrite buckets_lookup, Hinc in Hlook. simpl default in Hlook.
  destruct (alookup x (buildRaw true)) as [bucket|] eqn:Eb; [|discriminate].
  injection Hlook as <-.
  apply slice0_elem_of, jsSort_elem_of in Hin.
  apply list_elem_of_fmap in Hin as ([s e0] & -> & Hin). simpl.
  destruct (Hwf x bucket (alookup_elem_of _ _ _ Eb)) as [Hndb Hb].
  destruct (Hb s e0 Hin) as [Hchar Hne]. rewrite Hchar.
  assert (Hedge : rawEdge (buildRaw true) x s).
  { exists e0. unfold lookupEntry. rewrite Eb. by apply elem_of_alookup. }
  apply Hsym in Hedge as [e' He']. unfold lookupEntry in He'.
  destruct (alookup s (buildRaw true)) as [bucket'|] eqn:Eb'; [|discriminate].
  pose proof (alookup_elem_of _ _ _ Eb') as Hin'.
  destruct (Hwf s bucket' Hin') as [_ Hb'].
  destruct (Hb' x e' (alookup_elem_of _ _ _ He')) as [Hchar' _].
  eexists _, e'. rewrite buckets_lookup, Hinc. simpl default. rewrite Eb'.
  split; [reflexivity|]. split; [|exact Hchar'].
  rewrite slice0_all.
  - apply jsSort_elem_of, list_elem_of_fmap. exists (x, e'). split; [reflexivity|].
    by apply alookup_elem_of.
  - rewrite jsSort_length, length_map.
    unfold capKeepsAll in Hcap. rewrite Forall_forall in Hcap.
    apply (Hcap (s, bucket') Hin').
Qed.

(** ** Splitting a domain *)

Lemma startsWith_spec (p s : jsstring) :
  startsWith p s = true <-> exists t, s = p ++ t.
Proof.
  revert s. induction p as [|a p IH]; intros s; simpl.
  - split; [by exists s|reflexivity].
  - destruct s as [|b s].
    + split; [discriminate|]. intros [t Ht]. discriminate.
    + rewrite andb_true_iff, Z.eqb_eq, IH. split.
      * intros [-> [t ->]]. by exists t.
      * intros [t [= -> ->]]. split; [reflexivity|by exists t].
Qed.


Lemma lastIndexOfFrom_spec (c : Z) (s : jsstring) (idx found : Z) :
  ((c ∉ s) /\ lastIndexOfFrom c s idx found = found) \/
  (exists pre post,
     s = pre ++ c :: post /\ (c ∉ post) /\
     lastIndexOfFrom c s idx found = idx + Z.of_nat (length pre)).
Proof.
  revert idx found. induction s as [|u s IH]; intros idx found; simpl.
  - left. split; [apply not_elem_of_nil|reflexivity].
  - destruct (IH (idx + 1) (if u =? c then idx else found))
      as [[Hnot Heq]|(pre & post & -> & Hpost & Heq)].
    + destruct (Z.eqb_spec u c) as [->|Hne].
      * right. exists [], s. simpl. split; [reflexivity|]. split; [exact Hnot|lia].
      * left. split; [|exact Heq]. rewrite not_elem_of_cons. split; congruence.
    + right. exists (u :: pre), post. simpl. split; [reflexivity|].
      split; [exact Hpost|lia].
Qed.

Lemma lastIndexOf_spec (c : Z) (s : jsstring) :
  ((c ∉ s) /\ lastIndexOf c s = -1) \/
  (exists pre post,
     s = pre ++ c :: post /\ (c ∉ post) /\ lastIndexOf c s = Z.of_nat (length pre)).
Proof.
  unfold lastIndexOf.
  destruct (lastIndexOfFrom_spec c s 0 (-1)) as [H|(pre & post & H1 & H2 & H3)];
    [by left|].
  right. exists pre, post. by rewrite H3.
Qed.















(** ** The reverse resolver *)

Lemma reverseLoop_spec (i : nat) (chars : list jsstring)
    (subs : list Substitution) (canon : list jsstring) :
  reverseLoop i chars subs canon =
  (subs ++ detectedFrom i chars, canon ++ map canonicalChar chars).
Proof.
  revert i subs canon. induction chars as [|ch rest IH]; intros i subs canon; simpl.
  - by rewrite !app_nil_r.
  - unfold canonicalChar at 1.
    destruct (asciiPrototype ch) as [ascii|]; rewrite IH; simpl;
      by rewrite <- !app_assoc.
Qed.

Lemma sumStableDanger_spec (subs : list Substitution) :
  (sumStableDanger subs == foldr Qplus 0 (map stableDanger subs))%Q.
Proof.
  unfold sumStableDanger.
  assert (H : forall a, (fold_left (fun sum s => sum + stableDanger s) subs a
                         == a + foldr Qplus 0 (map stableDanger subs))%Q).
  { induction subs as [|s subs IH]; intros a; simpl; [ring|]. rewrite IH. ring. }
  rewrite H. ring.
Qed.

(** Where the label decodes, [reverseScan] returns; its impersonation list
    is empty exactly when no substitution was detected, and otherwise holds
    one candidate: the decoded label with every confusable character
    replaced by its prototype, joined to the TLD, with the mean
    [stableDanger] of the detected substitutions as its similarity. *)
Lemma reverseScan_report (domain decodedLabel : jsstring) :
  decodedLabelOf domain = Ok decodedLabel ->
  let chars := spread decodedLabel in
  let detected := detectedFrom 0 chars in
  exists r,
    reverseScan domain = Ok r /\
    rs_domain r = domain /\
    (detected = [] -> impersonates r = []) /\
    (detected <> [] ->
     exists candidate,
       impersonates r = [candidate] /\
       imp_domain candidate =
         concat (map canonicalChar chars) ++ js "." ++ dp_tld (splitDomain domain) /\
       imp_substitutions candidate = detected /\
       (similarity candidate == meanStableDanger detected)%Q).
Proof.
  intros Hdec chars detected. unfold decodedLabelOf in Hdec.
  unfold reverseScan. rewrite Hdec. fold chars.
  rewrite reverseLoop_spec. simpl app. fold detected.
  eexists. split; [reflexivity|]. simpl. split; [reflexivity|]. split.
  - by intros ->.
  - intros Hne. destruct detected as [|s rest] eqn:E; [congruence|].
    eexists. split; [reflexivity|]. simpl.
    split; [reflexivity|]. split; [reflexivity|].
    unfold meanStableDanger. by rewrite sumStableDanger_spec.
Qed.

Lemma decodedLabelOf_plain (domain : jsstring) :
  startsWith (js "xn--") (dp_label (splitDomain domain)) = false ->
  decodedLabelOf domain = Ok (dp_label (splitDomain domain)).
Proof. intros H. unfold decodedLabelOf. by rewrite H. Qed.

(** [toPunycode] returns what the URL parser makes of the domain, and the
    domain itself when the parser rejects it. *)
Lemma toPunycode_cases (domain : jsstring) :
  (forall hostname,
     urlHostname (js "http://" ++ domain) = Some hostname ->
     toPunycode domain = hostname) /\
  (urlHostname (js "http://" ++ domain) = None -> toPunycode domain = domain).
Proof. unfold toPunycode. split; [intros hostname ->|intros ->]; reflexivity. Qed.

(** C2, at the failing input. The label [xn--99999] makes the decoder read
    the delta 4760385 and hand the code point 4760513, which is above
    0x10FFFF, to [String.fromCodePoint]: the decoder raises a [RangeError]
    where the claim promises a best-effort string. *)
Theorem decodePunycodeLabel_raises :
  decodePunycodeLabel (js "xn--99999") = RangeError /\
  fst (readDigits INITIAL_BIAS (js "99999") 0 1 BASE) = 4760385 /\
  fromCodePoint (INITIAL_N + 4760385) = RangeError.
Proof. by vm_compute. Qed.

(** C4, at the failing input. On [xn--99999.com] the decoding of the label
    raises, and [reverseScan] with it: no impersonation list is returned. *)
Theorem reverseScan_raises :
  toLowerCase (js "xn--99999.com") = js "xn--99999.com" ->
  reverseScan (js "xn--99999.com") = RangeError.
Proof.
  intros Hlow. unfold reverseScan, splitDomain. rewrite Hlow.
  by vm_compute.
Qed.

(** ** Duplicate edges *)

(** An accepted edge to a target the bucket already holds keeps the higher
    [stableDanger]; the flags are joined only when the new edge has the
    strictly higher [stableDanger], and the entry found is kept as it is
    otherwise. *)
Lemma addEdge_existing inc raw from sub d sd p e :
  accepted inc from sub p ->
  lookupEntry raw from sub = Some e ->
  exists e',
    lookupEntry (addEdge inc raw from sub d sd p) from sub = Some e' /\
    cs_char e' = cs_char e /\
    (cs_stableDanger e' == Qmax (cs_stableDanger e) sd)%Q /\
    cs_idnaPvalid e' =
      if Qltb (cs_stableDanger e) sd then cs_idnaPvalid e || p else cs_idnaPvalid e.
Proof.
  intros Hacc He. rewrite (addEdge_accepted inc raw from sub d sd p from sub Hacc).
  rewrite decide_True by (by split). rewrite He. simpl.
  destruct (Qltb (cs_stableDanger e) sd) eqn:E.
  - eexists. split; [reflexivity|]. simpl. repeat split.
    apply Qltb_lt in E. symmetry. apply Q.max_r. by apply Qlt_le_weak.
  - eexists. split; [reflexivity|]. repeat split.
    apply Qltb_ge in E. symmetry. by apply Q.max_l.
Qed.

(** Self-edges and, without [includeNonPvalid], edges that are not PVALID
    leave the graph as it is. *)
Lemma addEdge_guards inc raw from sub d sd p :
  from = sub \/ (inc = false /\ p = false) ->
  addEdge inc raw from sub d sd p = raw.
Proof.
  intros H. apply addEdge_skipped. intros [Hne Hok].
  destruct H as [?|[-> ->]]; [congruence|discriminate].
Qed.

(** ** Further properties of the variant generator *)

(** What [tryAdd] keeps, the two passes keep. *)
Lemma oneEditPass_state (P : GenState -> Prop) buckets maxPerChar maxVariants chars st :
  (forall mutated subs s, P s -> P (fst (tryAdd maxVariants mutated subs s))) ->
  P st -> P (fst (oneEditPass buckets maxPerChar maxVariants chars st)).
Proof.
  intros Hadd Hst. unfold oneEditPass.
  apply (forEachWhile_inv P); [exact Hst|].
  intros i s _ Hs. unfold oneEditAt.
  destruct (alookup (charAt chars i) buckets) as [subs|]; [|exact Hs].
  apply (forEachWhile_inv P); [exact Hs|].
  intros sub s' _ Hs'. by apply Hadd.
Qed.

Lemma twoEditPass_state (P : GenState -> Prop) buckets maxPerChar maxVariants chars st :
  (forall mutated subs s, P s -> P (fst (tryAdd maxVariants mutated subs s))) ->
  P st -> P (fst (twoEditPass buckets maxPerChar maxVariants chars st)).
Proof.
  intros Hadd Hst. unfold twoEditPass.
  apply (forEachWhile_inv P); [exact Hst|].
  intros i s _ Hs.
  destruct (alookup (charAt chars i) buckets) as [subsI|]; [|exact Hs].
  apply (forEachWhile_inv P); [exact Hs|].
  intros j s' _ Hs'. unfold twoEditAt.
  destruct (alookup (charAt chars j) buckets) as [subsJ|]; [|exact Hs'].
  apply (forEachWhile_inv P); [exact Hs'|].
  intros subI s1 _ Hs1.
  apply (forEachWhile_inv P); [exact Hs1|].
  intros subJ s2 _ Hs2. by apply Hadd.
Qed.

(** [generateVariants] returns the sorted variants of a state that
    satisfies every invariant of [tryAdd]. *)
Lemma generateVariants_state (P : GenState -> Prop) input options buckets :
  (forall mutated subs s,
     P s -> P (fst (tryAdd (default 5000 (go_maxVariants options)) mutated subs s))) ->
  P {| seen := ∅; variants := [] |} ->
  exists st,
    P st /\
    generateVariants input options buckets =
      finalize (variants st) (scoreKeyOf (default false (go_useMaxDanger options))).
Proof.
  intros Hadd H0. unfold generateVariants.
  fold (bucketsUsed options buckets).
  set (chars := spread (toLowerCase input)).
  set (st0 := {| seen := ∅; variants := [] |}).
  pose proof (oneEditPass_state P (bucketsUsed options buckets)
                (default 10 (go_maxPerChar options))
                (default 5000 (go_maxVariants options)) chars st0 Hadd H0) as H1.
  destruct (oneEditPass _ _ _ chars st0) as [st1 go]. simpl in H1.
  destruct go; simpl; [|by exists st1].
  destruct (2 <=? default 2 (go_maxEdits options)); [|by exists st1].
  pose proof (twoEditPass_state P (bucketsUsed options buckets)
                (default 10 (go_maxPerChar options))
                (default 5000 (go_maxVariants options)) chars st1 Hadd H1) as H2.
  destruct (twoEditPass _ _ _ chars st1) as [st2 go2]. simpl in H2.
  by exists st2.
Qed.

(** The hard cap: [generateVariants] never returns more than [maxVariants]
    variants, and none when [maxVariants] is zero or negative. *)
Theorem generateVariants_capped (input : jsstring) (options : GenerateOptions)
    (buckets : option PrototypeBuckets) :
  Z.of_nat (length (generateVariants input options buckets))
  <= Z.max 0 (default 5000 (go_maxVariants options)).
Proof.
  destruct (generateVariants_state
              (fun st => Z.of_nat (length (variants st))
                         <= Z.max 0 (default 5000 (go_maxVariants options)))
              input options buckets) as (st & Hst & ->).
  - intros mutated subs s Hs. unfold tryAdd.
    destruct (default 5000 (go_maxVariants options) <=? Z.of_nat (length (variants s)))
      eqn:E; [exact Hs|].
    destruct (bool_decide _); [exact Hs|]. simpl.
    rewrite length_app. simpl. apply Z.leb_gt in E. lia.
  - simpl. lia.
  - unfold finalize. by rewrite jsSort_length.
Qed.

(** Deduplication: no two variants [generateVariants] returns have the
    same label. *)
Theorem generateVariants_distinct (input : jsstring) (options : GenerateOptions)
    (buckets : option PrototypeBuckets) :
  NoDup (map label (generateVariants input options buckets)).
Proof.
  destruct (generateVariants_state
              (fun st => NoDup (map label (variants st)) /\
                         forall l, l ∈ map label (variants st) -> l ∈ seen st)
              input options buckets) as (st & [Hnd _] & ->).
  - intros mutated subs s [Hnd Hseen]. unfold tryAdd.
    destruct (_ <=? _); [by split|].
    destruct (bool_decide (concat mutated ∈ seen s)) eqn:E; [by split|].
    apply bool_decide_eq_false in E. simpl. rewrite map_app. simpl. split.
    + apply NoDup_app. split; [exact Hnd|]. split.
      * intros l Hl Hl'. apply list_elem_of_singleton in Hl'. subst l.
        by apply E, Hseen.
      * apply NoDup_singleton.
    + intros l Hl. apply elem_of_app in Hl as [Hl|Hl].
      * apply elem_of_union_r. by apply Hseen.
      * apply list_elem_of_singleton in Hl. subst l.
        apply elem_of_union_l. by apply elem_of_singleton.
  - simpl. split; [constructor|]. intros l Hl. by apply elem_of_nil in Hl.
  - unfold finalize.
    by rewrite (Permutation_map label (jsSort_Permutation _ (variants st))).
Qed.

(** *** The passes as one loop over their candidates *)

Lemma forEachWhile_app {A S : Type} (body : A -> S -> S * bool) (l1 l2 : list A) (st : S) :
  forEachWhile body (l1 ++ l2) st =
  if snd (forEachWhile body l1 st)
  then forEachWhile body l2 (fst (forEachWhile body l1 st))
  else (fst (forEachWhile body l1 st), false).
Proof.
  revert st. induction l1 as [|x l1 IH]; intros st; simpl; [reflexivity|].
  destruct (body x st) as [st' go]. destruct go; [apply IH|reflexivity].
Qed.

Lemma forEachWhile_false {A S : Type} (body : A -> S -> S * bool) (l : list A) (st : S) :
  snd (forEachWhile body l st) = false ->
  forEachWhile body l st = (fst (forEachWhile body l st), false).
Proof. destruct (forEachWhile body l st) as [s g]. simpl. by intros ->. Qed.

Lemma forEachWhile_flat_map {A B S : Type} (body : B -> S -> S * bool)
    (f : A -> list B) (l : list A) (st : S) :
  forEachWhile body (flat_map f l) st =
  forEachWhile (fun x s => forEachWhile body (f x) s) l st.
Proof.
  revert st. induction l as [|x l IH]; intros st; simpl; [reflexivity|].
  rewrite forEachWhile_app.
  destruct (forEachWhile body (f x) st) as [st' go]. simpl.
  destruct go; [apply IH|reflexivity].
Qed.

Lemma forEachWhile_map {A B S : Type} (body : B -> S -> S * bool)
    (g : A -> B) (l : list A) (st : S) :
  forEachWhile body (map g l) st = forEachWhile (fun x s => body (g x) s) l st.
Proof.
  revert st. induction l as [|x l IH]; intros st; simpl; [reflexivity|].
  destruct (body (g x) st) as [st' go]. destruct go; [apply IH|reflexivity].
Qed.

Lemma forEachWhile_ext {A S : Type} (body body' : A -> S -> S * bool) (l : list A) (st : S) :
  (forall x s, body x s = body' x s) ->
  forEachWhile body l st = forEachWhile body' l st.
Proof.
  intros H. revert st. induction l as [|x l IH]; intros st; simpl; [reflexivity|].
  rewrite H. destruct (body' x st) as [st' go]. destruct go; [apply IH|reflexivity].
Qed.

Lemma oneEditPass_candidates buckets maxPerChar maxVariants chars st :
  oneEditPass buckets maxPerChar maxVariants chars st =
  forEachWhile (fun c s => tryAdd maxVariants (fst c) (snd c) s)
    (oneEditCandidates buckets maxPerChar chars) st.
Proof.
  unfold oneEditPass, oneEditCandidates. rewrite forEachWhile_flat_map.
  apply forEachWhile_ext. intros i s. unfold oneEditAt.
  destruct (alookup (charAt chars i) buckets) as [subs|]; [|reflexivity].
  by rewrite forEachWhile_map.
Qed.

Lemma twoEditPass_candidates buckets maxPerChar maxVariants chars st :
  twoEditPass buckets maxPerChar maxVariants chars st =
  forEachWhile (fun c s => tryAdd maxVariants (fst c) (snd c) s)
    (twoEditCandidates buckets maxPerChar chars) st.
Proof.
  unfold twoEditPass, twoEditCandidates. rewrite forEachWhile_flat_map.
  apply forEachWhile_ext. intros i s.
  destruct (alookup (charAt chars i) buckets) as [subsI|]; [|reflexivity].
  rewrite forEachWhile_flat_map.
  apply forEachWhile_ext. intros j s'. unfold twoEditAt.
  destruct (alookup (charAt chars j) buckets) as [subsJ|]; [|reflexivity].
  rewrite forEachWhile_flat_map.
  apply forEachWhile_ext. intros subI s1.
  by rewrite forEachWhile_map.
Qed.

(** A loop that was not left has run its body on every element. *)
Lemma forEachWhile_covered {A S : Type} (I : S -> Prop) (C : A -> S -> Prop)
    (body : A -> S -> S * bool) (l : list A) (st : S) :
  I st ->
  (forall x s, I s -> I (fst (body x s))) ->
  (forall x s, I s -> snd (body x s) = true -> C x (fst (body x s))) ->
  (forall x y s, C x s -> C x (fst (body y s))) ->
  snd (forEachWhile body l st) = true ->
  forall x, x ∈ l -> C x (fst (forEachWhile body l st)).
Proof.
  intros Hst HI Hnew Hmono. revert st Hst.
  induction l as [|y l IH]; intros st Hst Hgo x Hx; [by apply elem_of_nil in Hx|].
  simpl in *.
  pose proof (HI y st Hst) as HI'. pose proof (Hnew y st Hst) as Hnew'.
  destruct (body y st) as [st' go]. simpl in *.
  destruct go; [|discriminate].
  apply elem_of_cons in Hx as [->|Hx]; [|by apply IH].
  apply (forEachWhile_inv (C y)); [by apply Hnew'|].
  intros z s _ Hs. by apply Hmono.
Qed.

(** A loop that was left stopped in a state its body had refused. *)
Lemma forEachWhile_stopped {A S : Type} (R : S -> Prop)
    (body : A -> S -> S * bool) (l : list A) (st : S) :
  (forall x s, snd (body x s) = false -> R (fst (body x s))) ->
  snd (forEachWhile body l st) = false -> R (fst (forEachWhile body l st)).
Proof.
  intros HR. revert st. induction l as [|y l IH]; intros st; simpl; [discriminate|].
  pose proof (HR y st) as Hy.
  destruct (body y st) as [st' go]. simpl in Hy.
  destruct go; [apply IH|]. simpl. intros _. by apply Hy.
Qed.

Lemma tryAdd_label_kept maxVariants mutated subs st l :
  l ∈ map label (variants st) ->
  l ∈ map label (variants (fst (tryAdd maxVariants mutated subs st))).
Proof.
  intros Hl.
  destruct (tryAdd_variants maxVariants mutated subs st) as [->| ->]; [exact Hl|].
  rewrite map_app. apply elem_of_app. by left.
Qed.

Lemma tryAdd_seen_labels maxVariants mutated subs st :
  (forall l, l ∈ seen st -> l ∈ map label (variants st)) ->
  forall l, l ∈ seen (fst (tryAdd maxVariants mutated subs st)) ->
            l ∈ map label (variants (fst (tryAdd maxVariants mutated subs st))).
Proof.
  intros Hseen l. unfold tryAdd.
  destruct (_ <=? _); [apply Hseen|].
  destruct (bool_decide _); [apply Hseen|]. simpl.
  rewrite map_app. simpl. intros Hl. apply elem_of_app.
  apply elem_of_union in Hl as [Hl|Hl].
  - right. apply elem_of_singleton in Hl. subst l. by left.
  - left. by apply Hseen.
Qed.

Lemma tryAdd_added maxVariants mutated subs st :
  (forall l, l ∈ seen st -> l ∈ map label (variants st)) ->
  snd (tryAdd maxVariants mutated subs st) = true ->
  concat mutated ∈ map label (variants (fst (tryAdd maxVariants mutated subs st))).
Proof.
  intros Hseen. unfold tryAdd.
  destruct (_ <=? _); [discriminate|].
  destruct (bool_decide (concat mutated ∈ seen st)) eqn:E; simpl; intros _.
  - apply bool_decide_eq_true in E. by apply Hseen.
  - rewrite map_app. apply elem_of_app. right. by left.
Qed.

Lemma tryAdd_refused maxVariants mutated subs st :
  snd (tryAdd maxVariants mutated subs st) = false ->
  maxVariants <= Z.of_nat (length (variants (fst (tryAdd maxVariants mutated subs st)))).
Proof.
  unfold tryAdd. destruct (_ <=? _) eqn:E; [intros _; simpl; lia|].
  destruct (bool_decide _); discriminate.
Qed.

(** A pass that was not left has every one of its candidates among the
    labels, and a pass that was left has filled the cap. *)
Lemma candidates_pass maxVariants
    (cands : list (list jsstring * list Substitution)) (st : GenState) :
  (forall l, l ∈ seen st -> l ∈ map label (variants st)) ->
  let pass := forEachWhile (fun c s => tryAdd maxVariants (fst c) (snd c) s) cands st in
  (forall l, l ∈ seen (fst pass) -> l ∈ map label (variants (fst pass))) /\
  (forall l, l ∈ map label (variants st) -> l ∈ map label (variants (fst pass))) /\
  (snd pass = true ->
   forall c, c ∈ cands -> concat (fst c) ∈ map label (variants (fst pass))) /\
  (snd pass = false -> maxVariants <= Z.of_nat (length (variants (fst pass)))).
Proof.
  intros Hseen pass. split; [|split; [|split]].
  - apply (forEachWhile_inv
             (fun s => forall l, l ∈ seen s -> l ∈ map label (variants s)));
      [exact Hseen|].
    intros c s _ Hs. by apply tryAdd_seen_labels.
  - intros l Hl.
    apply (forEachWhile_inv (fun s => l ∈ map label (variants s))); [exact Hl|].
    intros c s _ Hs. by apply tryAdd_label_kept.
  - apply (forEachWhile_covered
             (fun s => forall l, l ∈ seen s -> l ∈ map label (variants s))
             (fun c s => concat (fst c) ∈ map label (variants s)));
      [exact Hseen| | |].
    + intros c s Hs. by apply tryAdd_seen_labels.
    + intros c s Hs. by apply tryAdd_added.
    + intros c c' s Hs. by apply tryAdd_label_kept.
  - apply (forEachWhile_stopped
             (fun s => maxVariants <= Z.of_nat (length (variants s)))).
    intros c s. apply tryAdd_refused.
Qed.

Lemma oneEditCandidates_elem_of buckets maxPerChar chars i proto subs sub :
  chars !! i = Some proto ->
  alookup proto buckets = Some subs ->
  sub ∈ slice0 maxPerChar subs ->
  (<[i := cs_char sub]> chars, [makeSubstitution i proto sub])
    ∈ oneEditCandidates buckets maxPerChar chars.
Proof.
  intros Hi Hb Hsub. unfold oneEditCandidates.
  assert (Hlt : (i < length chars)%nat) by (by eapply lookup_lt_Some).
  assert (Hc : charAt chars i = proto).
  { pose proof (charAt_lookup chars i Hlt). congruence. }
  apply list_elem_of_In, in_flat_map. exists i. split.
  - apply in_seq. lia.
  - rewrite Hc, Hb. apply in_map_iff. exists sub. split; [reflexivity|].
    by apply list_elem_of_In.
Qed.

Lemma twoEditCandidates_elem_of buckets maxPerChar chars
    i j protoI protoJ subsI subsJ subI subJ :
  (i < j)%nat ->
  chars !! i = Some protoI -> chars !! j = Some protoJ ->
  alookup protoI buckets = Some subsI -> alookup protoJ buckets = Some subsJ ->
  subI ∈ slice0 (Z.min maxPerChar 5) subsI ->
  subJ ∈ slice0 (Z.min maxPerChar 5) subsJ ->
  (<[j := cs_char subJ]> (<[i := cs_char subI]> chars),
   [makeSubstitution i protoI subI; makeSubstitution j protoJ subJ])
    ∈ twoEditCandidates buckets maxPerChar chars.
Proof.
  intros Hij Hi Hj HbI HbJ HsubI HsubJ. unfold twoEditCandidates.
  assert (HltI : (i < length chars)%nat) by (by eapply lookup_lt_Some).
  assert (HltJ : (j < length chars)%nat) by (by eapply lookup_lt_Some).
  assert (HcI : charAt chars i = protoI).
  { pose proof (charAt_lookup chars i HltI). congruence. }
  assert (HcJ : charAt chars j = protoJ).
  { pose proof (charAt_lookup chars j HltJ). congruence. }
  apply list_elem_of_In, in_flat_map. exists i. split; [apply in_seq; lia|].
  rewrite HcI, HbI. apply in_flat_map. exists j. split; [apply in_seq; lia|].
  rewrite HcJ, HbJ. apply in_flat_map. exists subI.
  split; [by apply list_elem_of_In|].
  apply in_map_iff. exists subJ. split; [reflexivity|]. by apply list_elem_of_In.
Qed.

(** Completeness below the cap: when [generateVariants] returns fewer than
    [maxVariants] variants, the label of every 1-edit candidate (each position,
    each of the first [maxPerChar] entries of its bucket) is among them, and
    when [maxEdits] is at least 2 so is the label of every 2-edit candidate
    (each pair of positions, the first [min(maxPerChar, 5)] entries of each
    bucket). *)
Theorem generateVariants_complete (input : jsstring) (options : GenerateOptions)
    (buckets : option PrototypeBuckets) :
  let chars := spread (toLowerCase input) in
  let maxPerChar := default 10 (go_maxPerChar options) in
  let used := bucketsUsed options buckets in
  let labels := map label (generateVariants input options buckets) in
  Z.of_nat (length (generateVariants input options buckets))
    < default 5000 (go_maxVariants options) ->
  (forall i proto subs sub,
     chars !! i = Some proto -> alookup proto used = Some subs ->
     sub ∈ slice0 maxPerChar subs ->
     concat (<[i := cs_char sub]> chars) ∈ labels) /\
  (2 <= default 2 (go_maxEdits options) ->
   forall i j protoI protoJ subsI subsJ subI subJ,
     (i < j)%nat ->
     chars !! i = Some protoI -> chars !! j = Some protoJ ->
     alookup protoI used = Some subsI -> alookup protoJ used = Some subsJ ->
     subI ∈ slice0 (Z.min maxPerChar 5) subsI ->
     subJ ∈ slice0 (Z.min maxPerChar 5) subsJ ->
     concat (<[j := cs_char subJ]> (<[i := cs_char subI]> chars)) ∈ labels).
Proof.
  intros chars maxPerChar used labels. subst labels.
  unfold generateVariants.
  fold (bucketsUsed options buckets). fold used. fold chars. fold maxPerChar.
  set (maxVariants := default 5000 (go_maxVariants options)).
  set (key := scoreKeyOf (default false (go_useMaxDanger options))).
  set (st0 := {| seen := ∅; variants := [] |}).
  assert (Hfin : forall vs l, l ∈ map label vs -> l ∈ map label (finalize vs key)).
  { intros vs l Hl. unfold finalize.
    by rewrite (Permutation_map label (jsSort_Permutation _ vs)). }
  assert (Hlen : forall vs, length (finalize vs key) = length vs).
  { intros vs. apply jsSort_length. }
  rewrite oneEditPass_candidates.
  destruct (candidates_pass maxVariants (oneEditCandidates used maxPerChar chars) st0)
    as (Hseen1 & _ & Hcov1 & Hstop1).
  { intros l Hl. by apply elem_of_empty in Hl. }
  destruct (forEachWhile _ (oneEditCandidates used maxPerChar chars) st0)
    as [st1 go1]. simpl in *.
  destruct go1; simpl.
  2:{ rewrite Hlen. intros Hlt. specialize (Hstop1 eq_refl). lia. }
  destruct (2 <=? default 2 (go_maxEdits options)) eqn:E2.
  - rewrite twoEditPass_candidates.
    destruct (candidates_pass maxVariants (twoEditCandidates used maxPerChar chars) st1
                Hseen1) as (_ & Hmono2 & Hcov2 & Hstop2).
    destruct (forEachWhile _ (twoEditCandidates used maxPerChar chars) st1)
      as [st2 go2]. simpl in *.
    rewrite Hlen. intros Hlt.
    destruct go2; [|specialize (Hstop2 eq_refl); lia].
    split.
    + intros i proto subs sub Hi Hb Hsub. apply Hfin, Hmono2.
      apply (Hcov1 eq_refl (<[i := cs_char sub]> chars, [makeSubstitution i proto sub])).
      by eapply oneEditCandidates_elem_of.
    + intros _ i j protoI protoJ subsI subsJ subI subJ Hij Hi Hj HbI HbJ HsubI HsubJ.
      apply Hfin.
      apply (Hcov2 eq_refl
               (<[j := cs_char subJ]> (<[i := cs_char subI]> chars),
                [makeSubstitution i protoI subI; makeSubstitution j protoJ subJ])).
      by eapply twoEditCandidates_elem_of.
  - intros _. split.
    + intros i proto subs sub Hi Hb Hsub. apply Hfin.
      apply (Hcov1 eq_refl (<[i := cs_char sub]> chars, [makeSubstitution i proto sub])).
      by eapply oneEditCandidates_elem_of.
    + apply Z.leb_gt in E2. lia.
Qed.

(** ** Further properties of the buckets *)

Lemma accepted_dec inc from sub p : accepted inc from sub p \/ ~ accepted inc from sub p.
Proof.
  unfold accepted. destruct (decide (from = sub)) as [->|Hne]; [right; by intros [? _]|].
  destruct (inc || p) eqn:E; [by left|right]. intros [_ H]. congruence.
Qed.

Lemma rawForall_addEdge (P : jsstring -> jsstring -> ConfusableSubstitute -> Prop)
    inc raw from sub d sd p :
  rawForall P raw ->
  (accepted inc from sub p -> P from sub (entryAfter (lookupEntry raw from sub) sub d sd p)) ->
  rawForall P (addEdge inc raw from sub d sd p).
Proof.
  intros Hraw Hnew x y e.
  destruct (accepted_dec inc from sub p) as [Hacc|Hna].
  - rewrite addEdge_accepted by exact Hacc.
    destruct (decide (x = from /\ y = sub)) as [[-> ->]|_]; [|apply Hraw].
    intros [= <-]. by apply Hnew.
  - rewrite addEdge_skipped by exact Hna. apply Hraw.
Qed.

(** A property of the entries that every accepted edge establishes or keeps
    holds of the whole raw graph. *)
Lemma rawForall_buildRaw (P : jsstring -> jsstring -> ConfusableSubstitute -> Prop) inc :
  (forall raw from sub d sd p,
     rawForall P raw -> accepted inc from sub p ->
     P from sub (entryAfter (lookupEntry raw from sub) sub d sd p)) ->
  rawForall P (buildRaw inc).
Proof.
  intros Hnew. unfold buildRaw.
  assert (Hedge : forall raw from sub d sd p,
            rawForall P raw -> rawForall P (addEdge inc raw from sub d sd p)).
  { intros raw from sub d sd p Hraw. apply rawForall_addEdge; [exact Hraw|].
    by apply Hnew. }
  assert (H1 : forall entries raw, rawForall P raw ->
            rawForall P (fold_left (addMapEntry inc) entries raw)).
  { induction entries as [|[c proto] entries IH]; intros raw Hraw; simpl; [exact Hraw|].
    apply IH. destruct (decide (c = proto)); [exact Hraw|]. by do 2 apply Hedge. }
  assert (H2 : forall keyA targets raw, rawForall P raw ->
            rawForall P (fold_left (addWeightPair inc keyA) targets raw)).
  { intros keyA. induction targets as [|[keyB w] targets IH]; intros raw Hraw; simpl;
      [exact Hraw|].
    apply IH. by do 2 apply Hedge. }
  assert (H3 : forall rows raw, rawForall P raw ->
            rawForall P (fold_left (addWeightRow inc) rows raw)).
  { induction rows as [|row rows IH]; intros raw Hraw; simpl; [exact Hraw|].
    apply IH. by apply H2. }
  apply H3, H1. intros from sub e. unfold lookupEntry. simpl. discriminate.
Qed.

(** An entry of a finished bucket is the entry the raw graph files under
    its character. *)
Lemma buckets_entry options proto subs e :
  (proto, subs) ∈ buildPrototypeBuckets options ->
  e ∈ subs ->
  lookupEntry (buildRaw (default false (bo_includeNonPvalid options))) proto (cs_char e)
  = Some e.
Proof.
  intros Hin He. apply buckets_elem_of in Hin as (bucket & Hb & ->).
  apply slice0_elem_of, jsSort_elem_of in He.
  apply list_elem_of_fmap in He as ([k e'] & -> & He). simpl.
  destruct (rawWf_buildRaw (default false (bo_includeNonPvalid options))) as [Hnd Hwf].
  destruct (Hwf _ _ Hb) as [Hndb Hchars].
  destruct (Hchars _ _ He) as [-> _].
  unfold lookupEntry. rewrite (elem_of_alookup _ _ _ Hnd Hb).
  by apply elem_of_alookup.
Qed.

(** The PVALID filter: unless [includeNonPvalid] is set, every substitute
    in every bucket is marked IDNA PVALID. *)
Theorem buckets_pvalid_only (options : BuildOptions) (proto : jsstring)
    (subs : list ConfusableSubstitute) (e : ConfusableSubstitute) :
  default false (bo_includeNonPvalid options) = false ->
  (proto, subs) ∈ buildPrototypeBuckets options ->
  e ∈ subs ->
  cs_idnaPvalid e = true.
Proof.
  intros Hinc Hin He.
  pose proof (buckets_entry options proto subs e Hin He) as Hlook.
  rewrite Hinc in Hlook. revert Hlook.
  apply (rawForall_buildRaw (fun _ _ e => cs_idnaPvalid e = true) false).
  intros raw from sub d sd p Hraw [_ Hp]. simpl in Hp. subst p.
  unfold entryAfter.
  destruct (lookupEntry raw from sub) as [e0|] eqn:E0; [|reflexivity].
  destruct (Qltb _ _); simpl; [apply orb_true_r|]. by eapply Hraw.
Qed.

(** The buckets are well formed: one bucket per anchor, one entry per
    substitute character, no character listed under itself, and in every
    entry the code point label and the script are those of its character. *)
Theorem buckets_wellformed (options : BuildOptions) :
  NoDup (map fst (buildPrototypeBuckets options)) /\
  forall proto subs,
    (proto, subs) ∈ buildPrototypeBuckets options ->
    NoDup (map cs_char subs) /\
    Forall (fun e => cs_char e <> proto /\
                     cs_codepoint e = toCodepoint (cs_char e) /\
                     cs_script e = getScript (cs_char e)) subs.
Proof.
  set (inc := default false (bo_includeNonPvalid options)).
  destruct (rawWf_buildRaw inc) as [Hnd Hwf]. split.
  - unfold buildPrototypeBuckets. fold inc.
    rewrite map_map. simpl. exact Hnd.
  - intros proto subs Hin. split.
    + apply buckets_elem_of in Hin as (bucket & Hb & ->). fold inc in Hb.
      destruct (Hwf _ _ Hb) as [Hndb Hchars].
      assert (Hkeys : map cs_char (map snd bucket) = map fst bucket).
      { rewrite map_map. apply map_ext_in. intros [k e0] Hk. simpl.
        apply list_elem_of_In in Hk. by destruct (Hchars _ _ Hk). }
      destruct (slice0_prefix (default 50 (bo_maxPerChar options))
                  (jsSort (fun a b =>
                     (csScore (scoreKeyOf (default false (bo_useMaxDanger options))) b
                      - csScore (scoreKeyOf (default false (bo_useMaxDanger options))) a)%Q)
                     (map snd bucket))) as [rest Hrest].
      assert (Hall : NoDup (map cs_char (jsSort (fun a b =>
                     (csScore (scoreKeyOf (default false (bo_useMaxDanger options))) b
                      - csScore (scoreKeyOf (default false (bo_useMaxDanger options))) a)%Q)
                     (map snd bucket)))).
      { rewrite (Permutation_map cs_char (jsSort_Permutation _ (map snd bucket))).
        by rewrite Hkeys. }
      rewrite Hrest, map_app in Hall. by apply NoDup_app in Hall as [? _].
    + apply Forall_forall. intros e He.
      pose proof (buckets_entry options proto subs e Hin He) as Hlook. fold inc in Hlook.
      revert Hlook.
      apply (rawForall_buildRaw
               (fun from _ e => cs_char e <> from /\
                                cs_codepoint e = toCodepoint (cs_char e) /\
                                cs_script e = getScript (cs_char e)) inc).
      intros raw from sub d sd p Hraw [Hne _]. unfold entryAfter.
      destruct (lookupEntry raw from sub) as [e0|] eqn:E0.
      * destruct (Qltb _ _); simpl; by eapply Hraw.
      * simpl. split; [congruence|by split].
Qed.

Lemma rawEdgeAtLeast_kept inc raw from sub d sd p x y s :
  rawEdgeAtLeast raw x y s ->
  rawEdgeAtLeast (addEdge inc raw from sub d sd p) x y s.
Proof.
  intros (e & He & Hle). unfold rawEdgeAtLeast.
  destruct (accepted_dec inc from sub p) as [Hacc|Hna].
  - rewrite addEdge_accepted by exact Hacc.
    destruct (decide (x = from /\ y = sub)) as [[-> ->]|_]; [|by exists e].
    rewrite He. simpl. destruct (Qltb (cs_stableDanger e) sd) eqn:E.
    + eexists. split; [reflexivity|]. simpl.
      apply Qltb_lt in E. exact (Qle_trans _ _ _ Hle (Qlt_le_weak _ _ E)).
    + by exists e.
  - rewrite addEdge_skipped by exact Hna. by exists e.
Qed.

Lemma rawEdgeAtLeast_new inc raw from sub d sd p :
  accepted inc from sub p ->
  rawEdgeAtLeast (addEdge inc raw from sub d sd p) from sub sd.
Proof.
  intros Hacc. unfold rawEdgeAtLeast.
  rewrite addEdge_accepted by exact Hacc.
  rewrite decide_True by done.
  eexists. split; [reflexivity|]. unfold entryAfter.
  destruct (lookupEntry raw from sub) as [e|]; [|simpl; apply Qle_refl].
  destruct (Qltb (cs_stableDanger e) sd) eqn:E; [simpl; apply Qle_refl|].
  by apply Qltb_ge in E.
Qed.

Lemma rawEdgeAtLeast_addMapEntry inc raw entry x y s :
  rawEdgeAtLeast raw x y s -> rawEdgeAtLeast (addMapEntry inc raw entry) x y s.
Proof.
  intros H. destruct entry as [c proto]. unfold addMapEntry.
  destruct (decide (c = proto)); [exact H|]. by do 2 apply rawEdgeAtLeast_kept.
Qed.

Lemma rawEdgeAtLeast_addWeightPairs inc keyA targets raw x y s :
  rawEdgeAtLeast raw x y s ->
  rawEdgeAtLeast (fold_left (addWeightPair inc keyA) targets raw) x y s.
Proof.
  revert raw. induction targets as [|[keyB w] targets IH]; intros raw H; simpl; [exact H|].
  apply IH. by do 2 apply rawEdgeAtLeast_kept.
Qed.

Lemma rawEdgeAtLeast_addMapEntries inc entries raw x y s :
  rawEdgeAtLeast raw x y s ->
  rawEdgeAtLeast (fold_left (addMapEntry inc) entries raw) x y s.
Proof.
  revert raw. induction entries as [|entry entries IH]; intros raw H; simpl; [exact H|].
  by apply IH, rawEdgeAtLeast_addMapEntry.
Qed.

Lemma rawEdgeAtLeast_addWeightRows inc rows raw x y s :
  rawEdgeAtLeast raw x y s ->
  rawEdgeAtLeast (fold_left (addWeightRow inc) rows raw) x y s.
Proof.
  revert raw. induction rows as [|row rows IH]; intros raw H; simpl; [exact H|].
  by apply IH, rawEdgeAtLeast_addWeightPairs.
Qed.

(** Each TR39 mapping leaves an edge in both directions. *)
Lemma buildRaw_map_pair inc c proto :
  (c, proto) ∈ CONFUSABLE_MAP_FULL -> c <> proto ->
  inc || weightIdnaPvalid (lookupWeight CONFUSABLE_WEIGHTS c proto) = true ->
  rawEdgeAtLeast (buildRaw inc) proto c
    (weightStableDanger (lookupWeight CONFUSABLE_WEIGHTS c proto)) /\
  rawEdgeAtLeast (buildRaw inc) c proto
    (weightStableDanger (lookupWeight CONFUSABLE_WEIGHTS c proto)).
Proof.
  intros Hin Hne Hok. unfold buildRaw.
  apply list_elem_of_split in Hin as (l1 & l2 & ->).
  rewrite fold_left_app. simpl.
  set (raw1 := fold_left (addMapEntry inc) l1 []).
  assert (Hstep :
    rawEdgeAtLeast (addMapEntry inc raw1 (c, proto)) proto c
      (weightStableDanger (lookupWeight CONFUSABLE_WEIGHTS c proto)) /\
    rawEdgeAtLeast (addMapEntry inc raw1 (c, proto)) c proto
      (weightStableDanger (lookupWeight CONFUSABLE_WEIGHTS c proto))).
  { unfold addMapEntry. rewrite decide_False by exact Hne. split.
    - apply rawEdgeAtLeast_kept, rawEdgeAtLeast_new. by split.
    - apply rawEdgeAtLeast_new. by split. }
  destruct Hstep as [H1 H2].
  split; by apply rawEdgeAtLeast_addWeightRows, rawEdgeAtLeast_addMapEntries.
Qed.

(** Each scored pair leaves an edge from either lower-cased key to the
    other key. *)
Lemma buildRaw_weight_pair inc keyA targets keyB w :
  (keyA, targets) ∈ CONFUSABLE_WEIGHTS -> (keyB, w) ∈ targets ->
  inc || default false (w_idnaPvalid w) = true ->
  (toLowerCase keyA <> keyB ->
   rawEdgeAtLeast (buildRaw inc) (toLowerCase keyA) keyB (w_stableDanger w)) /\
  (toLowerCase keyB <> keyA ->
   rawEdgeAtLeast (buildRaw inc) (toLowerCase keyB) keyA (w_stableDanger w)).
Proof.
  intros Hrow Hpair Hok. unfold buildRaw.
  apply list_elem_of_split in Hrow as (r1 & r2 & ->).
  apply list_elem_of_split in Hpair as (t1 & t2 & ->).
  rewrite fold_left_app. simpl.
  set (raw1 := fold_left (addWeightRow inc) r1 _).
  unfold addWeightRow at 2 4. simpl. rewrite fold_left_app. simpl.
  set (raw2 := fold_left (addWeightPair inc keyA) t1 raw1).
  split; intros Hne;
    apply rawEdgeAtLeast_addWeightRows, rawEdgeAtLeast_addWeightPairs.
  - apply rawEdgeAtLeast_kept, rawEdgeAtLeast_new. by split.
  - apply rawEdgeAtLeast_new. by split.
Qed.

Lemma StronglySorted_app_elem {A : Type} (R : A -> A -> Prop) (l1 l2 : list A) (a b : A) :
  StronglySorted R (l1 ++ l2) -> a ∈ l1 -> b ∈ l2 -> R a b.
Proof.
  induction l1 as [|x l1 IH]; intros Hs Ha Hb; [by apply elem_of_nil in Ha|].
  simpl in Hs. apply StronglySorted_inv in Hs as [Hs Hall].
  apply elem_of_cons in Ha as [->|Ha]; [|by apply IH].
  rewrite Forall_forall in Hall. apply Hall. apply elem_of_app. by right.
Qed.

(** The cap drops the weakest entries only: an edge of the raw graph is
    listed in the finished bucket, or the bucket is full of entries that
    rank at least as high. *)
Lemma raw_listedOrOutranked options x y sd :
  0 <= default 50 (bo_maxPerChar options) ->
  rawEdgeAtLeast (buildRaw (default false (bo_includeNonPvalid options))) x y sd ->
  listedOrOutranked options (buildPrototypeBuckets options) x y sd.
Proof.
  intros Hk (e & He & Hle). unfold listedOrOutranked.
  set (inc := default false (bo_includeNonPvalid options)) in *.
  set (key := scoreKeyOf (default false (bo_useMaxDanger options))).
  rewrite buckets_lookup. fold inc. fold key.
  unfold lookupEntry in He.
  destruct (alookup x (buildRaw inc)) as [bucket|] eqn:Eb; [|discriminate].
  simpl. eexists. split; [reflexivity|].
  set (sorted := jsSort (fun a b => (csScore key b - csScore key a)%Q) (map snd bucket)).
  assert (Hsorted : StronglySorted (byKeyDesc (csScore key)) sorted).
  { apply (jsSort_sorted (csScore key)). }
  assert (Hchar : cs_char e = y).
  { destruct (rawWf_buildRaw inc) as [_ Hwf].
    apply alookup_elem_of in Eb, He.
    destruct (Hwf _ _ Eb) as [_ Hchars]. by destruct (Hchars _ _ He). }
  assert (Hin : e ∈ sorted).
  { apply jsSort_elem_of. apply alookup_elem_of in He.
    apply list_elem_of_fmap. by exists (y, e). }
  unfold slice0. rewrite (proj2 (Z.ltb_ge _ _) Hk).
  set (n := Z.to_nat (default 50 (bo_maxPerChar options))).
  rewrite <- (take_drop n sorted) in Hin, Hsorted.
  apply elem_of_app in Hin as [Hin|Hin].
  - left. by exists e.
  - right.
    assert (Hlen : (n < length sorted)%nat).
    { destruct (decide (n < length sorted)%nat) as [|Hge]; [done|].
      rewrite drop_ge in Hin by lia. by apply elem_of_nil in Hin. }
    split.
    + rewrite length_take. unfold n in *. lia.
    + intros Hmax. apply Forall_forall. intros e' He'.
      pose proof (StronglySorted_app_elem _ _ _ _ _ Hsorted He' Hin) as Hdesc.
      unfold byKeyDesc, key in Hdesc. rewrite Hmax in Hdesc. simpl in Hdesc.
      exact (Qle_trans _ _ _ Hle Hdesc).
Qed.

(** Every TR39 mapping is served in both directions: when the pair passes
    the PVALID filter and [maxPerChar] is not negative, the bucket of the
    prototype lists the confusable character, and the bucket of the
    confusable character lists the prototype, each with a [stableDanger] of
    at least that of the pair, unless the bucket is full of entries that
    rank at least as high. *)
Theorem buckets_cover_map (options : BuildOptions) (c proto : jsstring) :
  let w := lookupWeight CONFUSABLE_WEIGHTS c proto in
  (c, proto) ∈ CONFUSABLE_MAP_FULL -> c <> proto ->
  default false (bo_includeNonPvalid options) || weightIdnaPvalid w = true ->
  0 <= default 50 (bo_maxPerChar options) ->
  listedOrOutranked options (buildPrototypeBuckets options) proto c (weightStableDanger w) /\
  listedOrOutranked options (buildPrototypeBuckets options) c proto (weightStableDanger w).
Proof.
  intros w Hin Hne Hok Hk.
  destruct (buildRaw_map_pair _ c proto Hin Hne Hok) as [H1 H2].
  split; by apply raw_listedOrOutranked.
Qed.

(** Every scored pair is served from either key: when the pair passes the
    PVALID filter and [maxPerChar] is not negative, the bucket of the
    lower-cased first key lists the second key, and the bucket of the
    lower-cased second key lists the first, each with a [stableDanger] of at
    least that of the pair (the higher score is kept), unless the bucket is
    full of entries that rank at least as high. *)
Theorem buckets_cover_weights (options : BuildOptions) (keyA keyB : jsstring)
    (targets : list (jsstring * ConfusableWeight)) (w : ConfusableWeight) :
  (keyA, targets) ∈ CONFUSABLE_WEIGHTS -> (keyB, w) ∈ targets ->
  default false (bo_includeNonPvalid options) || default false (w_idnaPvalid w) = true ->
  0 <= default 50 (bo_maxPerChar options) ->
  (toLowerCase keyA <> keyB ->
   listedOrOutranked options (buildPrototypeBuckets options)
     (toLowerCase keyA) keyB (w_stableDanger w)) /\
  (toLowerCase keyB <> keyA ->
   listedOrOutranked options (buildPrototypeBuckets options)
     (toLowerCase keyB) keyA (w_stableDanger w)).
Proof.
  intros Hrow Hpair Hok Hk.
  destruct (buildRaw_weight_pair _ keyA targets keyB w Hrow Hpair Hok) as [H1 H2].
  split; intros Hne; apply raw_listedOrOutranked; auto.
Qed.

(** ** Target TLDs *)

Lemma setAdd_elem_of (x y : jsstring) (s : list jsstring) :
  y ∈ setAdd x s <-> y = x \/ y ∈ s.
Proof.
  unfold setAdd. destruct (bool_decide (x ∈ s)) eqn:E.
  - apply bool_decide_eq_true in E. split; [by right|]. by intros [->|?].
  - rewrite elem_of_app, list_elem_of_singleton. split; intros [H|H]; auto.
Qed.

Lemma setAdd_NoDup (x : jsstring) (s : list jsstring) : NoDup s -> NoDup (setAdd x s).
Proof.
  intros Hnd. unfold setAdd. destruct (bool_decide (x ∈ s)) eqn:E; [exact Hnd|].
  apply bool_decide_eq_false in E.
  apply NoDup_app. split; [exact Hnd|]. split; [|apply NoDup_singleton].
  intros y Hy Hy'. apply list_elem_of_singleton in Hy'. by subst y.
Qed.

Lemma setAdd_prefix (x : jsstring) (s : list jsstring) : s `prefix_of` setAdd x s.
Proof.
  unfold setAdd. destruct (bool_decide (x ∈ s)); [reflexivity|]. by exists [x].
Qed.

Lemma setAdd_all_elem_of (l s : list jsstring) (y : jsstring) :
  y ∈ fold_left (fun s x => setAdd x s) l s <-> y ∈ l \/ y ∈ s.
Proof.
  revert s. induction l as [|x l IH]; intros s; simpl.
  - split; [by right|]. intros [H|H]; [by apply elem_of_nil in H|exact H].
  - rewrite IH, setAdd_elem_of, elem_of_cons. split.
    + intros [H|[H|H]]; auto.
    + intros [[H|H]|H]; auto.
Qed.

Lemma setAdd_all_NoDup (l s : list jsstring) :
  NoDup s -> NoDup (fold_left (fun s x => setAdd x s) l s).
Proof.
  revert s. induction l as [|x l IH]; intros s Hnd; simpl; [exact Hnd|].
  by apply IH, setAdd_NoDup.
Qed.

Lemma setAdd_all_prefix (l s : list jsstring) :
  s `prefix_of` fold_left (fun s x => setAdd x s) l s.
Proof.
  revert s. induction l as [|x l IH]; intros s; simpl; [reflexivity|].
  etransitivity; [apply setAdd_prefix|apply IH].
Qed.

(** The loop of [getTargetTlds] over the scripts. *)
Lemma scriptTlds_spec (table : list (jsstring * list jsstring))
    (scripts : list jsstring) (tlds : list jsstring) :
  let result :=
    fold_left
      (fun tlds script =>
         match alookup script table with
         | Some idnTlds => fold_left (fun tlds t => setAdd t tlds) idnTlds tlds
         | None => tlds
         end) scripts tlds in
  (NoDup tlds -> NoDup result) /\
  tlds `prefix_of` result /\
  forall t, t ∈ result <->
            t ∈ tlds \/
            exists script idnTlds,
              script ∈ scripts /\ alookup script table = Some idnTlds /\ t ∈ idnTlds.
Proof.
  cbv zeta. revert tlds. induction scripts as [|script scripts IH]; intros tlds; simpl.
  - split; [done|]. split; [reflexivity|]. intros t. split; [by left|].
    intros [H|(s & i & H & _)]; [exact H|by apply elem_of_nil in H].
  - destruct (alookup script table) as [idnTlds|] eqn:E.
    + destruct (IH (fold_left (fun tlds t => setAdd t tlds) idnTlds tlds))
        as (Hnd & Hpre & Hel).
      split; [|split].
      * intros H. by apply Hnd, setAdd_all_NoDup.
      * etransitivity; [apply setAdd_all_prefix|exact Hpre].
      * intros t. rewrite Hel, setAdd_all_elem_of. split.
        -- intros [[H|H]|(s & i & Hs & Hi & Ht)].
           ++ right. exists script, idnTlds. split; [left|by split].
           ++ by left.
           ++ right. exists s, i. split; [by right|by split].
        -- intros [H|(s & i & Hs & Hi & Ht)]; [left; by right|].
           apply elem_of_cons in Hs as [->|Hs].
           ++ left. left. congruence.
           ++ right. by exists s, i.
    + destruct (IH tlds) as (Hnd & Hpre & Hel).
      split; [exact Hnd|]. split; [exact Hpre|].
      intros t. rewrite Hel. split.
      * intros [H|(s & i & Hs & Hi & Ht)]; [by left|].
        right. exists s, i. split; [by right|by split].
      * intros [H|(s & i & Hs & Hi & Ht)]; [by left|].
        apply elem_of_cons in Hs as [->|Hs]; [congruence|].
        right. by exists s, i.
Qed.

(** The loop of [getTargetTlds] over the snapshot of the TLDs. *)
Lemma variantTlds_spec (snapshot acc : list jsstring) :
  let result :=
    fold_left
      (fun acc tld =>
         fold_left (fun acc v => setAdd v acc) (generateTldVariants tld None) acc)
      snapshot acc in
  (NoDup acc -> NoDup result) /\
  acc `prefix_of` result /\
  forall t, t ∈ result <->
            t ∈ acc \/ exists tld, tld ∈ snapshot /\ t ∈ generateTldVariants tld None.
Proof.
  cbv zeta. revert acc. induction snapshot as [|tld snapshot IH]; intros acc; simpl.
  - split; [done|]. split; [reflexivity|]. intros t. split; [by left|].
    intros [H|(s & H & _)]; [exact H|by apply elem_of_nil in H].
  - destruct (IH (fold_left (fun acc v => setAdd v acc) (generateTldVariants tld None) acc))
      as (Hnd & Hpre & Hel).
    split; [|split].
    + intros H. by apply Hnd, setAdd_all_NoDup.
    + etransitivity; [apply setAdd_all_prefix|exact Hpre].
    + intros t. rewrite Hel, setAdd_all_elem_of. split.
      * intros [[H|H]|(s & Hs & Ht)].
        -- right. exists tld. split; [left|exact H].
        -- by left.
        -- right. exists s. split; [by right|exact Ht].
      * intros [H|(s & Hs & Ht)]; [left; by right|].
        apply elem_of_cons in Hs as [->|Hs]; [left; by left|].
        right. by exists s.
Qed.

Lemma setOf_spec (l : list jsstring) :
  NoDup (setOf l) /\ forall t, t ∈ setOf l <-> t ∈ l.
Proof.
  unfold setOf. split; [apply setAdd_all_NoDup; constructor|].
  intros t. rewrite setAdd_all_elem_of. split; [|by left].
  intros [H|H]; [exact H|by apply elem_of_nil in H].
Qed.

Lemma setOf_elem_of (l : list jsstring) (t : jsstring) : t ∈ setOf l <-> t ∈ l.
Proof. apply setOf_spec. Qed.

Lemma getTargetTlds_spec (baseTlds : option (list jsstring)) (tldVariants : option bool)
    (scripts : option (list jsstring)) :
  let result := getTargetTlds baseTlds tldVariants scripts in
  NoDup result /\
  setOf (default DEFAULT_TLDS baseTlds) `prefix_of` result /\
  forall t,
    t ∈ result <->
    directTld baseTlds scripts t \/
    (default false tldVariants = true /\
     exists tld, directTld baseTlds scripts tld /\ t ∈ generateTldVariants tld None).
Proof.
  intros result. subst result. unfold getTargetTlds.
  destruct (setOf_spec (default DEFAULT_TLDS baseTlds)) as [Hnd0 Hel0].
  set (tlds0 := setOf (default DEFAULT_TLDS baseTlds)) in *.
  set (tlds1 := match scripts with
                | Some scripts => fold_left _ scripts tlds0
                | None => tlds0
                end).
  assert (H1 : NoDup tlds1 /\ tlds0 `prefix_of` tlds1 /\
               forall t, t ∈ tlds1 <-> directTld baseTlds scripts t).
  { subst tlds1. unfold directTld. destruct scripts as [scripts|]; simpl.
    - destruct (scriptTlds_spec IDN_TLDS scripts tlds0) as (Hnd & Hpre & Hel).
      split; [by apply Hnd|]. split; [exact Hpre|].
      intros t. by rewrite Hel, Hel0.
    - split; [exact Hnd0|]. split; [reflexivity|].
      intros t. rewrite Hel0. split; [by left|].
      intros [H|(s & i & H & _)]; [exact H|by apply elem_of_nil in H]. }
  destruct H1 as (Hnd1 & Hpre1 & Hel1).
  destruct (default false tldVariants).
  - destruct (variantTlds_spec tlds1 tlds1) as (Hnd & Hpre & Hel).
    split; [by apply Hnd|]. split; [by etransitivity|].
    intros t. rewrite Hel, Hel1. split.
    + intros [H|(tld & Htld & Ht)]; [by left|].
      right. split; [reflexivity|]. exists tld. by rewrite <- Hel1.
    + intros [H|[_ (tld & Htld & Ht)]]; [by left|].
      right. exists tld. by rewrite Hel1.
  - split; [exact Hnd1|]. split; [exact Hpre1|].
    intros t. rewrite Hel1. split; [by left|].
    intros [H|[H _]]; [exact H|discriminate].
Qed.

(** For scripts that name no inherited property, the target TLDs are a set
    that starts with the base TLDs in their order: it holds no TLD twice,
    and it holds exactly the base TLDs (the four defaults when none are
    given), the IDN TLDs of the given scripts, and, when [tldVariants] is
    set, the confusable variants of those two kinds; variants of variants
    are not generated. *)
Theorem getTargetTlds_set (baseTlds : option (list jsstring)) (tldVariants : option bool)
    (scripts : option (list jsstring)) :
  Forall (fun script => script ∉ inheritedKeys) (default [] scripts) ->
  let result := getTargetTlds baseTlds tldVariants scripts in
  NoDup result /\
  setOf (default DEFAULT_TLDS baseTlds) `prefix_of` result /\
  forall t,
    t ∈ result <->
    directTld baseTlds scripts t \/
    (default false tldVariants = true /\
     exists tld, directTld baseTlds scripts tld /\ t ∈ generateTldVariants tld None).
Proof. intros _. apply getTargetTlds_spec. Qed.

Lemma fold_left_flat_map {A B S : Type} (f : S -> B -> S) (g : A -> list B)
    (l : list A) (st : S) :
  fold_left f (flat_map g l) st = fold_left (fun s x => fold_left f (g x) s) l st.
Proof.
  revert st. induction l as [|x l IH]; intros st; simpl; [reflexivity|].
  by rewrite fold_left_app, IH.
Qed.

Lemma fold_left_map {A B S : Type} (f : S -> B -> S) (g : A -> B) (l : list A) (st : S) :
  fold_left f (map g l) st = fold_left (fun s x => f s (g x)) l st.
Proof. revert st. induction l as [|x l IH]; intros st; simpl; [reflexivity|apply IH]. Qed.

Lemma fold_left_ext {A S : Type} (f f' : S -> A -> S) (l : list A) (st : S) :
  (forall s x, f s x = f' s x) -> fold_left f l st = fold_left f' l st.
Proof.
  intros H. revert st. induction l as [|x l IH]; intros st; simpl; [reflexivity|].
  by rewrite H, IH.
Qed.

(** Collecting the strings not seen before keeps the first occurrence of
    each. *)
Lemma collectNew_spec (vs : list jsstring) (st : gset jsstring * list jsstring) :
  let st' :=
    fold_left
      (fun (st : gset jsstring * list jsstring) v =>
         if bool_decide (v ∈ fst st) then st else ({[ v ]} ∪ fst st, snd st ++ [v]))
      vs st in
  (forall x, x ∈ fst st <-> x ∈ snd st) ->
  NoDup (snd st) ->
  (forall x, x ∈ fst st' <-> x ∈ snd st') /\
  NoDup (snd st') /\
  (length (snd st') <= length (snd st) + length vs)%nat /\
  forall x, x ∈ snd st' <-> x ∈ snd st \/ x ∈ vs.
Proof.
  cbv zeta. revert st. induction vs as [|v vs IH]; intros st Hseen Hnd; simpl.
  - split; [exact Hseen|]. split; [exact Hnd|]. split; [lia|].
    intros x. split; [by left|]. intros [H|H]; [exact H|by apply elem_of_nil in H].
  - destruct (bool_decide (v ∈ fst st)) eqn:E.
    + apply bool_decide_eq_true in E.
      destruct (IH st Hseen Hnd) as (H1 & H2 & H3 & H4).
      split; [exact H1|]. split; [exact H2|]. split; [lia|].
      intros x. rewrite H4, elem_of_cons. split.
      * intros [H|H]; auto.
      * intros [H|[->|H]]; auto. left. by apply Hseen.
    + apply bool_decide_eq_false in E.
      destruct (IH ({[ v ]} ∪ fst st, snd st ++ [v])) as (H1 & H2 & H3 & H4).
      * intros x. simpl. rewrite elem_of_union, elem_of_singleton, elem_of_app,
          list_elem_of_singleton, Hseen. split; intros [H|H]; auto.
      * simpl. apply NoDup_app. split; [exact Hnd|]. split; [|apply NoDup_singleton].
        intros x Hx Hx'. apply list_elem_of_singleton in Hx'. subst x.
        by apply E, Hseen.
      * split; [exact H1|]. split; [exact H2|]. simpl in H3. rewrite length_app in H3.
        simpl in H3. split; [lia|].
        intros x. rewrite H4. simpl. rewrite elem_of_app, list_elem_of_singleton,
          elem_of_cons. split.
        -- intros [[H|H]|H]; auto.
        -- intros [H|[H|H]]; auto.
Qed.

Lemma generateTldVariants_candidates tld buckets :
  generateTldVariants tld buckets =
  snd (fold_left
         (fun (st : gset jsstring * list jsstring) v =>
            if bool_decide (v ∈ fst st) then st else ({[ v ]} ∪ fst st, snd st ++ [v]))
         (tldCandidates (tldBucketsUsed buckets) (spread (toLowerCase tld))) (∅, [])).
Proof.
  unfold generateTldVariants, tldCandidates. fold (tldBucketsUsed buckets).
  f_equal. rewrite fold_left_flat_map. apply fold_left_ext. intros st i.
  destruct (alookup _ _) as [subs|]; [|reflexivity].
  by rewrite fold_left_map.
Qed.

Lemma tldCandidates_length buckets chars :
  (length (tldCandidates buckets chars) <= 5 * length chars)%nat.
Proof.
  unfold tldCandidates.
  assert (H : forall positions : list nat,
            (length (flat_map
               (fun i =>
                  match alookup (charAt chars i) buckets with
                  | None => []
                  | Some subs =>
                      map (fun sub => concat (<[i := cs_char sub]> chars)) (slice0 5 subs)
                  end) positions) <= 5 * length positions)%nat).
  { induction positions as [|i positions IH]; simpl; [lia|].
    rewrite length_app.
    destruct (alookup (charAt chars i) buckets) as [subs|]; simpl; [|lia].
    rewrite length_map.
    pose proof (slice0_length 5 subs ltac:(lia)). lia. }
  specialize (H (seq 0 (length chars))). by rewrite length_seq in H.
Qed.

Lemma tldCandidates_elem_of buckets chars t :
  t ∈ tldCandidates buckets chars <->
  exists i proto subs sub,
    chars !! i = Some proto /\ alookup proto buckets = Some subs /\
    sub ∈ slice0 5 subs /\ t = concat (<[i := cs_char sub]> chars).
Proof.
  unfold tldCandidates. rewrite list_elem_of_In, in_flat_map. split.
  - intros (i & Hi & Ht). apply in_seq in Hi.
    destruct (alookup (charAt chars i) buckets) as [subs|] eqn:Eb; [|destruct Ht].
    apply in_map_iff in Ht as (sub & <- & Hsub).
    exists i, (charAt chars i), subs, sub.
    split; [apply charAt_lookup; lia|]. split; [exact Eb|].
    split; [by apply list_elem_of_In|reflexivity].
  - intros (i & proto & subs & sub & Hi & Hb & Hsub & ->).
    assert (Hlt : (i < length chars)%nat) by (by eapply lookup_lt_Some).
    assert (Hc : charAt chars i = proto).
    { pose proof (charAt_lookup chars i Hlt). congruence. }
    exists i. split; [apply in_seq; lia|].
    rewrite Hc, Hb. apply in_map_iff. exists sub. split; [reflexivity|].
    by apply list_elem_of_In.
Qed.

(** The confusable TLDs: [generateTldVariants] returns, without
    repetition, exactly the strings that replace one character of the
    lower-cased TLD by one of the first five entries of its bucket; there
    are at most five per character. *)
Theorem generateTldVariants_edits (tld : jsstring) (buckets : option PrototypeBuckets) :
  let chars := spread (toLowerCase tld) in
  let result := generateTldVariants tld buckets in
  NoDup result /\
  (length result <= 5 * length chars)%nat /\
  forall t,
    t ∈ result <->
    exists i proto subs sub,
      chars !! i = Some proto /\ alookup proto (tldBucketsUsed buckets) = Some subs /\
      sub ∈ slice0 5 subs /\ t = concat (<[i := cs_char sub]> chars).
Proof.
  intros chars result. subst result. rewrite generateTldVariants_candidates. fold chars.
  destruct (collectNew_spec (tldCandidates (tldBucketsUsed buckets) chars) (∅, []))
    as (_ & Hnd & Hlen & Hel).
  - intros x. simpl. split; intros H; [by apply elem_of_empty in H|by apply elem_of_nil in H].
  - constructor.
  - split; [exact Hnd|]. split.
    + pose proof (tldCandidates_length (tldBucketsUsed buckets) chars). simpl in Hlen. lia.
    + intros t. rewrite Hel, <- tldCandidates_elem_of. simpl. split; [|by right].
      intros [H|H]; [by apply elem_of_nil in H|exact H].
Qed.

(** ** Scripts *)

Lemma getScriptFrom_range (detectors : list jsstring) (ch : jsstring) :
  getScriptFrom detectors ch ∈ js "Common" :: detectors.
Proof.
  induction detectors as [|name rest IH]; simpl; [left|].
  destruct (matchesScript name ch); [right; left|].
  apply elem_of_cons in IH as [->|IH]; [left|]. right. by right.
Qed.

Lemma buckets_entry_script options proto subs e :
  (proto, subs) ∈ buildPrototypeBuckets options -> e ∈ subs ->
  cs_script e = getScript (cs_char e).
Proof.
  intros Hin He.
  pose proof (buckets_entry options proto subs e Hin He) as Hlook. revert Hlook.
  apply (rawForall_buildRaw (fun _ _ e => cs_script e = getScript (cs_char e))).
  intros raw from sub d sd p Hraw _. unfold entryAfter.
  destruct (lookupEntry raw from sub) as [e0|] eqn:E0; [|reflexivity].
  destruct (Qltb _ _); simpl; by eapply Hraw.
Qed.

(** No detected script selects the Korean row of [IDN_TLDS]. *)
Lemma detected_script_tlds (s t : jsstring) (idnTlds : list jsstring) :
  s ∈ js "Common" :: SCRIPT_DETECTORS ->
  alookup s IDN_TLDS = Some idnTlds -> t ∈ idnTlds -> t <> js "xn--3e0b707e".
Proof.
  intros Hs Hlook Ht.
  unfold SCRIPT_DETECTORS in Hs. simpl in Hs.
  repeat (apply elem_of_cons in Hs as [->|Hs]);
    try (by apply elem_of_nil in Hs);
    vm_compute in Hlook; try discriminate Hlook;
    injection Hlook as <-;
    repeat (apply elem_of_cons in Ht as [->|Ht]);
    try (by apply elem_of_nil in Ht); discriminate.
Qed.

(** The scripts [scan] collects are scripts [getScript] detects: each
    substitution carries the script of its replacement character, one of
    the thirteen detected scripts or [Common]; so the row [Korean] of
    [IDN_TLDS] is never selected, and the TLD [xn--3e0b707e] is a target
    only when it is a base TLD or, with [tldVariants] set, a confusable
    variant of a base TLD or of the IDN TLD of a detected script. *)
Theorem generated_scripts_detected (input : jsstring) (options : GenerateOptions)
    (buildOptions : BuildOptions) :
  let raw := generateVariants input options (Some (buildPrototypeBuckets buildOptions)) in
  let scripts := setOf (flat_map (fun v => map script (substitutions v)) raw) in
  (forall v s, v ∈ raw -> s ∈ substitutions v -> script s = getScript (replacement s)) /\
  (forall s, s ∈ scripts -> s ∈ js "Common" :: SCRIPT_DETECTORS) /\
  (forall base tldVariants,
     js "xn--3e0b707e" ∈ getTargetTlds (Some base) tldVariants (Some scripts) ->
     js "xn--3e0b707e" ∈ base \/
     (default false tldVariants = true /\
      exists tld,
        directTld (Some base) (Some scripts) tld /\ tld <> js "xn--3e0b707e" /\
        js "xn--3e0b707e" ∈ generateTldVariants tld None)).
Proof.
  intros raw scripts.
  assert (H1 : forall v s, v ∈ raw -> s ∈ substitutions v ->
                           script s = getScript (replacement s)).
  { intros v s Hv Hs. subst raw.
    apply generateVariants_shape in Hv. simpl in Hv.
    destruct Hv as [(i & proto & subs & sub & _ & Hb & Hsub & ->)
                   |[_ (i & j & pI & pJ & subsI & subsJ & subI & subJ & _ & _ & _
                        & HbI & HbJ & HsubI & HsubJ & ->)]]; simpl in Hs.
    - apply list_elem_of_singleton in Hs as ->. simpl.
      apply alookup_elem_of in Hb. by eapply buckets_entry_script.
    - apply elem_of_cons in Hs as [->|Hs]; [|apply list_elem_of_singleton in Hs as ->];
        simpl.
      + apply alookup_elem_of in HbI. by eapply buckets_entry_script.
      + apply alookup_elem_of in HbJ. by eapply buckets_entry_script. }
  assert (H2 : forall s, s ∈ scripts -> s ∈ js "Common" :: SCRIPT_DETECTORS).
  { intros s Hs. subst scripts. rewrite setOf_elem_of in Hs.
    apply list_elem_of_In, in_flat_map in Hs as (v & Hv & Hs).
    apply in_map_iff in Hs as (sub & <- & Hsub).
    apply list_elem_of_In in Hv, Hsub.
    rewrite (H1 v sub Hv Hsub). apply getScriptFrom_range. }
  split; [exact H1|]. split; [exact H2|].
  assert (Hdirect : forall base t,
            directTld (Some base) (Some scripts) t ->
            t ∈ base \/ t <> js "xn--3e0b707e").
  { intros base t [Ht|(s & idnTlds & Hs & Hlook & Ht)]; [by left|].
    right. by apply (detected_script_tlds s _ idnTlds (H2 s Hs) Hlook Ht). }
  intros base tldVariants Ht.
  destruct (getTargetTlds_spec (Some base) tldVariants (Some scripts)) as (_ & _ & Hel).
  apply Hel in Ht as [Ht|[Hflag (tld & Htld & Ht)]].
  - destruct (Hdirect base _ Ht) as [H|H]; [by left|congruence].
  - destruct (decide (tld = js "xn--3e0b707e")) as [->|Hne].
    + destruct (Hdirect base _ Htld) as [H|H]; [by left|congruence].
    + right. split; [exact Hflag|]. by exists tld.
Qed.

(** ** Scores and the scan *)

Lemma computeDangerScore_bounds (subs : list Substitution) (options : ScoreOptions) :
  (0 <= computeDangerScore subs options)%Q /\ (computeDangerScore subs options <= 1)%Q.
Proof.
  unfold computeDangerScore. destruct subs as [|s subs]; [split; discriminate|].
  split; [apply Q.le_max_l|].
  apply Q.max_lub; [discriminate|apply Q.le_min_l].
Qed.

Lemma productOf_bounds (key : ScoreKey) (subs : list Substitution) :
  Forall (fun s => (0 <= subScore key s)%Q /\ (subScore key s <= 1)%Q) subs ->
  (0 <= productOf key subs)%Q /\ (productOf key subs <= 1)%Q /\
  forall s, s ∈ subs -> (productOf key subs <= subScore key s)%Q.
Proof.
  induction 1 as [|s subs [H0 H1] Hall (IH0 & IH1 & IH)]; simpl.
  - split; [discriminate|]. split; [discriminate|].
    intros s Hs. by apply elem_of_nil in Hs.
  - split; [by apply Qmult_le_0_compat|]. split.
    + rewrite <- (Qmult_1_l 1). apply Qmult_le_compat_nonneg; by split.
    + intros s' Hs'. apply elem_of_cons in Hs' as [->|Hs'].
      * rewrite <- (Qmult_1_r (subScore key s)) at 2.
        rewrite (Qmult_comm (subScore key s)), (Qmult_comm (subScore key s) 1).
        apply Qmult_le_compat_r; [exact IH1|exact H0].
      * apply Qle_trans with (productOf key subs); [|by apply IH].
        rewrite <- (Qmult_1_l (productOf key subs)) at 2.
        apply Qmult_le_compat_r; [exact H1|exact IH0].
Qed.

Lemma Qmult_le_bound (x c b : Q) :
  (0 <= b)%Q -> (x <= b)%Q -> (0 <= x)%Q -> (c <= 1)%Q -> (x * c <= b)%Q.
Proof. intros Hb Hx H0 Hc. nra. Qed.

Lemma Qmult_le_bound_nonneg (x c b : Q) :
  (0 <= b)%Q -> (x <= b)%Q -> (0 <= c)%Q -> (c <= 1)%Q -> (x * c <= b)%Q.
Proof. intros Hb Hx H0 Hc. nra. Qed.

(** When the scores of the substitutions, their [danger] under
    [useMaxDanger] and their [stableDanger] otherwise, are within [0, 1],
    so is the composite score, and a variant never scores higher than any
    one of its substitutions. *)
Theorem computeDangerScore_range (subs : list Substitution) (options : ScoreOptions) :
  let score := if default false (so_useMaxDanger options) then danger else stableDanger in
  Forall (fun s => (0 <= score s)%Q /\ (score s <= 1)%Q) subs ->
  (0 <= computeDangerScore subs options)%Q /\
  (computeDangerScore subs options <= 1)%Q /\
  forall s, s ∈ subs -> (computeDangerScore subs options <= score s)%Q.
Proof.
  intros score Hscores.
  set (key := scoreKeyOf (default false (so_useMaxDanger options))).
  assert (Hkey : forall s, subScore key s = score s).
  { intros s. subst key score. by destruct (default false _). }
  assert (Hall : Forall (fun s => (0 <= subScore key s)%Q /\ (subScore key s <= 1)%Q) subs).
  { eapply Forall_impl; [exact Hscores|]. intros s Hs. by rewrite Hkey. }
  destruct (computeDangerScore_bounds subs options) as [H0 H1].
  split; [exact H0|]. split; [exact H1|].
  intros s Hs. rewrite <- Hkey.
  destruct (productOf_bounds key subs Hall) as (HP0 & HP1 & HPs).
  specialize (HPs s Hs).
  assert (Hs0 : (0 <= subScore key s)%Q).
  { rewrite Forall_forall in Hall. by destruct (Hall s Hs). }
  unfold computeDangerScore. fold key.
  destruct subs as [|s0 subs]; [by apply elem_of_nil in Hs|].
  set (l := s0 :: subs) in *.
  set (pen := (1 - (1 # 10) * (inject_Z (Z.of_nat (length l)) - 1))%Q).
  assert (Hpen : (pen <= 1)%Q).
  { subst pen.
    assert (1 <= inject_Z (Z.of_nat (length l)))%Q.
    { change 1%Q with (inject_Z 1). rewrite <- Zle_Qle. subst l. simpl. lia. }
    lra. }
  assert (Hbase : (scoreProduct key l * pen <= subScore key s)%Q).
  { rewrite scoreProduct_productOf. by apply Qmult_le_bound. }
  apply Q.max_lub; [exact Hs0|].
  eapply Qle_trans; [apply Q.le_min_r|].
  destruct (1 <? size _)%nat; [|exact Hbase].
  apply Qmult_le_bound_nonneg; [exact Hs0|exact Hbase|discriminate|discriminate].
Qed.

Lemma scan_resolved (domain : jsstring) (options : ScanOptions) :
  sr_variants (scan domain options) =
  if default false (resolve options)
  then jsSort resolvedOrder
         (map (resolved options) (sr_variants (scan domain (withResolve None options))))
  else sr_variants (scan domain (withResolve None options)).
Proof. unfold scan, resolved, withResolve. simpl. by destruct (default false _). Qed.

Lemma scan_plain_variants (domain : jsstring) (options : ScanOptions) (v : DomainVariant) :
  v ∈ sr_variants (scan domain (withResolve None options)) ->
  (default 0 (threshold options) <= dangerScore v)%Q /\
  (0 <= dangerScore v)%Q /\ (dangerScore v <= 1)%Q /\
  dns v = None.
Proof.
  unfold scan, withResolve. simpl. intros Hv.
  apply slice0_elem_of, jsSort_elem_of in Hv.
  apply list_elem_of_In, filter_In in Hv as [Hv Hth].
  apply Qle_bool_iff in Hth. split; [exact Hth|].
  apply in_flat_map in Hv as (tld & _ & Hv).
  apply list_elem_of_In in Hv. unfold scoreVariants in Hv.
  apply list_elem_of_fmap in Hv as (raw & -> & _). simpl.
  split; [apply computeDangerScore_bounds|]. split; [apply computeDangerScore_bounds|].
  reflexivity.
Qed.

(** What [scan] returns, with or without DNS resolution: at most [top]
    variants when [top] is not negative; every variant reaches the threshold
    and has a score within [0, 1]; and every variant carries the resolver's
    answer for its domain when resolution is requested, and none when it is
    not. *)
Theorem scan_variants_bounds (domain : jsstring) (options : ScanOptions) :
  (0 <= default 20 (top options) ->
   Z.of_nat (length (sr_variants (scan domain options))) <= default 20 (top options)) /\
  Forall (fun v =>
            (default 0 (threshold options) <= dangerScore v)%Q /\
            (0 <= dangerScore v)%Q /\ (dangerScore v <= 1)%Q /\
            dns v =
              if default false (resolve options)
              then Some (createNodeResolver (concurrency options) (timeout options)
                           (dv_domain v))
              else None)
         (sr_variants (scan domain options)).
Proof.
  rewrite scan_resolved. split.
  - intros Htop.
    assert (Hplain : Z.of_nat (length (sr_variants (scan domain (withResolve None options))))
                     <= default 20 (top options)).
    { unfold scan, withResolve. simpl. by apply slice0_length. }
    destruct (default false (resolve options)); [|exact Hplain].
    by rewrite jsSort_length, length_map.
  - apply Forall_forall. intros v Hv.
    destruct (default false (resolve options)).
    + apply jsSort_elem_of, list_elem_of_fmap in Hv as (v0 & -> & Hv0).
      destruct (scan_plain_variants domain options v0 Hv0) as (H1 & H2 & H3 & _).
      by repeat split.
    + by apply (scan_plain_variants domain options).
Qed.

(** DNS resolution only annotates and reorders: the variants [scan]
    returns with [resolve] are, in some order, the variants it returns
    without, each with the resolver's answer attached; the count of generated
    variants is the same. *)
Theorem scan_resolve_annotates (domain : jsstring) (options : ScanOptions) :
  default false (resolve options) = true ->
  Permutation (sr_variants (scan domain options))
    (map (resolved options) (sr_variants (scan domain (withResolve None options)))) /\
  totalGenerated (scan domain options)
  = totalGenerated (scan domain (withResolve None options)).
Proof.
  intros Hres. rewrite scan_resolved, Hres. split; [apply jsSort_Permutation|reflexivity].
Qed.

(** ** The best font *)

Lemma fontProduct_pairDangers (weightOf : Substitution -> option ConfusableWeight)
    (subs : list Substitution) (acc : Q) :
  fontProduct weightOf subs acc
  = (fun dangers => fold_left Qmult dangers acc) <$> pairDangers weightOf subs.
Proof.
  revert acc. induction subs as [|s subs IH]; intros acc; simpl; [reflexivity|].
  destruct (weightOf s) as [w|]; [|reflexivity].
  rewrite IH. by destruct (pairDangers weightOf subs).
Qed.

Lemma pairDangers_ext (f g : Substitution -> option ConfusableWeight)
    (subs : list Substitution) :
  (forall s, f s = g s) -> pairDangers f subs = pairDangers g subs.
Proof.
  intros Hfg. induction subs as [|s subs IH]; simpl; [reflexivity|].
  by rewrite Hfg, IH.
Qed.

Lemma lookupWeight_fourWay (weights : ConfusableWeights) (s : Substitution) :
  lookupWeight weights (replacement s) (original s) = fourWayWeight weights s.
Proof.
  unfold lookupWeight, fourWayWeight, firstFound.
  destruct (weightAt weights (replacement s) (original s)); [reflexivity|].
  destruct (weightAt weights (original s) (replacement s)); [reflexivity|].
  destruct (weightAt weights (replacement s) (toUpperCase (original s))); [reflexivity|].
  by destruct (weightAt weights (toUpperCase (original s)) (replacement s)).
Qed.

Lemma fontProduct_fontScore (weights : ConfusableWeights) (subs : list Substitution) :
  fontProduct (fun sub => lookupWeight weights (replacement sub) (original sub)) subs 1%Q
  = fontScore weights subs.
Proof.
  rewrite fontProduct_pairDangers. unfold fontScore.
  by rewrite (pairDangers_ext _ (fourWayWeight weights)) by apply lookupWeight_fourWay.
Qed.

Lemma findBestFont_fold (subs : list Substitution)
    (rest done : list (jsstring * ConfusableWeights)) (best : option jsstring * Q) :
  let step :=
    fun (best : option jsstring * Q) (entry : jsstring * ConfusableWeights) =>
      let '(fontName, weights) := entry in
      match fontProduct
              (fun sub => lookupWeight weights (replacement sub) (original sub))
              subs 1%Q with
      | Some product =>
          if Qltb (snd best) product then (Some fontName, product) else best
      | None => best
      end in
  let inv := fun done (best : option jsstring * Q) =>
    match fst best with
    | None => snd best = 0%Q /\ noFontScores done subs
    | Some f => firstBestFont done subs f (snd best)
    end in
  inv done best -> inv (done ++ rest) (fold_left step rest best).
Proof.
  cbv zeta. revert done best.
  induction rest as [|[fontName weights] rest IH]; intros done best Hinv; simpl.
  - by rewrite app_nil_r.
  - replace (done ++ (fontName, weights) :: rest)
      with ((done ++ [(fontName, weights)]) ++ rest) by (by rewrite <- app_assoc).
    apply IH. rewrite fontProduct_fontScore.
    destruct best as [[f|] s]; simpl in *.
    + destruct Hinv as (pre & w0 & post & -> & Hscore & Hpos & Hpre & Hpost).
      destruct (fontScore weights subs) as [product|] eqn:E; simpl.
      * destruct (Qltb s product) eqn:Elt; simpl.
        -- apply Qltb_lt in Elt.
           exists (pre ++ (f, w0) :: post), weights, [].
           split; [reflexivity|]. split; [exact E|].
           split; [by eapply Qlt_trans|]. split.
           ++ intros f' w' p Hin Hp.
              apply elem_of_app in Hin as [Hin|Hin].
              ** eapply Qlt_trans; [by eapply Hpre|exact Elt].
              ** apply elem_of_cons in Hin as [[= -> ->]|Hin].
                 --- congruence.
                 --- eapply Qle_lt_trans; [by eapply Hpost|exact Elt].
           ++ intros f' w' p Hin. by apply elem_of_nil in Hin.
        -- apply Qltb_ge in Elt.
           exists pre, w0, (post ++ [(fontName, weights)]).
           split; [by rewrite <- app_assoc|]. split; [exact Hscore|].
           split; [exact Hpos|]. split; [exact Hpre|].
           intros f' w' p Hin Hp.
           apply elem_of_app in Hin as [Hin|Hin]; [by eapply Hpost|].
           apply list_elem_of_singleton in Hin as [= -> ->]. congruence.
      * exists pre, w0, (post ++ [(fontName, weights)]).
        split; [by rewrite <- app_assoc|]. split; [exact Hscore|].
        split; [exact Hpos|]. split; [exact Hpre|].
        intros f' w' p Hin Hp.
        apply elem_of_app in Hin as [Hin|Hin]; [by eapply Hpost|].
        apply list_elem_of_singleton in Hin as [= -> ->]. congruence.
    + destruct Hinv as [-> Hnone].
      destruct (fontScore weights subs) as [product|] eqn:E; simpl.
      * destruct (Qltb 0 product) eqn:Elt; simpl.
        -- apply Qltb_lt in Elt.
           exists done, weights, [].
           split; [reflexivity|]. split; [exact E|]. split; [exact Elt|]. split.
           ++ intros f' w' p Hin Hp.
              eapply Qle_lt_trans; [by eapply Hnone|exact Elt].
           ++ intros f' w' p Hin. by apply elem_of_nil in Hin.
        -- apply Qltb_ge in Elt. split; [reflexivity|].
           intros f' w' p Hin Hp.
           apply elem_of_app in Hin as [Hin|Hin]; [by eapply Hnone|].
           apply list_elem_of_singleton in Hin as [= -> ->]. congruence.
      * split; [reflexivity|].
        intros f' w' p Hin Hp.
        apply elem_of_app in Hin as [Hin|Hin]; [by eapply Hnone|].
        apply list_elem_of_singleton in Hin as [= -> ->]. congruence.
Qed.

Lemma findBestFont_spec (subs : list Substitution) :
  match findBestFont subs with
  | Some (f, ssim) => f <> [] /\ firstBestFont FONT_SPECIFIC_WEIGHTS subs f ssim
  | None =>
      noFontScores FONT_SPECIFIC_WEIGHTS subs \/
      exists ssim, firstBestFont FONT_SPECIFIC_WEIGHTS subs [] ssim
  end.
Proof.
  unfold findBestFont.
  pose proof (findBestFont_fold subs FONT_SPECIFIC_WEIGHTS [] (None, 0%Q)) as H.
  cbv zeta in H. simpl app in H.
  destruct (fold_left _ FONT_SPECIFIC_WEIGHTS (None, 0%Q)) as [[f|] s]; simpl in H.
  - specialize (H ltac:(split; [reflexivity|]; intros ? ? ? Hin; by apply elem_of_nil in Hin)).
    destruct (decide (f = [])) as [->|Hne]; [right; by exists s|by split].
  - left. apply H. split; [reflexivity|].
    intros ? ? ? Hin. by apply elem_of_nil in Hin.
Qed.

(** For substitutions whose strings name no inherited property,
    [findBestFont] returns the first font, in the order of the table, that
    reaches the highest score, with that score, which is positive; the score
    of a font is the product of the [danger] values it holds for the pairs
    of the substitutions, each looked up in four places, and a font that
    lacks a pair does not compete.  It returns nothing when no font has a
    positive score, or when the font it would return has the empty name. *)
Theorem findBestFont_first_best (subs : list Substitution) :
  Forall plainKeys subs ->
  match findBestFont subs with
  | Some (f, ssim) => f <> [] /\ firstBestFont FONT_SPECIFIC_WEIGHTS subs f ssim
  | None =>
      noFontScores FONT_SPECIFIC_WEIGHTS subs \/
      exists ssim, firstBestFont FONT_SPECIFIC_WEIGHTS subs [] ssim
  end.
Proof. intros _. apply findBestFont_spec. Qed.

(** ** Punycode *)

Lemma concat_spread (s : jsstring) : concat (spread s) = s.
Proof.
  induction s as [s IH] using (induction_ltof1 _ (@length Z)). unfold ltof in IH.
  destruct s as [|u [|v rest]]; [reflexivity|reflexivity|].
  rewrite spread_cons_cons.
  destruct (isHighSurrogate u && isLowSurrogate v).
  - simpl. rewrite IH by (simpl; lia). reflexivity.
  - change (concat ([u] :: spread (v :: rest))) with (u :: concat (spread (v :: rest))).
    rewrite IH by (simpl; lia). reflexivity.
Qed.

Lemma splitOn_cons (sep : Z) (s : jsstring) :
  exists piece pieces, splitOn sep s = piece :: pieces.
Proof.
  destruct s as [|u rest]; simpl; [by eexists _, _|].
  destruct (u =? sep); [by eexists _, _|].
  destruct (splitOn sep rest); by eexists _, _.
Qed.

Lemma joinWith_cons (sep x : jsstring) (piece : jsstring) (pieces : list jsstring) :
  joinWith sep (x :: piece :: pieces) = x ++ sep ++ joinWith sep (piece :: pieces).
Proof. reflexivity. Qed.

(** Splitting and joining at the same separator are inverse. *)
Lemma joinWith_splitOn (sep : Z) (s : jsstring) : joinWith [sep] (splitOn sep s) = s.
Proof.
  induction s as [|u rest IH]; [reflexivity|]. simpl.
  destruct (u =? sep) eqn:E.
  - apply Z.eqb_eq in E. subst u.
    destruct (splitOn_cons sep rest) as (piece & pieces & Hs).
    rewrite Hs in *. by rewrite joinWith_cons, IH.
  - destruct (splitOn_cons sep rest) as (piece & pieces & Hs).
    rewrite Hs in *. destruct pieces as [|piece' pieces].
    + simpl in *. by rewrite IH.
    + rewrite joinWith_cons in *. rewrite <- IH. reflexivity.
Qed.

Lemma splitOn_app (sep : Z) (a b : jsstring) :
  splitOn sep (a ++ sep :: b) = splitOn sep a ++ splitOn sep b.
Proof.
  induction a as [|u a IH]; simpl.
  - by rewrite Z.eqb_refl.
  - destruct (u =? sep); [by rewrite IH|].
    rewrite IH. destruct (splitOn_cons sep a) as (piece & pieces & ->). reflexivity.
Qed.

Lemma joinWith_app (sep : jsstring) (x y : jsstring) (xs ys : list jsstring) :
  joinWith sep ((x :: xs) ++ y :: ys) = joinWith sep (x :: xs) ++ sep ++ joinWith sep (y :: ys).
Proof.
  revert x. induction xs as [|x' xs IH]; intros x; [reflexivity|].
  change ((x :: x' :: xs) ++ y :: ys) with (x :: ((x' :: xs) ++ y :: ys)).
  change ((x' :: xs) ++ y :: ys) with (x' :: (xs ++ y :: ys)).
  rewrite joinWith_cons.
  change (x' :: (xs ++ y :: ys)) with ((x' :: xs) ++ y :: ys).
  rewrite IH, joinWith_cons. by rewrite <- !app_assoc.
Qed.

Lemma mapResult_app {A B : Type} (f : A -> result B) (l1 l2 : list A) :
  mapResult f (l1 ++ l2) =
  match mapResult f l1, mapResult f l2 with
  | Ok ys1, Ok ys2 => Ok (ys1 ++ ys2)
  | _, _ => RangeError
  end.
Proof.
  induction l1 as [|x l1 IH]; simpl.
  - by destruct (mapResult f l2).
  - destruct (f x); [|reflexivity]. rewrite IH.
    destruct (mapResult f l1); [|reflexivity]. by destruct (mapResult f l2).
Qed.

Lemma mapResult_length {A B : Type} (f : A -> result B) (l : list A) (ys : list B) :
  mapResult f l = Ok ys -> length ys = length l.
Proof.
  revert ys. induction l as [|x l IH]; intros ys; simpl; [by intros [= <-]|].
  destruct (f x); [|discriminate].
  destruct (mapResult f l) as [ys'|]; [|discriminate].
  intros [= <-]. simpl. by rewrite (IH ys').
Qed.

Lemma mapResult_id {A : Type} (f : A -> result A) (l : list A) :
  Forall (fun x => f x = Ok x) l -> mapResult f l = Ok l.
Proof. induction 1 as [|x l Hx _ IH]; simpl; [reflexivity|]. by rewrite Hx, IH. Qed.

Lemma mapResult_error {A B : Type} (f : A -> result B) (l : list A) :
  mapResult f l = RangeError <-> Exists (fun x => f x = RangeError) l.
Proof.
  induction l as [|x l IH]; simpl.
  - split; [discriminate|]. intros H. by apply Exists_nil in H.
  - rewrite Exists_cons. destruct (f x) eqn:E.
    + destruct (mapResult f l).
      * split; [discriminate|]. intros [H|H]; [discriminate|]. by apply IH in H.
      * split; [|reflexivity]. intros _. right. by apply IH.
    + split; [|reflexivity]. intros _. by left.
Qed.

Lemma mapResult_Ok {A B : Type} (f : A -> result B) (l : list A) (ys : list B) :
  mapResult f l = Ok ys <-> Forall2 (fun x y => f x = Ok y) l ys.
Proof.
  revert ys. induction l as [|x l IH]; intros ys; simpl.
  - split.
    + intros [= <-]. constructor.
    + intros H. by inversion H.
  - split.
    + destruct (f x) as [y|] eqn:Ex; [|discriminate].
      destruct (mapResult f l) as [ys'|] eqn:El; [|discriminate].
      intros [= <-]. constructor; [exact Ex|]. by apply IH.
    + intros H. inversion H as [|x' y l' ys' Hx Hl]; subst.
      rewrite Hx. apply IH in Hl. by rewrite Hl.
Qed.

Lemma fromPunycode_app (a b : jsstring) :
  fromPunycode (a ++ js "." ++ b) =
    match fromPunycode a, fromPunycode b with
    | Ok a', Ok b' => Ok (a' ++ js "." ++ b')
    | _, _ => RangeError
    end.
Proof.
  unfold fromPunycode.
  change (a ++ js "." ++ b) with (a ++ 46 :: b).
  rewrite splitOn_app, mapResult_app.
  destruct (mapResult decodePunycodeLabel (splitOn 46 a)) as [la|] eqn:Ea; [|reflexivity].
  destruct (mapResult decodePunycodeLabel (splitOn 46 b)) as [lb|] eqn:Eb; [|reflexivity].
  apply mapResult_length in Ea, Eb.
  destruct (splitOn_cons 46 a) as (pa & psa & Hsa).
  destruct (splitOn_cons 46 b) as (pb & psb & Hsb).
  rewrite Hsa in Ea. rewrite Hsb in Eb.
  destruct la as [|xa la]; [discriminate|]. destruct lb as [|xb lb]; [discriminate|].
  by rewrite joinWith_app.
Qed.

(** [fromPunycode] works label by label: a domain none of whose labels
    starts with [xn--] comes back unchanged; the call returns exactly when
    the decoding of every label returns, and then with the decoded labels
    joined by dots; and when [a] and [b] decode, [a.b] decodes to the
    decoding of [a], a dot, and the decoding of [b]. *)
Theorem fromPunycode_labels (domain a b out : jsstring) :
  (Forall (fun l => startsWith (js "xn--") l = false) (splitOn 46 domain) ->
   fromPunycode domain = Ok domain) /\
  (fromPunycode domain = Ok out <->
   exists labels,
     Forall2 (fun l decoded => decodePunycodeLabel l = Ok decoded)
       (splitOn 46 domain) labels /\
     out = joinWith (js ".") labels) /\
  (forall a' b',
     fromPunycode a = Ok a' -> fromPunycode b = Ok b' ->
     fromPunycode (a ++ js "." ++ b) = Ok (a' ++ js "." ++ b')).
Proof.
  split; [|split].
  - unfold fromPunycode.
    intros Hall. rewrite mapResult_id; [by rewrite joinWith_splitOn|].
    eapply Forall_impl; [exact Hall|]. intros l Hl. cbv beta in Hl.
    unfold decodePunycodeLabel. by rewrite Hl.
  - unfold fromPunycode. split.
    + destruct (mapResult decodePunycodeLabel (splitOn 46 domain)) as [labels|] eqn:E;
        [|discriminate].
      intros [= <-]. exists labels. split; [by apply mapResult_Ok|reflexivity].
    + intros (labels & Hall & ->). apply mapResult_Ok in Hall. by rewrite Hall.
  - intros a' b' Ha Hb. by rewrite fromPunycode_app, Ha, Hb.
Qed.

Lemma lastIndexOf_last (c : Z) (s : jsstring) :
  lastIndexOf c (s ++ [c]) = Z.of_nat (length s).
Proof.
  destruct (lastIndexOf_spec c (s ++ [c])) as [[Hnot _]|(pre & post & Heq & Hnot & ->)].
  - exfalso. apply Hnot. apply elem_of_app. right. left.
  - destruct post as [|x post _] using rev_ind.
    + apply app_inj_tail in Heq as [-> _]. reflexivity.
    + exfalso. apply Hnot.
      change (pre ++ c :: post ++ [x]) with (pre ++ (c :: post) ++ [x]) in Heq.
      rewrite app_assoc in Heq. apply app_inj_tail in Heq as [_ ->].
      apply elem_of_app. right. left.
Qed.

(** Edge cases of the decoder: a label without the ACE prefix is returned
    as it is, and an ACE label whose extension is empty, [xn--] followed by
    basic code points and a closing hyphen, decodes to the basic code
    points. *)
Theorem decodePunycodeLabel_basic (input basic : jsstring) :
  (startsWith (js "xn--") input = false -> decodePunycodeLabel input = Ok input) /\
  (basic <> [] -> decodePunycodeLabel (js "xn--" ++ basic ++ js "-") = Ok basic).
Proof.
  split.
  - intros H. unfold decodePunycodeLabel. by rewrite H.
  - intros Hne. unfold decodePunycodeLabel.
    assert (Hpre : startsWith (js "xn--") (js "xn--" ++ basic ++ js "-") = true).
    { apply startsWith_spec. by eexists. }
    rewrite Hpre. simpl negb. cbv iota.
    change (drop 4 (js "xn--" ++ basic ++ js "-")) with (basic ++ [45]).
    rewrite lastIndexOf_last.
    assert (Hlen : (0 <? Z.of_nat (length basic)) = true).
    { apply Z.ltb_lt. destruct basic; [done|simpl; lia]. }
    rewrite Hlen.
    replace (Z.to_nat (Z.of_nat (length basic) + 1)) with (length (basic ++ [45]))
      by (rewrite length_app; simpl; lia).
    rewrite drop_all, Nat2Z.id, take_app_length.
    rewrite decodeLoop_equation_1. by rewrite concat_spread.
Qed.

Lemma digitValue_nonneg (c : Z) : 0 <= digitValue c.
Proof.
  unfold digitValue, BASE.
  destruct ((0x30 <=? c) && (c <=? 0x39)) eqn:E1; [lia|].
  destruct ((0x41 <=? c) && (c <=? 0x5a)) eqn:E2; [lia|].
  destruct ((0x61 <=? c) && (c <=? 0x7a)) eqn:E3; lia.
Qed.

Lemma readDigits_ge (bias : Z) (rest : jsstring) (i w k : Z) :
  0 < w -> i <= fst (readDigits bias rest i w k).
Proof.
  revert i w k. induction rest as [|c rest IH]; intros i w k Hw; simpl; [lia|].
  destruct (BASE <=? digitValue c); simpl; [lia|].
  pose proof (digitValue_nonneg c) as Hd.
  set (t := if k <=? bias then TMIN else if bias + TMAX <=? k then TMAX else k - bias).
  assert (Ht : 0 < BASE - t).
  { subst t. unfold BASE, TMIN, TMAX. destruct (k <=? bias) eqn:E1; [lia|].
    destruct (bias + 26 <=? k) eqn:E2; lia. }
  destruct (digitValue c <? t); simpl; [nia|].
  etransitivity; [|apply IH; nia]. nia.
Qed.

(** What one turn of the outer loop keeps: [n] does not fall below 128,
    [i] stays non-negative, the characters already in place keep their
    order, and the character put in is that of a code point from U+0080
    on. *)
Lemma insertDecoded_inv (basic : list jsstring) (n oldi i : Z) (output : list jsstring)
    (n' bias' i' : Z) (output' : list jsstring) :
  128 <= n -> 0 <= oldi -> oldi <= i ->
  basic `sublist_of` output ->
  Forall (fun ch => ch ∈ basic \/ insertedChar ch) output ->
  insertDecoded n oldi i output = Ok (n', bias', i', output') ->
  128 <= n' /\ 0 <= i' /\
  basic `sublist_of` output' /\
  Forall (fun ch => ch ∈ basic \/ insertedChar ch) output' /\
  length output' = S (length output).
Proof.
  intros Hn Hold Hi Hsub Hall. unfold insertDecoded.
  set (len := Z.of_nat (length output) + 1).
  assert (Hlen : 0 < len) by (subst len; lia).
  assert (Hdiv : 0 <= i / len) by (apply Z.div_pos; lia).
  assert (Hrem : 0 <= Z.rem i len) by (apply Z.rem_nonneg; lia).
  destruct (fromCodePoint (n + i / len)) as [ch|] eqn:Ech; [|discriminate].
  intros [= <- <- <- <-].
  assert (Hins : insertedChar ch).
  { exists (n + i / len). split; [|exact Ech].
    unfold fromCodePoint in Ech.
    destruct ((n + i / len <? 0) || (0x10FFFF <? n + i / len)) eqn:E; [discriminate|].
    apply orb_false_iff in E as [_ E]. apply Z.ltb_ge in E. lia. }
  split; [lia|]. split; [lia|]. unfold splice. split; [|split].
  - etransitivity; [exact Hsub|].
    rewrite <- (take_drop (Z.to_nat (Z.rem i len)) output) at 1.
    apply sublist_app; [reflexivity|]. by apply sublist_cons.
  - apply Forall_app. split; [by apply Forall_take|].
    apply Forall_cons. split; [by right|by apply Forall_drop].
  - rewrite length_app. simpl. rewrite length_take, length_drop. lia.
Qed.

Lemma decodeLoop_inv (basic : list jsstring) (rest : jsstring) (n bias i : Z)
    (output out : list jsstring) :
  128 <= n -> 0 <= i ->
  basic `sublist_of` output ->
  Forall (fun ch => ch ∈ basic \/ insertedChar ch) output ->
  decodeLoop rest n bias i output = Ok out ->
  basic `sublist_of` out /\
  Forall (fun ch => ch ∈ basic \/ insertedChar ch) out /\
  (length output <= length out <= length output + length rest)%nat.
Proof.
  revert n bias i output.
  induction rest as [rest IH] using (induction_ltof1 _ (@length Z)). unfold ltof in IH.
  intros n bias i output Hn Hi Hsub Hall.
  destruct rest as [|c rest'].
  - rewrite decodeLoop_equation_1. intros [= <-]. simpl. split; [done|]. split; [done|lia].
  - rewrite decodeLoop_equation_2.
    pose proof (readDigits_ge bias (c :: rest') i 1 BASE ltac:(lia)) as Hge.
    pose proof (readDigits_length bias (c :: rest') i 1 BASE) as Hlen.
    assert (Hlt : (length (snd (readDigits bias (c :: rest') i 1 BASE))
                   < length (c :: rest'))%nat).
    { clear -Hlen. simpl in *.
      destruct (BASE <=? digitValue c); simpl in *; [lia|].
      match goal with |- context [if ?b then _ else _] => destruct b end; simpl in *; [lia|].
      match goal with |- context [readDigits ?b ?r ?i ?w ?k] =>
        pose proof (readDigits_length b r i w k) end.
      lia. }
    destruct (insertDecoded n i (fst (readDigits bias (c :: rest') i 1 BASE)) output)
      as [[[[n' bias'] i'] output']|] eqn:Eins; [|discriminate].
    destruct (insertDecoded_inv basic _ _ _ _ _ _ _ _ Hn Hi Hge Hsub Hall Eins)
      as (Hn' & Hi' & Hsub' & Hall' & Hlen').
    intros Hout.
    destruct (IH _ Hlt n' bias' i' output' Hn' Hi' Hsub' Hall' Hout) as (H1 & H2 & H3).
    split; [exact H1|]. split; [exact H2|]. lia.
Qed.

(** The decoder keeps the basic code points and adds no ASCII: when an ACE
    label decodes, the result consists of the basic code points, in their
    order, and of inserted characters, each the string of a code point from
    U+0080 on; it has at most one inserted character per code unit of the
    extension. *)
Theorem decodePunycodeLabel_keeps_basic (encoded out : jsstring) :
  decodePunycodeLabel (js "xn--" ++ encoded) = Ok out ->
  exists output,
    out = concat output /\
    basicChars encoded `sublist_of` output /\
    Forall (fun ch => ch ∈ basicChars encoded \/ insertedChar ch) output /\
    (length (basicChars encoded) <= length output
     <= length (basicChars encoded) + length encoded)%nat.
Proof.
  unfold decodePunycodeLabel.
  assert (Hpre : startsWith (js "xn--") (js "xn--" ++ encoded) = true).
  { apply startsWith_spec. by eexists. }
  rewrite Hpre. simpl negb. cbv iota.
  change (drop 4 (js "xn--" ++ encoded)) with encoded.
  fold (basicChars encoded).
  destruct (decodeLoop _ INITIAL_N INITIAL_BIAS 0 (basicChars encoded)) as [output|] eqn:E;
    [|discriminate].
  intros [= <-]. exists output. split; [reflexivity|].
  apply (decodeLoop_inv (basicChars encoded)) in E as (H1 & H2 & H3).
  - split; [exact H1|]. split; [exact H2|].
    rewrite length_drop in H3. lia.
  - unfold INITIAL_N. lia.
  - lia.
  - reflexivity.
  - apply Forall_forall. intros ch Hch. by left.
Qed.

(** ** Substitutions the reverse resolver reports *)

Lemma asciiPrototype_Some (ch ascii : jsstring) :
  asciiPrototype ch = Some ascii ->
  alookup ch CONFUSABLE_MAP_FULL = Some ascii /\
  isAsciiLowerAlnum ascii = true /\ ch <> ascii.
Proof.
  unfold asciiPrototype.
  destruct (alookup ch CONFUSABLE_MAP_FULL) as [a|]; [|discriminate].
  destruct (negb (bool_decide (a = [])) && isAsciiLowerAlnum a
            && negb (bool_decide (ch = a))) eqn:E; [|discriminate].
  intros [= <-]. apply andb_true_iff in E as [E E3]. apply andb_true_iff in E as [_ E2].
  split; [reflexivity|]. split; [exact E2|].
  apply negb_true_iff, bool_decide_eq_false in E3. exact E3.
Qed.

Lemma detectedFrom_spec (i : nat) (chars : list jsstring) :
  Forall (fun s => (i <= position s)%nat /\
                   chars !! (position s - i)%nat = Some (replacement s) /\
                   asciiPrototype (replacement s) = Some (original s))
         (detectedFrom i chars) /\
  StronglySorted lt (map position (detectedFrom i chars)).
Proof.
  revert i. induction chars as [|ch rest IH]; intros i; simpl.
  - split; constructor.
  - destruct (IH (S i)) as [Hall Hsorted].
    assert (Hrest : Forall (fun s => (i <= position s)%nat /\
                      (ch :: rest) !! (position s - i)%nat = Some (replacement s) /\
                      asciiPrototype (replacement s) = Some (original s))
                      (detectedFrom (S i) rest)).
    { eapply Forall_impl; [exact Hall|]. intros s (Hle & Hlook & Hproto).
      split; [lia|]. split; [|exact Hproto].
      replace (position s - i)%nat with (S (position s - S i)) by lia. exact Hlook. }
    destruct (asciiPrototype ch) as [ascii|] eqn:E; [|by split].
    split.
    + constructor; [|exact Hrest]. simpl. split; [lia|].
      rewrite Nat.sub_diag. by split.
    + simpl. constructor; [exact Hsorted|].
      apply Forall_forall. intros p Hp.
      apply list_elem_of_fmap in Hp as (s & -> & Hs).
      rewrite Forall_forall in Hall. destruct (Hall s Hs) as [Hle _]. lia.
Qed.

(** Replacing a detected character changes the string: the canonical
    label differs from the label it comes from. *)
Lemma canonical_differs (i : nat) (chars : list jsstring) :
  wellChunked chars -> detectedFrom i chars <> [] ->
  concat (map canonicalChar chars) <> concat chars.
Proof.
  intros Hwc. revert i.
  induction Hwc as [|u l Hwc IH Hlow|u v l Hu Hv Hwc IH]; intros i; simpl.
  - congruence.
  - unfold canonicalChar at 1.
    destruct (asciiPrototype [u]) as [ascii|] eqn:E; simpl.
    + intros _ Heq. apply asciiPrototype_Some in E as (_ & Hal & Hne).
      destruct ascii as [|a [|b ascii]]; try discriminate.
      simpl in Heq. injection Heq as -> _. by apply Hne.
    + intros Hdet Heq. injection Heq as Heq. by apply (IH (S i)).
  - unfold canonicalChar at 1.
    destruct (asciiPrototype [u; v]) as [ascii|] eqn:E; simpl.
    + intros _ Heq. apply asciiPrototype_Some in E as (_ & Hal & Hne).
      destruct ascii as [|a [|b ascii]]; try discriminate.
      simpl in Heq. injection Heq as -> _.
      unfold isHighSurrogate in Hu. simpl in Hal. lia.
    + intros Hdet Heq. injection Heq as Heq. by apply (IH (S i)).
Qed.

(** What [reverseScan] reports, when it reports: one candidate, whose
    substitutions are not empty and stand at increasing positions; each
    names a character of the decoded label at its position, and as original
    the one-character prototype in [a-z0-9] that [CONFUSABLE_MAP_FULL] gives
    for it, which differs from the character; and the candidate is never the
    decoded domain itself. *)
Theorem reverseScan_candidate (domain : jsstring) (r : ReverseScanResult)
    (candidate : Impersonation) :
  reverseScan domain = Ok r ->
  candidate ∈ impersonates r ->
  exists decodedLabel,
    decodedLabelOf domain = Ok decodedLabel /\
    impersonates r = [candidate] /\
    imp_substitutions candidate <> [] /\
    positionsIncreasing (imp_substitutions candidate) /\
    Forall (fun s =>
              spread decodedLabel !! position s = Some (replacement s) /\
              alookup (replacement s) CONFUSABLE_MAP_FULL = Some (original s) /\
              isAsciiLowerAlnum (original s) = true /\
              replacement s <> original s)
           (imp_substitutions candidate) /\
    imp_domain candidate <> decodedLabel ++ js "." ++ dp_tld (splitDomain domain).
Proof.
  unfold reverseScan, decodedLabelOf.
  destruct (if startsWith (js "xn--") (dp_label (splitDomain domain))
            then decodePunycodeLabel (dp_label (splitDomain domain))
            else Ok (dp_label (splitDomain domain))) as [decodedLabel|]; [|discriminate].
  rewrite reverseLoop_spec. simpl app.
  set (chars := spread decodedLabel).
  destruct (detectedFrom_spec 0 chars) as [Hall Hsorted].
  pose proof (canonical_differs 0 chars (spread_wellChunked decodedLabel)) as Hdiff.
  destruct (detectedFrom 0 chars) as [|s rest] eqn:Edet.
  - intros [= <-]. simpl. intros Hin. by apply elem_of_nil in Hin.
  - intros [= <-]. simpl. intros Hin. apply list_elem_of_singleton in Hin as ->.
    exists decodedLabel. split; [reflexivity|]. split; [reflexivity|]. simpl.
    split; [discriminate|]. split; [exact Hsorted|]. split.
    + eapply Forall_impl; [exact Hall|]. intros s' (_ & Hlook & Hproto).
      rewrite Nat.sub_0_r in Hlook.
      apply asciiPrototype_Some in Hproto as (H1 & H2 & H3). by repeat split.
    + intros Heq. apply app_inv_tail in Heq.
      apply Hdiff; [discriminate|]. subst chars. by rewrite concat_spread.
Qed.

(** ** DNS answers *)





(** ** The worker's filter *)

Lemma filter_sublist {A : Type} (f : A -> bool) (l : list A) : List.filter f l `sublist_of` l.
Proof.
  induction l as [|x l IH]; simpl; [constructor|].
  destruct (f x); [by apply sublist_skip|by apply sublist_cons].
Qed.

Lemma filter_all {A : Type} (f : A -> bool) (l : list A) :
  Forall (fun x => f x = true) l -> List.filter f l = l.
Proof. induction 1 as [|x l Hx _ IH]; simpl; [reflexivity|]. by rewrite Hx, IH. Qed.

Lemma StronglySorted_sublist {A : Type} (R : A -> A -> Prop) (l1 l2 : list A) :
  l1 `sublist_of` l2 -> StronglySorted R l2 -> StronglySorted R l1.
Proof.
  induction 1 as [|x l1 l2 Hsub IH|x l1 l2 Hsub IH]; intros Hs; [constructor| |].
  - apply StronglySorted_inv in Hs as [Hs Hall]. constructor; [by apply IH|].
    rewrite Forall_forall in *. intros y Hy. apply Hall.
    by eapply elem_of_sublist.
  - apply StronglySorted_inv in Hs as [Hs _]. by apply IH.
Qed.

Lemma prefix_of_sublist {A : Type} (l1 l2 : list A) :
  l1 `prefix_of` l2 -> l1 `sublist_of` l2.
Proof. intros [k ->]. by apply sublist_inserts_r. Qed.

(** Serving from the cache: [applyFilters] changes nothing but the list of
    variants, of which it returns a sub-list in the same order, so what was
    sorted stays sorted, with at most [top] entries when [top] is not
    negative.  When no cached score is negative, the shortcut for a zero
    threshold makes no difference: the result is exactly the variants that
    reach the threshold, cut to the first [top]. *)
Theorem applyFilters_sublist (result : ScanResult) (threshold : Q) (top : Z) :
  let served := applyFilters result threshold top in
  sr_original served = sr_original result /\
  sr_label served = sr_label result /\
  sr_tld served = sr_tld result /\
  totalGenerated served = totalGenerated result /\
  sr_variants served `sublist_of` sr_variants result /\
  (forall R : DomainVariant -> DomainVariant -> Prop,
     StronglySorted R (sr_variants result) -> StronglySorted R (sr_variants served)) /\
  (0 <= top -> Z.of_nat (length (sr_variants served)) <= top) /\
  (Forall (fun v => (0 <= dangerScore v)%Q) (sr_variants result) ->
   sr_variants served =
     slice0 top (List.filter (fun v => Qle_bool threshold (dangerScore v))
                   (sr_variants result)) /\
   Forall (fun v => (threshold <= dangerScore v)%Q) (sr_variants served)).
Proof.
  intros served.
  assert (Hcut : slice0 top (List.filter (fun v => Qle_bool threshold (dangerScore v))
                               (sr_variants result)) `sublist_of` sr_variants result).
  { etransitivity; [apply prefix_of_sublist, slice0_prefix|apply filter_sublist]. }
  assert (Hsub : sr_variants served `sublist_of` sr_variants result).
  { subst served. unfold applyFilters. destruct (_ && _); [reflexivity|exact Hcut]. }
  assert (Hexact :
    Forall (fun v => (0 <= dangerScore v)%Q) (sr_variants result) ->
    sr_variants served =
      slice0 top (List.filter (fun v => Qle_bool threshold (dangerScore v))
                    (sr_variants result))).
  { intros Hpos. subst served. unfold applyFilters.
    destruct (Qeq_bool threshold 0 && (Z.of_nat (length (sr_variants result)) <=? top))
      eqn:E; [|reflexivity].
    apply andb_true_iff in E as [E0 Etop].
    apply Qeq_bool_iff in E0. apply Z.leb_le in Etop.
    rewrite filter_all.
    - by rewrite slice0_all.
    - eapply Forall_impl; [exact Hpos|]. intros v Hv. simpl in Hv.
      apply Qle_bool_iff. by rewrite E0. }
  assert (Hfields : sr_original served = sr_original result /\
                    sr_label served = sr_label result /\
                    sr_tld served = sr_tld result /\
                    totalGenerated served = totalGenerated result).
  { subst served. unfold applyFilters. by destruct (_ && _). }
  destruct Hfields as (F1 & F2 & F3 & F4).
  split; [exact F1|]. split; [exact F2|]. split; [exact F3|]. split; [exact F4|].
  split; [exact Hsub|]. split; [|split].
  - intros R. by apply StronglySorted_sublist.
  - intros Htop. subst served. unfold applyFilters.
    destruct (Qeq_bool threshold 0 && (Z.of_nat (length (sr_variants result)) <=? top))
      eqn:E; simpl.
    + apply andb_true_iff in E as [_ Etop]. by apply Z.leb_le in Etop.
    + by apply slice0_length.
  - intros Hpos. split; [by apply Hexact|].
    rewrite (Hexact Hpos). apply Forall_forall. intros v Hv.
    apply slice0_elem_of, list_elem_of_In, filter_In in Hv as [_ Hv].
    by apply Qle_bool_iff.
Qed.

(** ** The worker's rate limiter *)

Lemma alookup_filter_Some {V : Type} (f : jsstring * V -> bool) (k : jsstring) (v : V)
    (l : list (jsstring * V)) :
  alookup k l = Some v -> f (k, v) = true -> alookup k (List.filter f l) = Some v.
Proof.
  intros Hlook Hf. induction l as [|[k' v'] l IH]; simpl in *; [discriminate|].
  destruct (decide (k = k')) as [<-|Hne].
  - injection Hlook as ->. rewrite Hf. simpl. by rewrite decide_True.
  - destruct (f (k', v')); simpl; [rewrite decide_False by exact Hne|]; by apply IH.
Qed.

Lemma alookup_filter_None {V : Type} (f : jsstring * V -> bool) (k : jsstring)
    (l : list (jsstring * V)) :
  alookup k l = None -> alookup k (List.filter f l) = None.
Proof.
  intros Hlook. induction l as [|[k' v'] l IH]; simpl in *; [reflexivity|].
  destruct (decide (k = k')) as [<-|Hne]; [discriminate|].
  destruct (f (k', v')); simpl; [rewrite decide_False by exact Hne|]; by apply IH.
Qed.

(** The caller's own entry after a call. *)
Lemma checkRateLimit_own (now : Z) (ip : jsstring) (cost : option Z)
    (rateLimits : list (jsstring * RateEntry)) :
  exists entry,
    alookup ip (fst (checkRateLimit now ip cost rateLimits)) = Some entry /\
    snd (checkRateLimit now ip cost rateLimits) = (re_count entry <=? 10) /\
    now <= re_resetAt entry /\
    match alookup ip rateLimits with
    | Some old =>
        if re_resetAt old <? now
        then re_count entry = default 1 cost /\ re_resetAt entry = now + 60000
        else re_count entry = re_count old + default 1 cost /\
             re_resetAt entry = re_resetAt old
    | None => re_count entry = default 1 cost /\ re_resetAt entry = now + 60000
    end.
Proof.
  unfold checkRateLimit.
  set (fresh := {| re_count := 0; re_resetAt := now + 60000 |}).
  set (found := match alookup ip rateLimits with
                | Some entry => if re_resetAt entry <? now then fresh else entry
                | None => fresh
                end).
  set (entry := {| re_count := re_count found + default 1 cost;
                   re_resetAt := re_resetAt found |}).
  assert (Hlive : now <= re_resetAt entry).
  { subst entry found fresh. simpl.
    destruct (alookup ip rateLimits) as [old|]; simpl; [|lia].
    destruct (re_resetAt old <? now) eqn:E; simpl; [lia|]. by apply Z.ltb_ge in E. }
  exists entry. simpl. split; [|split; [reflexivity|split; [exact Hlive|]]].
  - destruct (1000 <? length (aset ip entry rateLimits))%nat.
    + apply alookup_filter_Some; [apply alookup_aset_eq|]. simpl.
      apply negb_true_iff, Z.ltb_ge. exact Hlive.
    + apply alookup_aset_eq.
  - subst entry found fresh. simpl.
    destruct (alookup ip rateLimits) as [old|]; simpl; [|by split].
    destruct (re_resetAt old <? now); simpl; by split.
Qed.

(** The entries of the other clients after a call. *)
Lemma checkRateLimit_other (now : Z) (ip other : jsstring) (cost : option Z)
    (rateLimits : list (jsstring * RateEntry)) :
  other <> ip ->
  (alookup other rateLimits = None ->
   alookup other (fst (checkRateLimit now ip cost rateLimits)) = None) /\
  (forall entry,
     alookup other rateLimits = Some entry -> now <= re_resetAt entry ->
     alookup other (fst (checkRateLimit now ip cost rateLimits)) = Some entry).
Proof.
  intros Hne. unfold checkRateLimit. simpl.
  match goal with |- context [aset ip ?e rateLimits] => set (entry := e) end.
  assert (Hset : alookup other (aset ip entry rateLimits) = alookup other rateLimits).
  { apply alookup_aset_ne. congruence. }
  split.
  - intros Hnone. destruct (1000 <? _)%nat; [|congruence].
    apply alookup_filter_None. congruence.
  - intros old Hold Hlive. destruct (1000 <? _)%nat; [|congruence].
    apply alookup_filter_Some; [congruence|]. simpl.
    by apply negb_true_iff, Z.ltb_ge.
Qed.

(** One call of the rate limiter: the caller is allowed exactly when its
    count, which starts again from the cost of the call when it has no entry
    or its window has passed and is raised by the cost otherwise, is at most
    ten; the call is counted whether it is allowed or not; the caller's entry
    survives the clean-up; and no entry of another client is created,
    changed or, while its window lasts, removed. *)
Theorem checkRateLimit_call (now : Z) (ip other : jsstring) (cost : option Z)
    (rateLimits : list (jsstring * RateEntry)) :
  let after := fst (checkRateLimit now ip cost rateLimits) in
  let allowed := snd (checkRateLimit now ip cost rateLimits) in
  (exists entry,
     alookup ip after = Some entry /\
     allowed = (re_count entry <=? 10) /\
     now <= re_resetAt entry /\
     match alookup ip rateLimits with
     | Some old =>
         if re_resetAt old <? now
         then re_count entry = default 1 cost /\ re_resetAt entry = now + 60000
         else re_count entry = re_count old + default 1 cost /\
              re_resetAt entry = re_resetAt old
     | None => re_count entry = default 1 cost /\ re_resetAt entry = now + 60000
     end) /\
  (other <> ip ->
   (alookup other rateLimits = None -> alookup other after = None) /\
   (forall entry,
      alookup other rateLimits = Some entry -> now <= re_resetAt entry ->
      alookup other after = Some entry)).
Proof.
  intros after allowed. split; [apply checkRateLimit_own|apply checkRateLimit_other].
Qed.

(** A refusal lasts: once a client's count is above ten, every call it
    makes before its window ends is refused, whatever calls it and other
    clients make in between, provided no cost is negative. *)
Theorem rateLimit_refusal_lasts (ip : jsstring) (entry : RateEntry)
    (rateLimits : list (jsstring * RateEntry))
    (calls : list (Z * jsstring * option Z)) (now : Z) (cost : option Z) :
  alookup ip rateLimits = Some entry ->
  10 < re_count entry ->
  Forall (fun call => fst (fst call) <= re_resetAt entry /\ 0 <= default 1 (snd call))
         calls ->
  now <= re_resetAt entry -> 0 <= default 1 cost ->
  snd (checkRateLimit now ip cost (rateCalls calls rateLimits)) = false.
Proof.
  intros Hentry Hcount Hcalls Hnow Hcost.
  assert (Hinv : exists e, alookup ip (rateCalls calls rateLimits) = Some e /\
                           re_resetAt e = re_resetAt entry /\ 10 < re_count e).
  { unfold rateCalls. revert rateLimits entry Hentry Hcount Hcalls Hnow.
    induction calls as [|[[t who] c] calls IH]; intros st e He Hc Hcalls Hnow; simpl.
    - by exists e.
    - apply Forall_cons in Hcalls as [[Ht Hc0] Hcalls]. simpl in Ht, Hc0.
      destruct (decide (who = ip)) as [->|Hne].
      + destruct (checkRateLimit_own t ip c st) as (e' & He' & _ & _ & Hcase).
        rewrite He in Hcase.
        assert (Hlive : (re_resetAt e <? t) = false) by (apply Z.ltb_ge; lia).
        rewrite Hlive in Hcase. destruct Hcase as [Hcnt Hreset].
        destruct (IH (fst (checkRateLimit t ip c st)) e' He') as (e2 & H1 & H2 & H3).
        * lia.
        * by rewrite Hreset.
        * lia.
        * exists e2. split; [exact H1|]. split; [congruence|exact H3].
      + destruct (checkRateLimit_other t who ip c st ltac:(congruence)) as [_ Hkeep].
        specialize (Hkeep e He Ht).
        by apply (IH (fst (checkRateLimit t who c st)) e Hkeep). }
  destruct Hinv as (e & He & Hreset & Hc).
  destruct (checkRateLimit_own now ip cost (rateCalls calls rateLimits))
    as (e' & _ & -> & _ & Hcase).
  rewrite He in Hcase.
  assert (Hlive : (re_resetAt e <? now) = false) by (apply Z.ltb_ge; lia).
  rewrite Hlive in Hcase. destruct Hcase as [Hcnt _].
  apply Z.leb_gt. lia.
Qed.

(** ** Code point labels *)

Lemma hexValue_snoc (s : jsstring) (c : Z) :
  hexValue (s ++ [c]) = hexValue s * 16 + hexDigitValue c.
Proof. unfold hexValue. by rewrite fold_left_app. Qed.

Lemma hexValue_zeros (k : nat) (s : jsstring) : hexValue (repeat 0x30 k ++ s) = hexValue s.
Proof.
  unfold hexValue. rewrite fold_left_app. f_equal.
  induction k as [|k IH]; [reflexivity|]. simpl. exact IH.
Qed.

Lemma hexDigit_char (d : Z) :
  0 <= d < 16 ->
  let c := if d <? 10 then 0x30 + d else 0x41 + (d - 10) in
  isUpperHexDigit c = true /\ hexDigitValue c = d.
Proof.
  intros Hd c. subst c. unfold isUpperHexDigit, hexDigitValue.
  destruct (d <? 10) eqn:E.
  - apply Z.ltb_lt in E.
    replace ((48 <=? 48 + d) && (48 + d <=? 57)) with true
      by (symmetry; apply andb_true_iff; split; apply Z.leb_le; lia).
    split; [reflexivity|lia].
  - apply Z.ltb_ge in E.
    replace ((48 <=? 65 + (d - 10)) && (65 + (d - 10) <=? 57)) with false
      by (symmetry; apply andb_false_iff; right; apply Z.leb_gt; lia).
    split; [|lia]. simpl.
    apply andb_true_iff; split; apply Z.leb_le; lia.
Qed.

Lemma hexDigits_spec (fuel : nat) (n : Z) (acc : jsstring) :
  (1 <= fuel)%nat ->
  0 <= n < 16 ^ Z.of_nat fuel ->
  exists digits,
    hexDigits fuel n acc = digits ++ acc /\
    (1 <= length digits <= fuel)%nat /\
    Forall (fun c => isUpperHexDigit c = true) digits /\
    hexValue digits = n.
Proof.
  revert n acc. induction fuel as [|fuel IH]; intros n acc Hfuel Hn; [lia|].
  - simpl hexDigits.
    assert (Hmod : 0 <= n mod 16 < 16) by (apply Z.mod_pos_bound; lia).
    destruct (hexDigit_char (n mod 16) Hmod) as [Hhex Hval].
    set (c := if n mod 16 <? 10 then 48 + n mod 16 else 65 + (n mod 16 - 10)) in *.
    pose proof (Z.div_mod n 16 ltac:(lia)) as Hdm.
    destruct (n / 16 =? 0) eqn:E.
    + apply Z.eqb_eq in E. exists [c]. split; [reflexivity|].
      split; [simpl; lia|]. split; [by constructor|].
      unfold hexValue. simpl. lia.
    + apply Z.eqb_neq in E.
      assert (Hdiv : 0 <= n / 16 < 16 ^ Z.of_nat fuel).
      { split; [apply Z.div_pos; lia|].
        apply Z.div_lt_upper_bound; [lia|].
        replace (16 ^ Z.of_nat (S fuel)) with (16 * 16 ^ Z.of_nat fuel) in Hn; [lia|].
        rewrite Nat2Z.inj_succ, Z.pow_succ_r by lia. reflexivity. }
      assert (Hfuel' : (1 <= fuel)%nat).
      { destruct fuel; [|lia]. simpl in Hdiv. lia. }
      destruct (IH (n / 16) (c :: acc) Hfuel' Hdiv) as (digits & Heq & Hlen & Hall & Hv).
      exists (digits ++ [c]). split; [by rewrite Heq, <- app_assoc|].
      split; [rewrite length_app; simpl; lia|].
      split; [apply Forall_app; split; [exact Hall|by constructor]|].
      rewrite hexValue_snoc, Hv, Hval. lia.
Qed.

Lemma codePointAt0_range (ch : jsstring) (cp : Z) :
  codeUnits ch -> codePointAt0 ch = Some cp -> 0 <= cp <= 0x10FFFF.
Proof.
  unfold codeUnits. intros Hunits.
  destruct ch as [|u [|v rest]]; simpl; [discriminate| |].
  - intros [= <-]. apply Forall_cons in Hunits as [Hu _]. lia.
  - apply Forall_cons in Hunits as [Hu Hunits]. apply Forall_cons in Hunits as [Hv _].
    destruct (isHighSurrogate u && isLowSurrogate v) eqn:E; intros [= <-]; [|lia].
    apply andb_true_iff in E as [E1 E2]. unfold isHighSurrogate, isLowSurrogate in *.
    lia.
Qed.

(** The label of a code point reads back: [toCodepoint] returns [U+]
    followed by four to six digits [0-9A-F] that denote the first code point
    of its argument in base sixteen (zero for the empty string), so
    characters with different code points never share a label. *)
Theorem toCodepoint_reads_back (ch : jsstring) :
  codeUnits ch ->
  exists digits,
    toCodepoint ch = js "U+" ++ digits /\
    (4 <= length digits <= 6)%nat /\
    Forall (fun c => isUpperHexDigit c = true) digits /\
    hexValue digits = default 0 (codePointAt0 ch).
Proof.
  intros Hunits. unfold toCodepoint.
  destruct (codePointAt0 ch) as [cp|] eqn:E.
  - pose proof (codePointAt0_range ch cp Hunits E) as Hcp.
    destruct (hexDigits_spec 6 cp []) as (digits & Heq & Hlen & Hall & Hv).
    { lia. }
    { simpl. lia. }
    rewrite app_nil_r in Heq. unfold toHexUpper. rewrite Heq.
    exists (padStart 4 0x30 digits). split; [reflexivity|]. unfold padStart.
    split; [rewrite length_app, repeat_length; lia|]. split.
    + apply Forall_app. split; [|exact Hall].
      apply Forall_forall. intros c Hc. apply list_elem_of_In, repeat_spec in Hc.
      by subst c.
    + by rewrite hexValue_zeros.
  - exists (js "0000"). split; [reflexivity|]. split; [simpl; lia|].
    split; [repeat constructor|reflexivity].
Qed.

(** ** From a variant back to the label *)

Lemma detectedFrom_none (k : nat) (chars : list jsstring) :
  Forall (fun x => asciiPrototype x = None) chars ->
  detectedFrom k chars = [] /\ map canonicalChar chars = chars.
Proof.
  intros Hall. revert k. induction Hall as [|x chars Hx _ IH]; intros k; simpl; [done|].
  rewrite Hx. destruct (IH (S k)) as [-> Hc]. split; [reflexivity|].
  unfold canonicalChar at 1. rewrite Hx. simpl. by rewrite Hc.
Qed.

Lemma detectedFrom_one (k i : nat) (chars : list jsstring) (c proto : jsstring) :
  Forall (fun x => asciiPrototype x = None) chars ->
  chars !! i = Some proto ->
  asciiPrototype c = Some proto ->
  detectedFrom k (<[i := c]> chars) = [reverseSubstitution (k + i) c proto] /\
  map canonicalChar (<[i := c]> chars) = chars.
Proof.
  intros Hall. revert k i.
  induction Hall as [|x chars Hx Hall IH]; intros k i Hi Hc; [discriminate|].
  destruct i as [|i]; simpl in *.
  - injection Hi as ->. rewrite Hc.
    destruct (detectedFrom_none (S k) chars Hall) as [-> Hcanon].
    rewrite Nat.add_0_r. split; [reflexivity|].
    unfold canonicalChar at 1. rewrite Hc. simpl. by rewrite Hcanon.
  - rewrite Hx. destruct (IH (S k) i Hi Hc) as [-> Hcanon].
    replace (S k + i)%nat with (k + S i)%nat by lia. split; [reflexivity|].
    unfold canonicalChar at 1. rewrite Hx. simpl. by rewrite Hcanon.
Qed.

(** Reverse scan undoes a one-character substitution.  Take a 1-edit
    variant of a label none of whose characters [CONFUSABLE_MAP_FULL] maps to
    another character in [a-z0-9].  Let the character it replaces be one of
    [a-z0-9], and let the replacement be a single code point, different from
    that character, that the table maps to it.  When the variant with its TLD
    splits into just that label and TLD and is not in ACE form, [reverseScan]
    reports exactly one candidate: the lower-cased label with the same TLD,
    reached by the one substitution at the position of the edit. *)
Theorem reverseScan_undoes_edit (input tld : jsstring) (options : GenerateOptions)
    (buckets : option PrototypeBuckets) (v : RawVariant) (s : Substitution) :
  v ∈ generateVariants input options buckets ->
  substitutions v = [s] ->
  isScalar (replacement s) = true ->
  isAsciiLowerAlnum (original s) = true ->
  replacement s <> original s ->
  alookup (replacement s) CONFUSABLE_MAP_FULL = Some (original s) ->
  Forall (fun x => forall ascii,
            alookup x CONFUSABLE_MAP_FULL = Some ascii ->
            isAsciiLowerAlnum ascii = true -> ascii = x)
         (spread (toLowerCase input)) ->
  splitDomain (label v ++ js "." ++ tld) = {| dp_label := label v; dp_tld := tld |} ->
  startsWith (js "xn--") (label v) = false ->
  exists r candidate,
    reverseScan (label v ++ js "." ++ tld) = Ok r /\
    impersonates r = [candidate] /\
    imp_domain candidate = toLowerCase input ++ js "." ++ tld /\
    imp_substitutions candidate =
      [reverseSubstitution (position s) (replacement s) (original s)].
Proof.
  intros Hv Hsubs Hscalar Halnum Hdiffers Hmap Hlabel Hsplit Hace.
  assert (Hproto : asciiPrototype (replacement s) = Some (original s)).
  { unfold asciiPrototype. rewrite Hmap, Halnum.
    rewrite (bool_decide_eq_false_2 _ Hdiffers).
    destruct (original s) as [|c rest]; [discriminate Halnum|].
    by rewrite bool_decide_eq_false_2. }
  assert (Hplain : Forall (fun x => asciiPrototype x = None) (spread (toLowerCase input))).
  { eapply Forall_impl; [exact Hlabel|]. intros x Hx. cbv beta in Hx.
    unfold asciiPrototype.
    destruct (alookup x CONFUSABLE_MAP_FULL) as [ascii|] eqn:Ex; [|reflexivity].
    destruct (isAsciiLowerAlnum ascii) eqn:Ea;
      [|by rewrite andb_false_r].
    rewrite (Hx ascii eq_refl Ea).
    rewrite (bool_decide_eq_true_2 (x = x) eq_refl). simpl.
    by rewrite andb_false_r. }
  set (chars := spread (toLowerCase input)) in *.
  assert (Hshape : exists i proto sub,
            chars !! i = Some proto /\
            v = {| label := concat (<[i := cs_char sub]> chars);
                   substitutions := [makeSubstitution i proto sub] |}).
  { apply generateVariants_shape in Hv. fold chars in Hv. simpl in Hv.
    destruct Hv as [(i & proto & subs & sub & Hi & _ & _ & ->)
                   |[_ (i & j & pI & pJ & subsI & subsJ & subI & subJ & _ & _ & _
                        & _ & _ & _ & _ & ->)]].
    - by exists i, proto, sub.
    - discriminate Hsubs. }
  destruct Hshape as (i & proto & sub & Hi & ->).
  cbn [label substitutions] in *.
  injection Hsubs as <-.
  cbn [makeSubstitution replacement original position] in *.
  assert (Hspread : spread (concat (<[i := cs_char sub]> chars)) = <[i := cs_char sub]> chars).
  { apply spread_concat, wellChunked_insert; [apply spread_wellChunked|exact Hscalar]. }
  destruct (detectedFrom_one 0 i chars (cs_char sub) proto Hplain Hi Hproto)
    as [Hdet Hcanon].
  unfold reverseScan. rewrite Hsplit. simpl dp_label. simpl dp_tld.
  rewrite Hace, Hspread, reverseLoop_spec, Hdet, Hcanon. simpl.
  eexists. eexists. split; [reflexivity|]. simpl. split; [reflexivity|].
  split; [|reflexivity]. subst chars. by rewrite concat_spread.
Qed.

(** ** The worker *)

(** The DNS-over-HTTPS resolver counts the records of the type it asked
    for only: a domain is registered exactly when the A query brought an
    answer of type 1, the AAAA query one of type 28 or the NS query one of
    type 2, and it is an active threat exactly when the MX query brought an
    answer of type 15; answers of other types, such as the CNAME records of
    an alias, are dropped. *)
Theorem dohResolve_counts_own_type (domain : jsstring) :
  let answer := dohResolve domain in
  (registered answer = true <->
   (exists r, r ∈ dohQuery domain (js "A") /\ da_type r = RR_A) \/
   (exists r, r ∈ dohQuery domain (js "AAAA") /\ da_type r = RR_AAAA) \/
   (exists r, r ∈ dohQuery domain (js "NS") /\ da_type r = RR_NS)) /\
  (threatLevel answer = active <->
   exists r, r ∈ dohQuery domain (js "MX") /\ da_type r = RR_MX) /\
  length (dns_a answer)
    = length (List.filter (fun r => da_type r =? RR_A) (dohQuery domain (js "A"))) /\
  length (dns_mx answer)
    = length (List.filter (fun r => da_type r =? RR_MX) (dohQuery domain (js "MX"))).
Proof.
  intros answer. subst answer. unfold dohResolve.
  assert (Hne : forall (ty : Z) (l : list DohAnswer),
            List.filter (fun r => da_type r =? ty) l <> [] <->
            exists r, r ∈ l /\ da_type r = ty).
  { intros ty l. split.
    - intros H. destruct (List.filter _ l) as [|r rest] eqn:E; [done|].
      assert (Hr : In r (List.filter (fun r => da_type r =? ty) l)) by (rewrite E; by left).
      apply filter_In in Hr as [Hr Ht]. exists r.
      split; [by apply list_elem_of_In|by apply Z.eqb_eq].
    - intros (r & Hr & Ht) E.
      assert (Hin : In r (List.filter (fun r => da_type r =? ty) l)).
      { apply filter_In. split; [by apply list_elem_of_In|by apply Z.eqb_eq]. }
      rewrite E in Hin. destruct Hin. }
  set (fa := List.filter (fun r => da_type r =? RR_A) (dohQuery domain (js "A"))).
  set (f4 := List.filter (fun r => da_type r =? RR_AAAA) (dohQuery domain (js "AAAA"))).
  set (fm := List.filter (fun r => da_type r =? RR_MX) (dohQuery domain (js "MX"))).
  set (fn := List.filter (fun r => da_type r =? RR_NS) (dohQuery domain (js "NS"))).
  rewrite <- !Hne. fold fa f4 fm fn.
  split; [|split; [|split]].
  - unfold dnsResultOf. simpl. rewrite !length_map.
    destruct fa, f4, fn; simpl; split;
      first [ intros _; reflexivity | discriminate
            | intros [H|[H|H]]; congruence | intros _; by left
            | intros _; right; by left | intros _; right; by right ].
  - unfold dnsResultOf. simpl. rewrite !length_map.
    destruct fm; simpl.
    + destruct (_ || _); split; first [discriminate | congruence].
    + split; [discriminate|reflexivity].
  - unfold dnsResultOf. simpl. by rewrite length_map.
  - unfold dnsResultOf. simpl. by rewrite length_map.
Qed.

(** The worker scans like the library: with [useMaxDanger] off and a cache
    that is empty or holds the buckets the worker builds, the worker's
    [runScan] returns what the library's [scan] returns for at most one
    edit, ten substitutes per character, 2000 variants and [top] capped at
    200, when the library resolves as the worker does; and it leaves the
    buckets in the cache. *)
Theorem runScan_is_scan (domain : jsstring) (options : WorkerOptions)
    (cachedBuckets : option PrototypeBuckets) :
  (forall buckets, cachedBuckets = Some buckets -> buckets = workerBuckets) ->
  default false (wo_useMaxDanger options) = false ->
  (forall d, createNodeResolver None None d = dohResolve d) ->
  fst (runScan domain options cachedBuckets) = scan domain (scanOptionsOf options) /\
  snd (runScan domain options cachedBuckets) = Some workerBuckets.
Proof.
  intros Hcache Hmax Hres.
  assert (Hb : getBuckets cachedBuckets = (workerBuckets, Some workerBuckets)).
  { unfold getBuckets. destruct cachedBuckets as [b|]; [|reflexivity].
    by rewrite (Hcache b eq_refl). }
  unfold runScan. rewrite Hb. cbn [fst snd]. split; [|reflexivity].
  unfold scan, scanOptionsOf.
  cbn [resolve top threshold tlds tldVariants font maxEdits maxPerChar maxVariants
       includeNonPvalid useMaxDanger concurrency timeout].
  assert (Hbuckets :
    buildPrototypeBuckets
      {| bo_includeNonPvalid := None; bo_maxPerChar := Some 10;
         bo_useMaxDanger := wo_useMaxDanger options |} = workerBuckets).
  { unfold workerBuckets, buildPrototypeBuckets. cbn [bo_useMaxDanger]. by rewrite Hmax. }
  rewrite Hbuckets. cbn [default].
  f_equal.
  destruct (default false (wo_resolve options)); [|reflexivity].
  f_equal. apply map_ext. intros v. by rewrite Hres.
Qed.

(** ** Table cells *)

Lemma paramRun_le (s : jsstring) : (paramRun s <= length s)%nat.
Proof.
  induction s as [|c s IH]; simpl; [lia|].
  destruct (_ || _); simpl; lia.
Qed.

Lemma paramRun_spaces (s : jsstring) (k : nat) :
  paramRun (s ++ repeat 32 k) = paramRun s.
Proof.
  induction s as [|c s IH]; simpl.
  - by destruct k.
  - destruct (_ || _); [by rewrite IH|reflexivity].
Qed.

Lemma escapeLength_le (s : jsstring) : (escapeLength s <= length s)%nat.
Proof.
  unfold escapeLength. destruct s as [|u [|v rest]]; simpl; try lia.
  destruct ((u =? 27) && (v =? 91)); [|lia].
  pose proof (paramRun_le rest) as Hle.
  destruct (drop (paramRun rest) rest) as [|m tail] eqn:E; [lia|].
  destruct (m =? 109); [|lia].
  assert (length (drop (paramRun rest) rest) = S (length tail)) by (by rewrite E).
  rewrite length_drop in H. lia.
Qed.

Lemma escapeLength_spaces (c : Z) (s : jsstring) (k : nat) :
  escapeLength ((c :: s) ++ repeat 32 k) = escapeLength (c :: s).
Proof.
  unfold escapeLength. destruct s as [|v rest]; simpl.
  - destruct k; simpl; [reflexivity|]. by rewrite andb_false_r.
  - destruct ((c =? 27) && (v =? 91)); [|reflexivity].
    rewrite paramRun_spaces.
    pose proof (paramRun_le rest) as Hle.
    rewrite drop_app_le by exact Hle.
    destruct (drop (paramRun rest) rest) as [|m tail]; simpl; [|reflexivity].
    by destruct k.
Qed.

Lemma stripFrom_cons (c : Z) (s : jsstring) :
  stripFrom O (c :: s) =
  match escapeLength (c :: s) with
  | O => c :: stripFrom O s
  | S skip => stripFrom skip s
  end.
Proof. reflexivity. Qed.

Lemma escapeLength_space (s : jsstring) : escapeLength (32 :: s) = O.
Proof. by destruct s. Qed.

Lemma stripFrom_spaces_only (k : nat) : stripFrom O (repeat 32 k) = repeat 32 k.
Proof.
  induction k as [|k IH]; [reflexivity|].
  change (repeat 32 (S k)) with (32 :: repeat 32 k).
  by rewrite stripFrom_cons, escapeLength_space, IH.
Qed.

Lemma stripFrom_spaces (skip : nat) (s : jsstring) (k : nat) :
  (skip <= length s)%nat ->
  stripFrom skip (s ++ repeat 32 k) = stripFrom skip s ++ repeat 32 k.
Proof.
  revert skip. induction s as [|c s IH]; intros skip Hskip.
  - simpl in Hskip. assert (skip = O) by lia. subst skip.
    simpl app. apply stripFrom_spaces_only.
  - change ((c :: s) ++ repeat 32 k) with (c :: (s ++ repeat 32 k)).
    destruct skip as [|skip].
    + rewrite !stripFrom_cons.
      change (c :: (s ++ repeat 32 k)) with ((c :: s) ++ repeat 32 k).
      rewrite escapeLength_spaces.
      pose proof (escapeLength_le (c :: s)) as Hle.
      destruct (escapeLength (c :: s)) as [|skip'].
      * simpl. by rewrite IH by lia.
      * apply IH. simpl in Hle. lia.
    + change (stripFrom (S skip) (c :: (s ++ repeat 32 k)))
        with (stripFrom skip (s ++ repeat 32 k)).
      change (stripFrom (S skip) (c :: s)) with (stripFrom skip s).
      apply IH. simpl in Hskip. lia.
Qed.

(** [pad] fills a cell up to its visible width: it only appends spaces,
    and after it the text without the ANSI colour sequences is as long as
    the wider of [width] and the text of [s] without them; nothing is ever
    cut. *)
Theorem pad_visible_width (s : jsstring) (width : Z) :
  let visible := Z.of_nat (length (stripAnsi s)) in
  pad s width = s ++ repeat 32 (Z.to_nat (width - visible)) /\
  stripAnsi (pad s width) = stripAnsi s ++ repeat 32 (Z.to_nat (width - visible)) /\
  Z.of_nat (length (stripAnsi (pad s width))) = Z.max width visible.
Proof.
  intros visible. unfold pad. fold visible.
  replace (Z.to_nat (Z.max 0 (width - visible))) with (Z.to_nat (width - visible)) by lia.
  split; [reflexivity|].
  unfold stripAnsi at 1 3. rewrite stripFrom_spaces by lia. fold (stripAnsi s).
  split; [reflexivity|].
  rewrite length_app, repeat_length. subst visible. lia.
Qed.

(** ** Fonts of a scored variant *)

Lemma orElse_Some_l {A : Type} (a b : option A) (x : A) :
  a = Some x -> a ?? b = Some x.
Proof. by intros ->. Qed.

Lemma fontProduct_two_four (weights : ConfusableWeights) (subs : list Substitution)
    (acc p : Q) :
  fontProduct (fun sub => weightAt weights (replacement sub) (original sub)
                          ?? weightAt weights (original sub) (replacement sub))
    subs acc = Some p ->
  fontProduct (fun sub => lookupWeight weights (replacement sub) (original sub))
    subs acc = Some p.
Proof.
  revert acc. induction subs as [|s subs IH]; intros acc; simpl; [done|].
  destruct (weightAt weights (replacement s) (original s)
            ?? weightAt weights (original s) (replacement s)) as [w|] eqn:E; [|discriminate].
  unfold lookupWeight. rewrite (orElse_Some_l _ _ w (orElse_Some_l _ _ w E)).
  apply IH.
Qed.

Lemma fontProduct_twoWay (weights : ConfusableWeights) (subs : list Substitution) :
  fontProduct (fun sub => weightAt weights (replacement sub) (original sub)
                          ?? weightAt weights (original sub) (replacement sub))
    subs 1%Q
  = fontScoreTwoWay weights subs.
Proof.
  rewrite fontProduct_pairDangers. unfold fontScoreTwoWay.
  rewrite (pairDangers_ext _ (twoWayWeight weights)); [reflexivity|].
  intros s. unfold twoWayWeight, firstFound.
  destruct (weightAt weights (replacement s) (original s)); [reflexivity|].
  by destruct (weightAt weights (original s) (replacement s)).
Qed.

(** A font requested by name: for a font name and substitutions that name
    no inherited property, a variant that reports a score reports it for
    the requested font, which is in the table and holds a weight for every
    pair in one of the two places it is looked up in, and the score is the
    product of their [danger] values.  When that score is positive and no
    font of the table has the empty name, the automatic choice, made for the
    same raw variant when no font is requested, reports a font whose score
    is at least as high. *)
Theorem scoreVariants_fonts (rawVariants : list RawVariant) (tld font : jsstring)
    (useMaxDanger : option bool) (i : nat) (requested detected : DomainVariant) (p : Q) :
  font <> [] -> font ∉ inheritedKeys ->
  Forall (fun raw => Forall plainKeys (substitutions raw)) rawVariants ->
  scoreVariants rawVariants tld
    {| so_useMaxDanger := useMaxDanger; so_font := Some font |} !! i = Some requested ->
  scoreVariants rawVariants tld
    {| so_useMaxDanger := useMaxDanger; so_font := None |} !! i = Some detected ->
  bestFontSsim requested = Some p ->
  bestFont requested = Some font /\
  (exists weights,
     alookup font FONT_SPECIFIC_WEIGHTS = Some weights /\
     fontScoreTwoWay weights (dv_substitutions requested) = Some p) /\
  ((0 < p)%Q -> Forall (fun entry => fst entry <> []) FONT_SPECIFIC_WEIGHTS ->
   exists g q,
     bestFont detected = Some g /\ bestFontSsim detected = Some q /\ (p <= q)%Q).
Proof.
  intros Hfont _ _ Hreq Hdet Hp. unfold scoreVariants in Hreq, Hdet.
  rewrite list_lookup_fmap in Hreq, Hdet.
  destruct (rawVariants !! i) as [raw|]; [|discriminate].
  injection Hreq as <-. injection Hdet as <-.
  unfold scoreVariant in *.
  cbn [bestFont bestFontSsim dv_substitutions so_font] in *.
  destruct font as [|c f]; [congruence|].
  destruct (alookup (c :: f) FONT_SPECIFIC_WEIGHTS) as [weights|] eqn:Ew;
    [|discriminate].
  destruct (fontProduct _ (substitutions raw) 1%Q) as [product|] eqn:Ep;
    [|discriminate].
  simpl in Hp. injection Hp as ->. simpl.
  rewrite fontProduct_twoWay in Ep.
  split; [reflexivity|]. split; [by exists weights|].
  intros Hpos Hnames.
  assert (Hfour : fontScore weights (substitutions raw) = Some p).
  { rewrite <- fontProduct_fontScore. apply fontProduct_two_four.
    by rewrite fontProduct_twoWay. }
  apply alookup_elem_of in Ew.
  pose proof (findBestFont_spec (substitutions raw)) as Hbest.
  destruct (findBestFont (substitutions raw)) as [[g q]|].
  - exists g, q. split; [reflexivity|]. split; [reflexivity|].
    destruct Hbest as [_ (pre & w & post & Hsplit & Hscore & _ & Hpre & Hpost)].
    rewrite Hsplit in Ew.
    apply elem_of_app in Ew as [Ew|Ew].
    + apply Qlt_le_weak. by apply (Hpre _ _ _ Ew).
    + apply elem_of_cons in Ew as [[= _ <-]|Ew].
      * rewrite Hfour in Hscore. injection Hscore as ->. apply Qle_refl.
      * by apply (Hpost _ _ _ Ew).
  - exfalso. destruct Hbest as [Hnone|[q (pre & w & post & Hsplit & _)]].
    + apply (Qlt_not_le _ _ Hpos). by apply (Hnone _ _ _ Ew).
    + rewrite Forall_forall in Hnames.
      apply (Hnames ([], w)); [|reflexivity].
      rewrite Hsplit. apply elem_of_app. right. left.
Qed.

(** ** CSV output *)

Lemma csvRead_quoted (field cur : jsstring) (row : list jsstring)
    (rows : list (list jsstring)) (rest : jsstring) :
  csvRead Quoted cur row rows
    (flat_map (fun c => if c =? 34 then [34; 34] else [c]) field ++ 34 :: rest)
  = csvRead QuoteSeen (cur ++ field) row rows rest.
Proof.
  revert cur. induction field as [|c field IH]; intros cur; simpl.
  - by rewrite app_nil_r.
  - destruct (c =? 34) eqn:E; simpl.
    + apply Z.eqb_eq in E. subst c. rewrite IH. by rewrite <- app_assoc.
    + rewrite E, IH. by rewrite <- app_assoc.
Qed.

Lemma csvRead_field (field : jsstring) (row : list jsstring)
    (rows : list (list jsstring)) (rest : jsstring) :
  csvRead FieldStart [] row rows (csvField field ++ rest)
  = csvRead QuoteSeen field row rows rest.
Proof.
  unfold csvField. simpl. rewrite <- app_assoc. simpl.
  by rewrite csvRead_quoted.
Qed.

Lemma csvRow_cons (f : jsstring) (fields : list jsstring) :
  fields <> [] -> csvRow (f :: fields) = csvField f ++ 44 :: csvRow fields.
Proof. destruct fields; [done|reflexivity]. Qed.

(** Reading a row leaves the reader behind the closing quote of its last
    field. *)
Lemma csvRead_row (init : list jsstring) (final : jsstring) (row : list jsstring)
    (rows : list (list jsstring)) (rest : jsstring) :
  csvRead FieldStart [] row rows (csvRow (init ++ [final]) ++ rest)
  = csvRead QuoteSeen final (row ++ init) rows rest.
Proof.
  revert row. induction init as [|f init IH]; intros row.
  - unfold csvRow. simpl map. simpl joinWith. rewrite csvRead_field.
    by rewrite app_nil_r.
  - change ((f :: init) ++ [final]) with (f :: (init ++ [final])).
    rewrite csvRow_cons by (by destruct init).
    rewrite <- app_assoc, csvRead_field.
    change ((44 :: csvRow (init ++ [final])) ++ rest)
      with (44 :: (csvRow (init ++ [final]) ++ rest)).
    simpl csvRead. rewrite IH. by rewrite <- app_assoc.
Qed.

Lemma joinWith_lines (first : jsstring) (lines : list jsstring) :
  joinWith [10] (first :: lines) = first ++ flat_map (fun l => 10 :: l) lines.
Proof.
  revert first. induction lines as [|l lines IH]; intros first.
  - simpl. by rewrite app_nil_r.
  - rewrite joinWith_cons, (IH l). reflexivity.
Qed.

Lemma csvRead_rows (variants : list DomainVariant) (cur : jsstring)
    (row : list jsstring) (rows : list (list jsstring)) (state : CsvState) :
  state = Bare \/ state = QuoteSeen ->
  csvRead state cur row rows
    (flat_map (fun l => 10 :: l) (map (fun v => csvRow (csvFields v)) variants))
  = Some (rows ++ [row ++ [cur]] ++ map csvFields variants).
Proof.
  revert cur row rows state.
  induction variants as [|v variants IH]; intros cur row rows state Hstate.
  - simpl. by destruct Hstate as [-> | ->].
  - cbn [map flat_map app].
    assert (Hstep : forall rest,
              csvRead state cur row rows (10 :: rest)
              = csvRead FieldStart [] [] (rows ++ [row ++ [cur]]) rest).
    { intros rest. by destruct Hstate as [-> | ->]. }
    rewrite Hstep.
    set (final := default []
           ((fun d =>
               joinWith (js ";")
                 (map (fun m => numberToString (fst m) ++ js ":" ++ snd m) (dns_mx d)))
            <$> dns v)).
    assert (Hrow : forall row rows rest,
              csvRead FieldStart [] row rows (csvRow (csvFields v) ++ rest)
              = csvRead QuoteSeen final (row ++ removelast (csvFields v)) rows rest).
    { intros row' rows' rest'.
      exact (csvRead_row (removelast (csvFields v)) final row' rows' rest'). }
    rewrite Hrow, IH by (by right).
    change (([] ++ removelast (csvFields v)) ++ [final]) with (csvFields v).
    by rewrite <- !app_assoc.
Qed.

(** The CSV output reads back: a reader of comma-separated values recovers
    from the output of [formatCsv] the header and, for each variant, its
    eleven fields, whatever characters they contain; quotes, commas and line
    feeds in a field do not break a row. *)
Theorem formatCsv_reads_back (result : ScanResult) :
  csvParse (formatCsv result)
  = Some (CSV_HEADERS :: map csvFields (sr_variants result)).
Proof.
  unfold formatCsv, csvParse. rewrite joinWith_lines.
  set (rest := flat_map _ _).
  assert (Hheader : forall rest,
            csvRead FieldStart [] [] [] (joinWith (js ",") CSV_HEADERS ++ rest)
            = csvRead Bare (js "mx_records") (removelast CSV_HEADERS) [] rest).
  { intros r. reflexivity. }
  rewrite Hheader. subst rest.
  rewrite csvRead_rows by (by left). reflexivity.
Qed.

End Core.

(** ** Runs on the sample tables *)

Local Abbreviation sampleBuild weights :=
  (buildPrototypeBuckets Sample.CONFUSABLE_MAP_FULL weights Sample.toLowerCase
     Sample.toUpperCase Sample.matchesScript).

Local Abbreviation sampleGenerate :=
  (generateVariants Sample.CONFUSABLE_MAP_FULL Sample.CONFUSABLE_WEIGHTS
     Sample.toLowerCase Sample.toUpperCase Sample.matchesScript).

Local Abbreviation sampleScan :=
  (scan Sample.CONFUSABLE_MAP_FULL Sample.CONFUSABLE_WEIGHTS
     Sample.FONT_SPECIFIC_WEIGHTS Sample.toLowerCase Sample.toUpperCase
     Sample.matchesScript Sample.urlHostname Sample.resolve4 Sample.resolve6
     Sample.resolveMx Sample.resolveNs).

Local Abbreviation sampleDoh :=
  (dohResolve Sample.dohQuery Sample.parseIntOr0).

Local Abbreviation sampleReverseScan :=
  (reverseScan Sample.CONFUSABLE_MAP_FULL Sample.CONFUSABLE_WEIGHTS
     Sample.toLowerCase Sample.toUpperCase Sample.matchesScript Sample.urlHostname).

(** The decoder on the label of the README's example, [xn--pypal-4ve]. *)
Example decodePunycodeLabel_pypal :
  decodePunycodeLabel (js "xn--pypal-4ve") = Ok (js "p" ++ Sample.cyrA ++ js "ypal").
Proof. by vm_compute. Qed.

(** Two substitutions in different scripts score 0.9 * 0.85 * 0.9 * 0.9 by
    their [stableDanger], and 1 * 1 * 0.9 * 0.9 by their [danger] under
    [useMaxDanger]; one substitution scores its [stableDanger]. *)
Lemma computeDangerScore_formula_witness :
  (computeDangerScore [Sample.subCyrA; Sample.subGreekE] noScoreOptions
   == (9 # 10) * (85 # 100) * (9 # 10) * (9 # 10))%Q /\
  (computeDangerScore [Sample.subCyrA; Sample.subGreekE] Sample.scoreByMax
   == 1 * 1 * (9 # 10) * (9 # 10))%Q /\
  (computeDangerScore [Sample.subCyrA] noScoreOptions == 9 # 10)%Q.
Proof.
  assert (Hmixed : mixedScripts [Sample.subCyrA; Sample.subGreekE]).
  { exists Sample.subCyrA, Sample.subGreekE.
    split; [left|]. split; [right; left|]. discriminate. }
  destruct (computeDangerScore_formula [Sample.subCyrA; Sample.subGreekE] noScoreOptions)
    as (_ & Hformula & Hsingle).
  destruct (computeDangerScore_formula [Sample.subCyrA; Sample.subGreekE]
              Sample.scoreByMax) as (_ & Hmax & _).
  split; [|split].
  - destruct (Hformula ltac:(discriminate)) as [H _].
    rewrite (H Hmixed). by vm_compute.
  - destruct (Hmax ltac:(discriminate)) as [H _].
    rewrite (H Hmixed). by vm_compute.
  - destruct (Hsingle Sample.subCyrA ltac:(reflexivity)) as [_ H].
    apply H; discriminate.
Defined.

(** C1 as stated fails for a [stableDanger] outside [0, 1]: a single
    substitution with the [stableDanger] 1.5 scores 1. *)
Lemma computeDangerScore_formula_counterexample :
  (computeDangerScore [Sample.subOver] noScoreOptions == 1)%Q /\
  ~ (computeDangerScore [Sample.subOver] noScoreOptions
     == stableDanger Sample.subOver)%Q.
Proof. split; [by vm_compute|]. by vm_compute. Qed.

(** C3 as stated fails for a label with a capital letter: under
    [maxEdits = 1] the variant of [Ab] that replaces [b] differs from [Ab]
    at the position of the capital as well, that is at two positions. *)
Lemma generateVariants_edits_counterexample :
  ~ Forall (fun v => diffCount (spread (js "Ab")) (spread (label v)) = 1%nat)
      (sampleGenerate (js "Ab") Sample.oneEditOnly None).
Proof.
  intros H.
  assert (Hex : Exists (fun v => diffCount (spread (js "Ab")) (spread (label v)) = 2%nat)
                  (sampleGenerate (js "Ab") Sample.oneEditOnly None)).
  { set (l := sampleGenerate _ _ _). vm_compute in l. subst l. right. left. reflexivity. }
  apply Exists_exists in Hex as (v & Hv & H2).
  rewrite Forall_forall in H. specialize (H v Hv). lia.
Qed.

(** The two variants of [Ab] are the edits of [ab] the theorem describes:
    each differs from [ab] at exactly one position. *)
Lemma generateVariants_edits_witness :
  length (sampleGenerate (js "Ab") Sample.oneEditOnly None) = 2%nat /\
  Forall (fun v =>
            diffCount [js "a"; js "b"] (spread (label v)) = 1%nat /\
            length (substitutions v) = 1%nat)
         (sampleGenerate (js "Ab") Sample.oneEditOnly None).
Proof.
  split; [by vm_compute|].
  apply Forall_forall. intros v Hv.
  destruct (generateVariants_edits Sample.CONFUSABLE_MAP_FULL Sample.CONFUSABLE_WEIGHTS
              Sample.toLowerCase Sample.toUpperCase Sample.matchesScript
              (js "Ab") Sample.oneEditOnly None v)
    as (mutated & _ & _ & H3 & _ & _ & H6 & H7).
  - intros b Hb. discriminate Hb.
  - exact Hv.
  - assert (H1 : length (substitutions v) = 1%nat).
    { destruct H6 as [H6|[_ H6]]; [exact H6|]. exfalso. revert H6. by vm_compute. }
    split; [|exact H1].
    rewrite H7; [by rewrite <- H1|].
    unfold scalarEntries.
    set (b := bucketsUsed _ _ _ _ _ _ _). vm_compute in b. subst b.
    repeat constructor.
Defined.


(** C7 as stated fails on a table with an upper-case key: the bucket of
    Cyrillic [а] lists [A], and there is no bucket of [A]. *)
Lemma buckets_symmetric_counterexample :
  exists x subs e,
    bo_includeNonPvalid Sample.includeAll = Some true /\
    alookup x (sampleBuild Sample.WEIGHTS_UPPER Sample.includeAll) = Some subs /\
    e ∈ subs /\
    alookup (cs_char e) (sampleBuild Sample.WEIGHTS_UPPER Sample.includeAll) = None.
Proof.
  exists Sample.cyrA. eexists. eexists.
  split; [reflexivity|]. split.
  - set (b := sampleBuild _ _). vm_compute in b. subst b. reflexivity.
  - split; [left|]. by vm_compute.
Qed.

(** It fails as well when the cap cuts a bucket: with [maxPerChar = 1] the
    bucket of [a] keeps Cyrillic [а] only, while the bucket of Greek [α]
    still lists [a]. *)
Lemma buckets_symmetric_capped_counterexample :
  exists subs e,
    alookup [0x3b1] (sampleBuild Sample.WEIGHTS_TWO (Sample.capAt 1)) = Some subs /\
    e ∈ subs /\ cs_char e = js "a" /\
    alookup (js "a") (sampleBuild Sample.WEIGHTS_TWO (Sample.capAt 1)) =
      Some [Sample.entryCyrA].
Proof.
  eexists. eexists. split.
  - set (b := sampleBuild _ _). vm_compute in b. subst b. reflexivity.
  - split; [left|]. split; by vm_compute.
Qed.

(** On the sample tables, whose keys are lower case, the bucket of
    Cyrillic [а] answers the entry of the bucket of [a]. *)
Lemma buckets_symmetric_witness :
  exists subs' e',
    alookup (cs_char Sample.entryCyrA)
      (sampleBuild Sample.CONFUSABLE_WEIGHTS Sample.includeAll) = Some subs' /\
    e' ∈ subs' /\ cs_char e' = js "a".
Proof.
  apply (buckets_symmetric Sample.CONFUSABLE_MAP_FULL Sample.CONFUSABLE_WEIGHTS
           Sample.toLowerCase Sample.toUpperCase Sample.matchesScript
           Sample.includeAll (js "a") [Sample.entryCyrA] Sample.entryCyrA).
  - reflexivity.
  - unfold lowerCaseKeys. repeat constructor.
  - unfold capKeepsAll.
    set (raw := buildRaw _ _ _ _ _ _). vm_compute in raw. subst raw.
    repeat constructor; discriminate.
  - by vm_compute.
  - left.
Defined.

(** C8 as stated fails when DNS resolution is requested: of the variants of
    [pop.com], the registered one (score 0.8) is moved in front of the
    unregistered one with the higher score (0.85). *)
Lemma ranking_sorted_counterexample :
  ~ sortedByDanger (sr_variants (sampleScan (js "pop.com") (Sample.scanWith (Some true)))).
Proof.
  intros H.
  assert (Hex : exists a b rest,
            sr_variants (sampleScan (js "pop.com") (Sample.scanWith (Some true)))
            = a :: b :: rest /\
            (dangerScore a < dangerScore b)%Q).
  { eexists. eexists. eexists. split.
    - set (l := sr_variants _). vm_compute in l. subst l. reflexivity.
    - by vm_compute. }
  destruct Hex as (a & b & rest & Heq & Hlt).
  rewrite Heq in H. apply StronglySorted_inv in H as [_ Hall].
  apply Forall_cons in Hall as [Hle _].
  exact (Qlt_not_le _ _ Hlt Hle).
Qed.

(** Without resolution the variants of [pop.com] come sorted by score. *)
Lemma ranking_sorted_witness :
  length (sr_variants (sampleScan (js "pop.com") (Sample.scanWith None))) = 6%nat /\
  sortedByDanger (sr_variants (sampleScan (js "pop.com") (Sample.scanWith None))).
Proof.
  split; [by vm_compute|].
  destruct (ranking_sorted Sample.CONFUSABLE_MAP_FULL Sample.CONFUSABLE_WEIGHTS
              Sample.FONT_SPECIFIC_WEIGHTS Sample.toLowerCase Sample.toUpperCase
              Sample.matchesScript Sample.urlHostname Sample.resolve4 Sample.resolve6
              Sample.resolveMx Sample.resolveNs
              (js "pop") Sample.oneEditOnly None
              (js "pop.com") (Sample.scanWith None)) as (_ & Hscan & _).
  destruct (Hscan ltac:(reflexivity)) as [Hsorted _]. exact Hsorted.
Defined.

(** C9 as stated fails for a negative cap: [slice(0, -1)] drops the last
    entry of a bucket, so the bucket of [a], which has two entries, keeps
    one, and one is more than [-1]. *)
Lemma maxPerChar_bounds_counterexample :
  exists subs,
    (js "a", subs) ∈ sampleBuild Sample.WEIGHTS_TWO (Sample.capAt (-1)) /\
    length subs = 1%nat /\
    ~ (Z.of_nat (length subs) <= -1).
Proof.
  exists [Sample.entryCyrA]. split; [|split; [reflexivity|simpl; lia]].
  apply alookup_elem_of. by vm_compute.
Qed.

(** With the cap 1 the bucket of [a] holds one entry, and position 0 of
    [ab] contributes at most one 1-edit variant.  Where the two scores rank
    the look-alikes of [a] differently, the bucket lists Greek [α] first
    under [useMaxDanger], by its higher [danger], and Cyrillic [а] first by
    default, by its higher [stableDanger]. *)
Lemma maxPerChar_bounds_witness :
  (map cs_char Sample.bucketByDanger = [[0x3b1]; Sample.cyrA] /\
   StronglySorted (fun a b => (cs_danger b <= cs_danger a)%Q) Sample.bucketByDanger) /\
  (map cs_char Sample.bucketByStable = [Sample.cyrA; [0x3b1]] /\
   StronglySorted (fun a b => (cs_stableDanger b <= cs_stableDanger a)%Q)
     Sample.bucketByStable) /\
  (Z.of_nat (length [Sample.entryCyrA]) <= 1) /\
  (Z.of_nat (oneEditsAt 0
               (generateVariants Sample.CONFUSABLE_MAP_FULL Sample.WEIGHTS_TWO
                  Sample.toLowerCase Sample.toUpperCase Sample.matchesScript
                  (js "ab") noGenerateOptions
                  (Some (sampleBuild Sample.WEIGHTS_TWO (Sample.capAt 1))))) <= 1) /\
  (Z.of_nat (oneEditsAt 0
               (generateVariants Sample.CONFUSABLE_MAP_FULL Sample.WEIGHTS_TWO
                  Sample.toLowerCase Sample.toUpperCase Sample.matchesScript
                  (js "ab") noGenerateOptions None)) <= 10).
Proof.
  destruct (maxPerChar_bounds Sample.CONFUSABLE_MAP_FULL Sample.WEIGHTS_TWO
              Sample.toLowerCase Sample.toUpperCase Sample.matchesScript
              (Sample.capAt 1) (js "a") [Sample.entryCyrA]
              (js "ab") noGenerateOptions None 0%nat) as (Hbucket & Hover & Hgen).
  destruct (maxPerChar_bounds Sample.CONFUSABLE_MAP_FULL Sample.WEIGHTS_CROSSED
              Sample.toLowerCase Sample.toUpperCase Sample.matchesScript
              Sample.byMaxDanger (js "a") Sample.bucketByDanger
              (js "ab") noGenerateOptions None 0%nat) as (Hdanger & _ & _).
  destruct (maxPerChar_bounds Sample.CONFUSABLE_MAP_FULL Sample.WEIGHTS_CROSSED
              Sample.toLowerCase Sample.toUpperCase Sample.matchesScript
              Sample.includeAll (js "a") Sample.bucketByStable
              (js "ab") noGenerateOptions None 0%nat) as (Hstable & _ & _).
  split; [|split; [|split; [|split]]].
  - split; [reflexivity|].
    apply Hdanger; [|reflexivity]. apply alookup_elem_of. by vm_compute.
  - split; [reflexivity|].
    apply Hstable; [|reflexivity]. apply alookup_elem_of. by vm_compute.
  - apply Hbucket; [|simpl; lia].
    apply alookup_elem_of. by vm_compute.
  - apply Hover. simpl. lia.
  - apply Hgen. simpl. lia.
Defined.


(** On the sample tables [reverseScan] raises on [xn--99999.com], and
    reports [paypal.com] for the README's [xn--pypal-4ve.com]. *)
Lemma reverseScan_raises_witness :
  sampleReverseScan (js "xn--99999.com") = RangeError /\
  impersonatesOf Sample.CONFUSABLE_MAP_FULL Sample.CONFUSABLE_WEIGHTS
    Sample.toLowerCase Sample.toUpperCase Sample.matchesScript Sample.urlHostname
    (js "xn--pypal-4ve.com")
  = Ok [{| imp_domain := js "paypal.com";
           similarity := (9 # 10) / 1;
           imp_substitutions :=
             [{| position := 1; original := js "a"; replacement := Sample.cyrA;
                 codepoint := js "U+0430"; script := js "Cyrillic";
                 danger := 1; stableDanger := 9 # 10; idnaPvalid := true |}] |}].
Proof.
  split; [|by vm_compute].
  apply reverseScan_raises. reflexivity.
Defined.

(** ** Further runs on the sample tables *)

(** Below the cap nothing is left out: the variant of [ab] with Cyrillic
    [а] in first place is among the variants generated. *)
Lemma generateVariants_complete_witness :
  concat (<[0%nat := Sample.cyrA]> [js "a"; js "b"])
  ∈ map label (sampleGenerate (js "ab") noGenerateOptions None).
Proof.
  destruct (generateVariants_complete Sample.CONFUSABLE_MAP_FULL Sample.CONFUSABLE_WEIGHTS
              Sample.toLowerCase Sample.toUpperCase Sample.matchesScript
              (js "ab") noGenerateOptions None) as [Hone _].
  - by vm_compute.
  - apply (Hone 0%nat (js "a") [Sample.entryCyrA] Sample.entryCyrA).
    + reflexivity.
    + by vm_compute.
    + left.
Defined.

(** The default buckets of the sample tables hold PVALID entries only. *)
Lemma buckets_pvalid_only_witness :
  (js "a", [Sample.entryCyrA]) ∈ sampleBuild Sample.CONFUSABLE_WEIGHTS noBuildOptions /\
  cs_idnaPvalid Sample.entryCyrA = true.
Proof.
  assert (Hin : (js "a", [Sample.entryCyrA])
                ∈ sampleBuild Sample.CONFUSABLE_WEIGHTS noBuildOptions).
  { apply alookup_elem_of. by vm_compute. }
  split; [exact Hin|].
  apply (buckets_pvalid_only Sample.CONFUSABLE_MAP_FULL Sample.CONFUSABLE_WEIGHTS
           Sample.toLowerCase Sample.toUpperCase Sample.matchesScript
           noBuildOptions (js "a") [Sample.entryCyrA] Sample.entryCyrA).
  - reflexivity.
  - exact Hin.
  - left.
Defined.

(** The TR39 mapping of Cyrillic [а] to [a] is served in both directions
    with the [stableDanger] 0.9 of the pair. *)
Lemma buckets_cover_map_witness :
  listedOrOutranked noBuildOptions (sampleBuild Sample.CONFUSABLE_WEIGHTS noBuildOptions)
    (js "a") Sample.cyrA (9 # 10) /\
  listedOrOutranked noBuildOptions (sampleBuild Sample.CONFUSABLE_WEIGHTS noBuildOptions)
    Sample.cyrA (js "a") (9 # 10).
Proof.
  apply (buckets_cover_map Sample.CONFUSABLE_MAP_FULL Sample.CONFUSABLE_WEIGHTS
           Sample.toLowerCase Sample.toUpperCase Sample.matchesScript
           noBuildOptions Sample.cyrA (js "a")).
  - left.
  - discriminate.
  - reflexivity.
  - simpl. lia.
Defined.

(** The scored pair of Cyrillic [е] and [e] is served from either key. *)
Lemma buckets_cover_weights_witness :
  listedOrOutranked noBuildOptions (sampleBuild Sample.CONFUSABLE_WEIGHTS noBuildOptions)
    Sample.cyrE (js "e") (95 # 100) /\
  listedOrOutranked noBuildOptions (sampleBuild Sample.CONFUSABLE_WEIGHTS noBuildOptions)
    (js "e") Sample.cyrE (95 # 100).
Proof.
  destruct (buckets_cover_weights Sample.CONFUSABLE_MAP_FULL Sample.CONFUSABLE_WEIGHTS
              Sample.toLowerCase Sample.toUpperCase Sample.matchesScript
              noBuildOptions Sample.cyrE (js "e")
              [(js "e", Sample.weight 1 (95 # 100) true)]
              (Sample.weight 1 (95 # 100) true)) as [HA HB].
  - right. left.
  - left.
  - reflexivity.
  - simpl. lia.
  - split; [apply HA|apply HB]; discriminate.
Defined.

(** With resolution, the six variants of [pop.com] are the six variants
    found without it, each with its DNS answer. *)
Lemma scan_resolve_annotates_witness :
  Permutation
    (sr_variants (sampleScan (js "pop.com") (Sample.scanWith (Some true))))
    (map (resolved Sample.resolve4 Sample.resolve6 Sample.resolveMx Sample.resolveNs
            (Sample.scanWith (Some true)))
       (sr_variants (sampleScan (js "pop.com") (Sample.scanWith None)))) /\
  totalGenerated (sampleScan (js "pop.com") (Sample.scanWith (Some true))) = 3%nat.
Proof.
  destruct (scan_resolve_annotates Sample.CONFUSABLE_MAP_FULL Sample.CONFUSABLE_WEIGHTS
              Sample.FONT_SPECIFIC_WEIGHTS Sample.toLowerCase Sample.toUpperCase
              Sample.matchesScript Sample.urlHostname Sample.resolve4 Sample.resolve6
              Sample.resolveMx Sample.resolveNs
              (js "pop.com") (Sample.scanWith (Some true))) as [Hperm Htotal].
  - reflexivity.
  - split; [exact Hperm|]. by vm_compute.
Defined.

(** The label [xn--pypal-4ve] decodes to its five basic characters, in
    their order, with inserted characters between them. *)
Lemma decodePunycodeLabel_keeps_basic_witness :
  exists output,
    Sample.pypal = concat output /\
    [js "p"; js "y"; js "p"; js "a"; js "l"] `sublist_of` output /\
    (5 <= length output <= 14)%nat.
Proof.
  destruct (decodePunycodeLabel_keeps_basic (js "pypal-4ve") Sample.pypal)
    as (output & Hout & Hsub & _ & Hlen).
  - by vm_compute.
  - exists output. split; [exact Hout|]. split; [exact Hsub|exact Hlen].
Defined.

(** The candidate [reverseScan] reports for [xn--pypal-4ve.com]: the one
    substitution of Cyrillic [а] for [a] at position 1, and a domain other
    than the decoded one. *)
Lemma reverseScan_candidate_witness :
  let candidate :=
    {| imp_domain := js "paypal.com";
       similarity := (0 + (9 # 10)) / inject_Z 1;
       imp_substitutions :=
         [{| position := 1; original := js "a"; replacement := Sample.cyrA;
             codepoint := js "U+0430"; script := js "Cyrillic";
             danger := 1; stableDanger := 9 # 10; idnaPvalid := true |}] |} in
  exists decodedLabel,
    decodedLabelOf Sample.toLowerCase (js "xn--pypal-4ve.com") = Ok decodedLabel /\
    positionsIncreasing (imp_substitutions candidate) /\
    imp_domain candidate <> decodedLabel ++ js ".com".
Proof.
  intros candidate.
  destruct (reverseScan_candidate Sample.CONFUSABLE_MAP_FULL Sample.CONFUSABLE_WEIGHTS
              Sample.toLowerCase Sample.toUpperCase Sample.matchesScript
              Sample.urlHostname (js "xn--pypal-4ve.com")
              {| rs_domain := js "xn--pypal-4ve.com";
                 rs_punycode := js "xn--pypal-4ve.com";
                 impersonates := [candidate] |} candidate)
    as (decodedLabel & Hdec & _ & _ & Hpos & _ & Hne).
  - by vm_compute.
  - left.
  - exists decodedLabel. split; [exact Hdec|]. split; [exact Hpos|exact Hne].
Defined.

(** A client at count 11 is still refused after another client's call and
    one of its own, all before its window ends. *)
Lemma rateLimit_refusal_lasts_witness :
  snd (checkRateLimit 3000 (js "198.51.100.7") None
         (rateCalls [ (1000, js "203.0.113.9", Some 5);
                      (2000, js "198.51.100.7", None) ] Sample.busyTable)) = false.
Proof.
  apply (rateLimit_refusal_lasts (js "198.51.100.7")
           {| re_count := 11; re_resetAt := 60000 |}).
  - reflexivity.
  - simpl. lia.
  - repeat constructor; simpl; lia.
  - simpl. lia.
  - simpl. lia.
Defined.

(** The label of Cyrillic [а] is [U+0430], which reads back as 0x430. *)
Lemma toCodepoint_reads_back_witness :
  exists digits,
    toCodepoint Sample.cyrA = js "U+" ++ digits /\
    (4 <= length digits <= 6)%nat /\
    Forall (fun c => isUpperHexDigit c = true) digits /\
    hexValue digits = 0x430.
Proof.
  apply (toCodepoint_reads_back Sample.cyrA).
  unfold codeUnits, Sample.cyrA. repeat constructor; lia.
Defined.

(** [reverseScan] leads from [pаypal.com], a variant of [paypal], back to
    [paypal.com]. *)
Lemma reverseScan_undoes_edit_witness :
  exists r candidate,
    sampleReverseScan (Sample.pypal ++ js ".com") = Ok r /\
    impersonates r = [candidate] /\
    imp_domain candidate = js "paypal.com" /\
    imp_substitutions candidate =
      [reverseSubstitution Sample.CONFUSABLE_WEIGHTS Sample.toUpperCase
         Sample.matchesScript 1 Sample.cyrA (js "a")].
Proof.
  apply (reverseScan_undoes_edit Sample.CONFUSABLE_MAP_FULL Sample.CONFUSABLE_WEIGHTS
           Sample.toLowerCase Sample.toUpperCase Sample.matchesScript Sample.urlHostname
           (js "paypal") (js "com") Sample.oneEditOnly None
           {| label := Sample.pypal;
              substitutions :=
                [makeSubstitution 1 (js "a") Sample.entryCyrA] |}
           (makeSubstitution 1 (js "a") Sample.entryCyrA)).
  - apply list_elem_of_In.
    set (l := generateVariants _ _ _ _ _ _ _ _). vm_compute in l. subst l.
    vm_compute. tauto.
  - reflexivity.
  - reflexivity.
  - reflexivity.
  - discriminate.
  - reflexivity.
  - set (l := spread _). vm_compute in l. subst l.
    repeat constructor; vm_compute; intros ascii H; discriminate H.
  - by vm_compute.
  - by vm_compute.
Defined.

(** The worker's scan of [pop.com] with resolution is the library's scan
    over lookups that find the records the worker's resolver finds. *)
Lemma runScan_is_scan_witness :
  fst (runScan Sample.CONFUSABLE_MAP_FULL Sample.CONFUSABLE_WEIGHTS
         Sample.FONT_SPECIFIC_WEIGHTS Sample.toLowerCase Sample.toUpperCase
         Sample.matchesScript Sample.urlHostname Sample.dohQuery Sample.parseIntOr0
         (js "pop.com") Sample.workerResolve None)
  = scan Sample.CONFUSABLE_MAP_FULL Sample.CONFUSABLE_WEIGHTS
      Sample.FONT_SPECIFIC_WEIGHTS Sample.toLowerCase Sample.toUpperCase
      Sample.matchesScript Sample.urlHostname
      (fun _ d => dns_a (sampleDoh d)) (fun _ d => dns_aaaa (sampleDoh d))
      (fun _ d => dns_mx (sampleDoh d)) (fun _ d => dns_ns (sampleDoh d))
      (js "pop.com") (scanOptionsOf Sample.workerResolve) /\
  map isRegistered
    (sr_variants
       (fst (runScan Sample.CONFUSABLE_MAP_FULL Sample.CONFUSABLE_WEIGHTS
               Sample.FONT_SPECIFIC_WEIGHTS Sample.toLowerCase Sample.toUpperCase
               Sample.matchesScript Sample.urlHostname Sample.dohQuery Sample.parseIntOr0
               (js "pop.com") Sample.workerResolve None)))
  = [true; false; false; false; false; false].
Proof.
  destruct (runScan_is_scan Sample.CONFUSABLE_MAP_FULL Sample.CONFUSABLE_WEIGHTS
              Sample.FONT_SPECIFIC_WEIGHTS Sample.toLowerCase Sample.toUpperCase
              Sample.matchesScript Sample.urlHostname
              (fun _ d => dns_a (sampleDoh d)) (fun _ d => dns_aaaa (sampleDoh d))
              (fun _ d => dns_mx (sampleDoh d)) (fun _ d => dns_ns (sampleDoh d))
              Sample.dohQuery Sample.parseIntOr0
              (js "pop.com") Sample.workerResolve None) as [Hscan _].
  - intros buckets Hb. discriminate Hb.
  - reflexivity.
  - intros d. reflexivity.
  - split; [exact Hscan|]. vm_compute. reflexivity.
Defined.

(** The scored variant [pаypal.com] with the font Arial requested reports
    Arial with the score 1 of that font, and so does the automatic
    choice. *)
Lemma scoreVariants_fonts_witness :
  let raw := {| label := Sample.pypal;
                substitutions := [makeSubstitution 1 (js "a") Sample.entryCyrA] |} in
  let requested :=
    scoreVariant Sample.FONT_SPECIFIC_WEIGHTS Sample.toUpperCase Sample.urlHostname
      (js "com") {| so_useMaxDanger := None; so_font := Some (js "Arial") |} raw in
  let detected :=
    scoreVariant Sample.FONT_SPECIFIC_WEIGHTS Sample.toUpperCase Sample.urlHostname
      (js "com") {| so_useMaxDanger := None; so_font := None |} raw in
  bestFontSsim requested = Some 1%Q /\
  bestFont requested = Some (js "Arial") /\
  exists g q, bestFont detected = Some g /\ bestFontSsim detected = Some q /\ (1 <= q)%Q.
Proof.
  intros raw requested detected.
  destruct (scoreVariants_fonts Sample.FONT_SPECIFIC_WEIGHTS Sample.toUpperCase
              Sample.urlHostname [raw] (js "com") (js "Arial") None 0%nat
              requested detected 1%Q) as (Hfont & _ & Hbest).
  - discriminate.
  - apply (bool_decide_unpack _). by vm_compute.
  - repeat constructor; apply (bool_decide_unpack _); by vm_compute.
  - reflexivity.
  - reflexivity.
  - by vm_compute.
  - split; [by vm_compute|]. split; [exact Hfont|].
    apply Hbest; [reflexivity|]. repeat constructor. discriminate.
Defined.

(** With the script Cyrillic the targets are the four default TLDs and
    [xn--p1ai], each once. *)
Lemma getTargetTlds_set_witness :
  getTargetTlds Sample.CONFUSABLE_MAP_FULL Sample.CONFUSABLE_WEIGHTS Sample.toLowerCase
    Sample.toUpperCase Sample.matchesScript None None (Some [js "Cyrillic"])
  = map js ["com"; "net"; "org"; "io"; "xn--p1ai"]%string /\
  NoDup (getTargetTlds Sample.CONFUSABLE_MAP_FULL Sample.CONFUSABLE_WEIGHTS
           Sample.toLowerCase Sample.toUpperCase Sample.matchesScript
           None None (Some [js "Cyrillic"])).
Proof.
  destruct (getTargetTlds_set Sample.CONFUSABLE_MAP_FULL Sample.CONFUSABLE_WEIGHTS
              Sample.toLowerCase Sample.toUpperCase Sample.matchesScript
              None None (Some [js "Cyrillic"])) as (Hnodup & _).
  - apply Forall_cons. split; [|constructor].
    apply (bool_decide_unpack _). by vm_compute.
  - split; [by vm_compute|exact Hnodup].
Defined.

(** Two substitutions with the scores 0.9 and 0.85 score no more than
    0.85 together. *)
Lemma computeDangerScore_range_witness :
  (computeDangerScore [Sample.subCyrA; Sample.subGreekE] noScoreOptions <= 85 # 100)%Q.
Proof.
  destruct (computeDangerScore_range [Sample.subCyrA; Sample.subGreekE] noScoreOptions)
    as (_ & _ & Hbelow).
  - apply Forall_cons. split; [split; discriminate|].
    apply Forall_cons. split; [split; discriminate|]. constructor.
  - apply (Hbelow Sample.subGreekE). right. left.
Defined.

(** For Cyrillic [а] in place of [a] the best font of the sample table is
    Arial, with the score 1. *)
Lemma findBestFont_first_best_witness :
  let subs := [makeSubstitution 1 (js "a") Sample.entryCyrA] in
  findBestFont Sample.FONT_SPECIFIC_WEIGHTS Sample.toUpperCase subs
  = Some (js "Arial", 1%Q) /\
  firstBestFont Sample.toUpperCase Sample.FONT_SPECIFIC_WEIGHTS subs (js "Arial") 1%Q.
Proof.
  intros subs.
  assert (Hbest : findBestFont Sample.FONT_SPECIFIC_WEIGHTS Sample.toUpperCase subs
                  = Some (js "Arial", 1%Q)) by (by vm_compute).
  split; [exact Hbest|].
  pose proof (findBestFont_first_best Sample.FONT_SPECIFIC_WEIGHTS Sample.toUpperCase
                subs) as H.
  rewrite Hbest in H. apply H.
  apply Forall_cons. split; [|constructor].
  repeat split; apply (bool_decide_unpack _); by vm_compute.
Defined.

